(** * dagstore: the shard lifecycle engine and the mount upgrader

    A shallow embedding of [mount/upgrader.go] and of the asynchronous
    workers, the constructor and the public API of the DAG store
    ([dagstore_async.go]), with the properties of the specification stated
    and settled against it. *)

From Stdlib Require Import Ascii String.
From stdpp Require Import base strings list gmap pretty.

Open Scope string_scope.
Open Scope list_scope.

(** ** Go values shared by both packages *)

(** Go's [error] values: the sentinels of package dagstore, [errors.New] /
    [fmt.Errorf] without a wrapped cause, and [fmt.Errorf("...: %w", err)]. *)
Inductive error : Type :=
  | ErrShardUnknown
  | ErrShardExists
  | ErrShardInitializationFailed
  | ErrShardInUse
  | errorString (msg : string)
  | wrapError (msg : string) (cause : error).

(** [errors.Is err target] for the targets above: walk the [%w] chain. *)
Fixpoint errors_Is (target : error -> bool) (err : error) : bool :=
  target err ||
  match err with
  | wrapError _ cause => errors_Is target cause
  | _ => false
  end.

Definition is_ErrShardUnknown (e : error) : bool :=
  match e with ErrShardUnknown => true | _ => false end.
Definition is_ErrShardExists (e : error) : bool :=
  match e with ErrShardExists => true | _ => false end.

(** A Go call returning [(value, error)]. *)
Inductive result (A : Type) : Type :=
  | Ok (a : A)
  | Err (e : error).
Arguments Ok {A} a.
Arguments Err {A} e.

(** A Go call that either returns or panics. *)
Inductive outcome (A : Type) : Type :=
  | Returns (a : A)
  | Panics (msg : string).
Arguments Returns {A} a.
Arguments Panics {A} msg.

(** ** Package path/filepath (unix): the error of [Rel] *)
Module filepath.

Definition Separator : Ascii.ascii := "/"%char.

(** The elements of a path between separators, first to last. *)
Fixpoint elements_from (cur : string) (p : string) : list string :=
  match p with
  | EmptyString => [cur]
  | String c p' =>
      if Ascii.eqb c Separator
      then cur :: elements_from "" p'
      else elements_from (cur +:+ String c "") p'
  end.

Definition elements (p : string) : list string := elements_from "" p.

Definition rooted (p : string) : bool :=
  match p with
  | String c _ => Ascii.eqb c Separator
  | EmptyString => false
  end.

(** [Clean], on elements: empty and [.] elements are dropped, an inner
    [..] removes the element before it, a [..] that begins a rooted path
    is dropped, one that begins a relative path is kept. [out] is the
    output so far, last element first. *)
Fixpoint clean_elements (root : bool) (out : list string) (els : list string)
  : list string :=
  match els with
  | [] => rev out
  | e :: els' =>
      if bool_decide (e = "" ∨ e = ".") then clean_elements root out els'
      else if bool_decide (e = "..") then
        match out with
        | top :: out' =>
            if bool_decide (top = "..")
            then clean_elements root (e :: out) els'
            else clean_elements root out' els'
        | [] =>
            if root then clean_elements root out els'
            else clean_elements root (e :: out) els'
        end
      else clean_elements root (e :: out) els'
  end.

(** The elements of [Clean p] as [Rel]'s loop walks them: a rooted path
    starts with the empty element before its first separator, and the
    relative path without elements is [.]. *)
Definition Clean_elements (p : string) : list string :=
  let els := clean_elements (rooted p) [] (elements p) in
  if rooted p then "" :: els
  else match els with [] => ["."] | _ => els end.

(** The first position where base and target differ, as the base element. *)
Fixpoint first_differing (base targ : list string) : option string :=
  match base, targ with
  | b :: base', t :: targ' =>
      if bool_decide (b = t) then first_differing base' targ' else Some b
  | _, _ => None
  end.

(** [_, err := filepath.Rel(basepath, targpath)]: [None] is a nil error.
    [Rel] fails when exactly one of the two cleaned paths is rooted, or
    when the first base element that differs from the target is [..];
    a target outside [basepath] is answered with a path through [..]
    and no error. *)
Definition Rel_err (basepath targpath : string) : option error :=
  let base := Clean_elements basepath in
  let targ := Clean_elements targpath in
  let cant :=
    Some (errorString ("Rel: can't make " +:+ targpath +:+ " relative to " +:+ basepath)) in
  if bool_decide (targ = base) then None
  else
    let base := if bool_decide (base = ["."]) then [] else base in
    if negb (Bool.eqb (rooted basepath) (rooted targpath)) then cant
    else match first_differing base targ with
         | Some ".." => cant
         | _ => None
         end.

End filepath.

(** ** Package os and io: the file system the upgrader works on *)
Module os.

(** Regular files by path with their bytes, the directories, the source
    of the random part of temporary names, and the size that the system
    reports for a directory. Paths are taken as written: two spellings of
    one path are two paths. The empty path names no directory. *)
Record FS : Type := {
  files : gmap string string;
  dirs : gset string;
  rand : nat;
  dir_size : nat;
}.

Definition set_files (m : gmap string string) (fs : FS) : FS :=
  {| files := m; dirs := dirs fs; rand := rand fs; dir_size := dir_size fs |}.
Definition set_dirs (ds : gset string) (fs : FS) : FS :=
  {| files := files fs; dirs := ds; rand := rand fs; dir_size := dir_size fs |}.
Definition next_rand (fs : FS) : FS :=
  {| files := files fs; dirs := dirs fs; rand := S (rand fs); dir_size := dir_size fs |}.

Definition TempDir : string := "/tmp".

Definition no_such (op path : string) : error :=
  errorString (op +:+ " " +:+ path +:+ ": no such file or directory").

(** What [Stat] returns of a [FileInfo]: [Size()] and [IsDir()]. *)
Record FileInfo : Type := {
  Size : nat;
  IsDir : bool;
}.

Definition is_dir (path : string) (fs : FS) : bool :=
  bool_decide (path ≠ "" ∧ path ∈ dirs fs).

(** [os.Stat(path)], on a regular file or a directory. *)
Definition Stat (path : string) (fs : FS) : result FileInfo :=
  match files fs !! path with
  | Some bytes => Ok {| Size := String.length bytes; IsDir := false |}
  | None =>
      if is_dir path fs then Ok {| Size := dir_size fs; IsDir := true |}
      else Err (no_such "stat" path)
  end.

Fixpoint ends_with_separator (s : string) : bool :=
  match s with
  | EmptyString => false
  | String c EmptyString => Ascii.eqb c filepath.Separator
  | String _ s' => ends_with_separator s'
  end.

Definition joinPath (dir name : string) : string :=
  if ends_with_separator dir then dir +:+ name
  else dir +:+ "/" +:+ name.

(** [p] is a path below the directory [dir]. *)
Definition inside (dir p : string) : bool :=
  String.prefix (joinPath dir "") p && negb (String.eqb p (joinPath dir "")).

(** Nothing on disk is below [dir]. *)
Definition empty_dir (dir : string) (fs : FS) : Prop :=
  set_Forall (λ p, inside dir p = false) (dom (files fs) ∪ dirs fs).

(** [os.Remove(path)]: a regular file, or a directory that is empty. *)
Definition Remove (path : string) (fs : FS) : option error * FS :=
  match files fs !! path with
  | Some _ => (None, set_files (delete path (files fs)) fs)
  | None =>
      if is_dir path fs then
        if bool_decide (empty_dir path fs) then (None, set_dirs (dirs fs ∖ {[ path ]}) fs)
        else (Some (errorString ("remove " +:+ path +:+ ": directory not empty")), fs)
      else (Some (no_such "remove" path), fs)
  end.

Fixpoint has_separator (s : string) : bool :=
  match s with
  | EmptyString => false
  | String c s' => Ascii.eqb c filepath.Separator || has_separator s'
  end.

(** [prefixAndSuffix]: split the pattern at its last [*]. *)
Fixpoint split_last_star (pattern : string) : option (string * string) :=
  match pattern with
  | EmptyString => None
  | String c rest =>
      match split_last_star rest with
      | Some (pre, suf) => Some (String c pre, suf)
      | None => if Ascii.eqb c "*"%char then Some ("", rest) else None
      end
  end.

Definition prefixAndSuffix (pattern : string) : result (string * string) :=
  if has_separator pattern then Err (errorString "pattern contains path separator")
  else match split_last_star pattern with
       | Some ps => Ok ps
       | None => Ok (pattern, "")
       end.

(** The retry loop of [CreateTemp]: a name that exists is tried again
    with the next random part, [try] times at most. The file is opened
    with [O_CREATE|O_EXCL] in [dir]. *)
Fixpoint CreateTemp_loop (try : nat) (dir pre suf : string) (fs : FS)
  : result string * FS :=
  let name := joinPath dir (pre +:+ pretty (rand fs) +:+ suf) in
  match Stat name fs with
  | Err _ =>
      if is_dir dir fs then (Ok name, set_files (<[name := ""]> (files fs)) (next_rand fs))
      else
        match files fs !! dir with
        | Some _ => (Err (errorString ("open " +:+ name +:+ ": not a directory")), next_rand fs)
        | None => (Err (no_such "open" name), next_rand fs)
        end
  | Ok _ =>
      match try with
      | O => (Err (wrapError ("createtemp " +:+ joinPath dir pre +:+ "*" +:+ suf)
                     (errorString "file already exists")), next_rand fs)
      | S try' => CreateTemp_loop try' dir pre suf (next_rand fs)
      end
  end.

(** [os.CreateTemp(dir, pattern)]: the name of the new, empty file. *)
Definition CreateTemp (dir pattern : string) (fs : FS) : result string * FS :=
  let dir := if bool_decide (dir = "") then TempDir else dir in
  match prefixAndSuffix pattern with
  | Err e => (Err (wrapError ("createtemp " +:+ pattern) e), fs)
  | Ok (pre, suf) => CreateTemp_loop (100 * 100 - 1) dir pre suf fs
  end.

End os.

(** ** Package mount: the upgrader ([mount/upgrader.go]) *)
Module mount.

Inductive Kind : Type := KindLocal | KindRemote.

(** Modelled from the spec: the declarations of [mount.go] are not part
    of the sources at hand. [Info() → {Kind, AccessSequential,
    AccessSeek, AccessRandom}]. *)
Record Info : Type := {
  Kind_of : Kind;
  AccessSequential : bool;
  AccessSeek : bool;
  AccessRandom : bool;
}.

(** Modelled from the spec: [Stat(ctx) → {Exists, Size}]. *)
Record Stat : Type := {
  Exists : bool;
  Size : nat;
}.

(** Modelled from the spec: a [Reader] is read sequentially and closed.
    [data] are the bytes it yields, [read_err] the error that ends the
    reading ([None] for a clean end of file), [close_err] what [Close]
    returns. *)
Record Reader : Type := {
  data : string;
  read_err : option error;
  close_err : option error;
}.

(** Modelled from the spec: the [Mount] interface as the upgrader
    consumes it, the answers of one mount to [Info], [Fetch] and [Stat]. *)
Record Mount : Type := {
  Mount_Info : Info;
  Mount_Fetch : result Reader;
  Mount_Stat : result Stat;
}.

(** A [sync.Once]: not yet run, running its function, or done. *)
Inductive Once : Type := OnceFresh | OnceRunning | OnceDone.

(** What an execution does to its surroundings, oldest first. *)
Inductive event : Type :=
  | EvRefetch                  (* [refetch] is entered *)
  | EvUnderlyingStat           (* [u.underlying.Stat] *)
  | EvUnderlyingFetch          (* [u.underlying.Fetch] *)
  | EvRemove (path : string)   (* [os.Remove] *)
  | EvOpen (path : string).    (* [os.Open] *)

Global Instance event_eq_dec : EqDecision event.
Proof. solve_decision. Defined.

(** The surroundings of an upgrader: the file system, the [sync.Once]
    objects allocated so far (a [*sync.Once] is an index in [onces]) and
    the events so far. *)
Record World : Type := {
  fs : os.FS;
  onces : list Once;
  log : list event;
}.

Definition set_fs (f : os.FS) (w : World) : World :=
  {| fs := f; onces := onces w; log := log w |}.
Definition set_once (o : nat) (st : Once) (w : World) : World :=
  {| fs := fs w; onces := <[o := st]> (onces w); log := log w |}.
Definition emit (e : event) (w : World) : World :=
  {| fs := fs w; onces := onces w; log := log w ++ [e] |}.

(** [new(sync.Once)] *)
Definition new_Once (w : World) : nat * World :=
  (length (onces w), {| fs := fs w; onces := onces w ++ [OnceFresh]; log := log w |}).

(** [os.Open(path)] as a reader: on the bytes of a regular file; a
    directory is opened too, and reading it fails. *)
Definition os_Open (path : string) (w : World) : result Reader * World :=
  (match os.files (fs w) !! path with
   | Some bytes => Ok {| data := bytes; read_err := None; close_err := None |}
   | None =>
       if os.is_dir path (fs w) then
         Ok {| data := "";
               read_err := Some (errorString ("read " +:+ path +:+ ": is a directory"));
               close_err := None |}
       else Err (os.no_such "open" path)
   end, emit (EvOpen path) w).

(** [io.Copy(file, from)]: the bytes read reach the file, the error of
    the reader is returned. *)
Definition io_Copy (file : string) (from : Reader) (w : World) : option error * World :=
  (read_err from, set_fs (os.set_files (<[file := data from]> (os.files (fs w))) (fs w)) w).

Record Upgrader : Type := {
  rootdir : string;
  underlying : Mount;
  key : string;
  passthrough : bool;
  (* guarded by lk *)
  transient : string;
  once : nat;
}.

Definition set_transient (t : string) (u : Upgrader) : Upgrader :=
  {| rootdir := rootdir u; underlying := underlying u; key := key u;
     passthrough := passthrough u; transient := t; once := once u |}.
Definition set_once_ptr (o : nat) (u : Upgrader) : Upgrader :=
  {| rootdir := rootdir u; underlying := underlying u; key := key u;
     passthrough := passthrough u; transient := transient u; once := o |}.

Definition set_passthrough (b : bool) (u : Upgrader) : Upgrader :=
  {| rootdir := rootdir u; underlying := underlying u; key := key u;
     passthrough := b; transient := transient u; once := once u |}.

(** [Upgrade(underlying, rootdir, key, initial)] *)
Definition Upgrade (underlying' : Mount) (rootdir' key' initial : string) (w : World)
  : result Upgrader * World :=
  let '(o, w) := new_Once w in
  let ret := {| rootdir := if bool_decide (rootdir' = "") then os.TempDir else rootdir';
                underlying := underlying'; key := key'; passthrough := false;
                transient := ""; once := o |} in
  let info := Mount_Info underlying' in
  if negb (AccessSequential info) then
    (Err (errorString "underlying mount must support sequential access"), w)
  else if AccessSeek info && AccessRandom info then
    (Ok (set_passthrough true ret), w)
  else if negb (bool_decide (initial = "")) then
    match os.Stat initial (fs w) with
    | Ok _ => (Ok (set_transient initial ret), w)
    | Err _ => (Ok ret, w)
    end
  else (Ok ret, w).

(** [refetch], first part (under [lk]): the stale transient is removed,
    the error of the removal dropped. *)
Definition refetch_remove (u : Upgrader) (w : World) : World :=
  let w := emit EvRefetch w in
  if negb (bool_decide (transient u = "")) then
    let '(_, f) := os.Remove (transient u) (fs w) in
    emit (EvRemove (transient u)) (set_fs f w)
  else w.

(** [refetch], middle part (no lock held): the temporary file is
    created and the underlying mount copied into it. The result is the
    name of the file. *)
Definition refetch_copy (u : Upgrader) (w : World) : result string * World :=
  match os.CreateTemp (rootdir u) ("transient-" +:+ key u +:+ "-*") (fs w) with
  | (Err err, f) =>
      (Err (wrapError "failed to create temporary file" err), set_fs f w)
  | (Ok file, f) =>
      let w := emit EvUnderlyingStat (set_fs f w) in
      match Mount_Stat (underlying u) with
      | Err err => (Err (wrapError "underlying mount stat returned error" err), w)
      | Ok stat =>
          if negb (Exists stat) then
            (Err (errorString "underlying mount no longer exists"), w)
          else
            let w := emit EvUnderlyingFetch w in
            match Mount_Fetch (underlying u) with
            | Err err => (Err (wrapError "failed to fetch from underlying mount" err), w)
            | Ok from =>
                match io_Copy file from w with
                | (Some err, w) =>
                    (Err (wrapError "failed to copy underlying mount to transient file" err), w)
                | (None, w) => (Ok file, w)
                end
            end
      end
  end.

(** [refetch], last part (under [lk]): the new path is set and the
    [sync.Once] recycled. *)
Definition refetch_commit (file : string) (u : Upgrader) (w : World) : Upgrader * World :=
  let '(o, w) := new_Once w in
  (set_once_ptr o (set_transient file u), w).

(** [func (u *Upgrader) refetch(ctx) error]. The deferred [file.Close()]
    and [from.Close()] leave nothing behind here. *)
Definition refetch (u : Upgrader) (w : World) : option error * Upgrader * World :=
  let w := refetch_remove u w in
  match refetch_copy u w with
  | (Err err, w) => (Some err, u, w)
  | (Ok file, w) =>
      let '(u, w) := refetch_commit file u w in
      (None, u, w)
  end.

(** [once.Do(f)], run by one goroutine on its own: [f] runs if the once
    is fresh, and its result is [Some]; a once that is done returns at
    once. A once is running only while [f] runs. *)
Definition once_Do {R : Type} (o : nat)
    (f : Upgrader -> World -> R * Upgrader * World) (u : Upgrader) (w : World)
  : option R * Upgrader * World :=
  match onces w !! o with
  | Some OnceFresh =>
      let '(r, u, w) := f u (set_once o OnceRunning w) in
      (Some r, u, set_once o OnceDone w)
  | _ => (None, u, w)
  end.

(** [Fetch], first part (under [lk]): [inl] is the reader returned on
    the live transient, [inr] the [sync.Once] read for the refetch. *)
Definition Fetch_check (u : Upgrader) (w : World) : (result Reader + nat) * World :=
  if negb (bool_decide (transient u = "")) then
    match os.Stat (transient u) (fs w) with
    | Ok _ => let '(r, w) := os_Open (transient u) w in (inl r, w)
    | Err _ => (inr (once u), w)
    end
  else (inr (once u), w).

(** [Fetch], last part: the error of the refetch this call ran itself,
    or the transient opened under [lk]. *)
Definition Fetch_finish (err : option error) (u : Upgrader) (w : World)
  : result Reader * World :=
  match err with
  | Some err => (Err (wrapError "mount fetch failed" err), w)
  | None => os_Open (transient u) w
  end.

(** [func (u *Upgrader) Fetch(ctx)] *)
Definition Fetch (u : Upgrader) (w : World) : result Reader * Upgrader * World :=
  if passthrough u then (Mount_Fetch (underlying u), u, emit EvUnderlyingFetch w)
  else
    match Fetch_check u w with
    | (inl r, w) => (r, u, w)
    | (inr once, w) =>
        (* var err error; once.Do(func() { err = u.refetch(ctx) }) *)
        let '(ran, u, w) := once_Do once refetch u w in
        let err := match ran with Some err => err | None => None end in
        let '(r, w) := Fetch_finish err u w in
        (r, u, w)
    end.

(** *** Concurrent calls of [Fetch]

    Goroutines that call [Fetch] on one upgrader. What a goroutine does
    while it holds [lk] is one step, and so is each stretch of [refetch]
    between two critical sections. *)

(** Where a goroutine is in [Fetch]. *)
Inductive pc : Type :=
  | AtEntry                                  (* [Fetch] is called *)
  | AtDo (o : nat)                           (* [lk] dropped, before [once.Do] *)
  | InRefetch (o : nat)                      (* in [once.Do]: [refetch] is called *)
  | InCopy (o : nat)                         (* [refetch] after its first critical section *)
  | InCommit (o : nat) (file : string)       (* [refetch] before its last critical section *)
  | LeavingDo (o : nat) (err : option error) (* [refetch] has returned [err] *)
  | AfterDo (err : option error)             (* [once.Do] has returned *)
  | Returned (r : result Reader).            (* [Fetch] has returned [r] *)

(** One step of a goroutine; [None] when it cannot move: it has
    returned, or it waits in [once.Do] for the goroutine that runs the
    function. *)
Definition step (p : pc) (u : Upgrader) (w : World) : option (pc * Upgrader * World) :=
  match p with
  | AtEntry =>
      if passthrough u then
        Some (Returned (Mount_Fetch (underlying u)), u, emit EvUnderlyingFetch w)
      else
        match Fetch_check u w with
        | (inl r, w) => Some (Returned r, u, w)
        | (inr o, w) => Some (AtDo o, u, w)
        end
  | AtDo o =>
      match onces w !! o with
      | Some OnceFresh => Some (InRefetch o, u, set_once o OnceRunning w)
      | Some OnceRunning => None
      | _ => Some (AfterDo None, u, w)
      end
  | InRefetch o => Some (InCopy o, u, refetch_remove u w)
  | InCopy o =>
      match refetch_copy u w with
      | (Err err, w) => Some (LeavingDo o (Some err), u, w)
      | (Ok file, w) => Some (InCommit o file, u, w)
      end
  | InCommit o file =>
      let '(u, w) := refetch_commit file u w in
      Some (LeavingDo o None, u, w)
  | LeavingDo o err => Some (AfterDo err, u, set_once o OnceDone w)
  | AfterDo err =>
      let '(r, w) := Fetch_finish err u w in
      Some (Returned r, u, w)
  | Returned _ => None
  end.

(** The upgrader, its surroundings and the goroutines in [Fetch]. *)
Record System : Type := {
  upgrader : Upgrader;
  surroundings : World;
  goroutines : list pc;
}.

(** Goroutine [i] takes a step, if it can. *)
Definition sched (i : nat) (s : System) : option System :=
  match goroutines s !! i with
  | None => None
  | Some p =>
      match step p (upgrader s) (surroundings s) with
      | None => None
      | Some (p', u, w) =>
          Some {| upgrader := u; surroundings := w;
                  goroutines := <[i := p']> (goroutines s) |}
      end
  end.

(** The goroutines step in the order of [schedule]; a goroutine that is
    chosen while it cannot move is passed over. *)
Fixpoint run (schedule : list nat) (s : System) : System :=
  match schedule with
  | [] => s
  | i :: schedule =>
      match sched i s with
      | Some s' => run schedule s'
      | None => run schedule s
      end
  end.

(** The number of refetches a log records. *)
Definition refetches (l : list event) : nat :=
  length (filter (λ e, e = EvRefetch) l).


Definition Info_of (u : Upgrader) : Info :=
  {| Kind_of := KindLocal; AccessSequential := true;
     AccessSeek := true; AccessRandom := true |}.

(** [func (u *Upgrader) Stat(ctx)] *)
Definition Stat_of (u : Upgrader) (w : World) : result Stat * World :=
  let under := (Mount_Stat (underlying u), emit EvUnderlyingStat w) in
  if negb (bool_decide (transient u = "")) then
    match os.Stat (transient u) (fs w) with
    | Ok stat => (Ok {| Exists := true; Size := os.Size stat |}, w)
    | Err _ => under
    end
  else under.

Definition TransientPath (u : Upgrader) : string := transient u.

(** [func (u *Upgrader) Close() error] *)
Definition Close (u : Upgrader) (w : World) : outcome (option error * Upgrader * World) :=
  Panics "implement me".

(** [func (u *Upgrader) DeleteTransient() error] *)
Definition DeleteTransient (u : Upgrader) (w : World) : option error * Upgrader * World :=
  if bool_decide (transient u = "") then (None, u, w)
  else
    match filepath.Rel_err (rootdir u) (transient u) with
    | Some _ => (None, u, w)
    | None =>
        let '(err, f) := os.Remove (transient u) (fs w) in
        (err, set_transient "" u, emit (EvRemove (transient u)) (set_fs f w))
    end.

End mount.

(** ** Package dagstore: workers, constructor and public API *)
Module dagstore.

(** [shard.Key], by its [String()]. *)
Definition Key : Type := string.

(** Modelled from the spec: [OpType] is declared outside the sources at
    hand; the operations are [Register], [Acquire], [Release], [Fail],
    [MakeAvailable], [Recover], [Destroy], [GC]. *)
Inductive OpType : Type :=
  | OpShardRegister
  | OpShardMakeAvailable
  | OpShardDestroy
  | OpShardAcquire
  | OpShardFail
  | OpShardRelease
  | OpShardRecover
  | OpShardGC.

(** Modelled from the spec: the states of a shard, [ShardState] being
    declared outside the sources at hand. *)
Inductive ShardState : Type :=
  | ShardStateNew
  | ShardStateInitializing
  | ShardStateAvailable
  | ShardStateServing
  | ShardStateErrored
  | ShardStateRecovering
  | ShardStateDestroying.

Global Instance ShardState_eq_dec : EqDecision ShardState.
Proof. solve_decision. Defined.

(** Modelled from the spec: the shard record [{key, state, error, refs,
    mount, lazy}]; [Shard] is declared outside the sources at hand. *)
Record Shard : Type := {
  key : Key;
  state : ShardState;
  err : option error;
  refs : nat;
  mount_of : mount.Upgrader;
  lazy : bool;
}.

Definition set_state (st : ShardState) (s : Shard) : Shard :=
  {| key := key s; state := st; err := err s; refs := refs s;
     mount_of := mount_of s; lazy := lazy s |}.

(** A [context.Context]: whether it is done when a throttler looks at
    it, and what its [Err()] returns once it is done ([Canceled] or
    [DeadlineExceeded]). *)
Record Context : Type := {
  Done : bool;
  ctx_Err : error;
}.

Definition context_Canceled : error := errorString "context canceled".

(** A context made by [context.WithCancel(context.Background())]. *)
Definition WithCancel (done : bool) : Context :=
  {| Done := done; ctx_Err := context_Canceled |}.

(** Modelled from the spec: a waiter carries a caller context and a
    result sink; the sink is the name of the caller's channel. *)
Record waiter : Type := {
  ctx : Context;
  outCh : option nat;
}.

(** A [*Shard] in a task is the shard of that key in the catalog. *)
Record task : Type := {
  waiter_of : option waiter;
  op : OpType;
  shard : Key;
  task_err : option error;
}.

(** Modelled from the spec: an index maps content identifiers to byte
    offsets of the archive. *)
Definition Index : Type := list (string * nat).

(** Modelled from the spec: the accessor owns the read handle on the
    transient and the index. *)
Record ShardAccessor : Type := {
  sa_data : mount.Reader;
  sa_idx : Index;
  sa_shard : Key;
}.

Record ShardResult : Type := {
  Key_of : Key;
  Error : option error;
  Accessor : option ShardAccessor;
}.

Record dispatch : Type := {
  w : option waiter;
  res : ShardResult;
}.

(** Modelled from the spec: the index repository ([AddFullIndex],
    [GetFullIndex], [StatFullIndex]); package index is outside the
    sources at hand. [repo_fault] is the error every operation returns
    while the repository cannot be reached. *)
Record FullIndexRepo : Type := {
  entries : gmap Key Index;
  repo_fault : option error;
}.

Definition NewMemoryRepo : FullIndexRepo := {| entries := ∅; repo_fault := None |}.

Definition GetFullIndex (k : Key) (r : FullIndexRepo) : result Index :=
  match repo_fault r with
  | Some e => Err e
  | None =>
      match entries r !! k with
      | Some idx => Ok idx
      | None => Err (errorString ("index not found: " +:+ k))
      end
  end.

Definition AddFullIndex (k : Key) (idx : Index) (r : FullIndexRepo)
  : option error * FullIndexRepo :=
  match repo_fault r with
  | Some e => (Some e, r)
  | None => (None, {| entries := <[k := idx]> (entries r); repo_fault := None |})
  end.

Definition StatFullIndex (k : Key) (r : FullIndexRepo) : result bool :=
  match repo_fault r with
  | Some e => Err e
  | None => Ok (bool_decide (is_Some (entries r !! k)))
  end.

(** The datastore as [restoreState] reads it: the error of [Query], or
    the stored records [(key, value)] in the order [NextSync] yields
    them. *)
Record Datastore : Type := {
  query_err : option error;
  records : list (string * string);
}.

Definition NewMapDatastore : Datastore := {| query_err := None; records := [] |}.

Record Config : Type := {
  TransientsDir : string;
  IndexDir : string;
  Datastore_of : option Datastore;
  TraceCh : option nat;
  FailureCh : option nat;
  MaxConcurrentIndex : Z;
  MaxConcurrentFetch : Z;
}.

Inductive throttle : Type := ThrottleFetch | ThrottleIndex.

(** Modelled from the spec: a throttler is a counting semaphore of
    capacity [N], 0 for unlimited ([noopThrottler]). *)
Record Throttler : Type := {
  which : throttle;
  capacity : nat;
}.

(** The three task channels of the event loop. *)
Inductive chan : Type := externalCh | internalCh | completionCh.

(** What an execution does, oldest first. *)
Inductive event : Type :=
  | EvPermit (t : throttle)                 (* a permit is acquired *)
  | EvPermitBack (t : throttle)             (* and released *)
  | EvMountFetch                            (* [mnt.Fetch] *)
  | EvReaderClose                           (* [reader.Close] *)
  | EvReadOrGenerateIndex                   (* [car.ReadOrGenerateIndex] *)
  | EvGetFullIndex (k : Key)
  | EvAddFullIndex (k : Key)
  | EvSend (ch : chan) (tsk : task)         (* a task is placed on a channel *)
  | EvDispatch (r : ShardResult) (w : option waiter).

(** The DAG store. [external], [internal] and [completion] are the
    channels [externalCh], [internalCh] and [completionCh]: a task channel
    holds the tasks sent on it, oldest first; a send that finds the
    buffer full waits for the event loop and is not told apart from one
    that does not. [cancelled] is [None] while the root context is live.
    Once it is cancelled, the select of [queueTask] may take either of its
    cases, call by call (with both ready the runtime chooses; with the
    event loop gone and the buffer full, [Done] is the only one left):
    [cancelled] then holds what the coming selects take, [true] for the
    send, the next one first. [trace] records the execution, [world] is
    the file system under the mounts. *)
Record DAGStore : Type := mkDAGStore {
  shards : gmap Key Shard;
  config : Config;
  indices : FullIndexRepo;
  store : Datastore;
  external : list task;
  internal : list task;
  completion : list task;
  dispatchResultsCh : list dispatch;
  dispatchFailuresCh : option (list dispatch);
  throttleFetch : Throttler;
  throttleIndex : Throttler;
  cancelled : option (nat -> bool);
  trace : list event;
  world : mount.World;
}.

(** [d.ctx] is done. *)
Definition ctx_done (d : DAGStore) : bool :=
  match cancelled d with Some _ => true | None => false end.

(** The select of [queueTask], reached now, takes the [Done] case. *)
Definition refuses (d : DAGStore) : bool :=
  match cancelled d with Some sel => negb (sel 0) | None => false end.

Definition sent (ch : chan) (d : DAGStore) : list task :=
  match ch with
  | externalCh => external d
  | internalCh => internal d
  | completionCh => completion d
  end.

Definition set_shards (m : gmap Key Shard) (d : DAGStore) : DAGStore :=
  let '(mkDAGStore _ a b c e i cm dr df tf ti cd tr wo) := d in
  mkDAGStore m a b c e i cm dr df tf ti cd tr wo.
Definition set_indices (r : FullIndexRepo) (d : DAGStore) : DAGStore :=
  let '(mkDAGStore m a _ c e i cm dr df tf ti cd tr wo) := d in
  mkDAGStore m a r c e i cm dr df tf ti cd tr wo.
Definition set_world (wo : mount.World) (d : DAGStore) : DAGStore :=
  let '(mkDAGStore m a b c e i cm dr df tf ti cd tr _) := d in
  mkDAGStore m a b c e i cm dr df tf ti cd tr wo.
Definition set_failures (df : option (list dispatch)) (d : DAGStore) : DAGStore :=
  let '(mkDAGStore m a b c e i cm dr _ tf ti cd tr wo) := d in
  mkDAGStore m a b c e i cm dr df tf ti cd tr wo.
Definition set_cancelled (cd : option (nat -> bool)) (d : DAGStore) : DAGStore :=
  let '(mkDAGStore m a b c e i cm dr df tf ti _ tr wo) := d in
  mkDAGStore m a b c e i cm dr df tf ti cd tr wo.
(** The engine past one select of [queueTask]. *)
Definition advance (d : DAGStore) : DAGStore :=
  match cancelled d with
  | Some sel => set_cancelled (Some (λ n, sel (S n))) d
  | None => d
  end.
Definition emit (ev : event) (d : DAGStore) : DAGStore :=
  let '(mkDAGStore m a b c e i cm dr df tf ti cd tr wo) := d in
  mkDAGStore m a b c e i cm dr df tf ti cd (tr ++ [ev]) wo.
Definition send (ch : chan) (tsk : task) (d : DAGStore) : DAGStore :=
  let '(mkDAGStore m a b c e i cm dr df tf ti cd tr wo) := emit (EvSend ch tsk) d in
  match ch with
  | externalCh => mkDAGStore m a b c (e ++ [tsk]) i cm dr df tf ti cd tr wo
  | internalCh => mkDAGStore m a b c e (i ++ [tsk]) cm dr df tf ti cd tr wo
  | completionCh => mkDAGStore m a b c e i (cm ++ [tsk]) dr df tf ti cd tr wo
  end.

(** [func (d *DAGStore) queueTask(tsk, ch)]: the select between
    [d.ctx.Done()] and the send. *)
Definition queueTask (tsk : task) (ch : chan) (d : DAGStore) : option error * DAGStore :=
  if refuses d then (Some (errorString "dag store closed"), advance d)
  else (None, send ch tsk (advance d)).

(** [func (d *DAGStore) failShard(s, ch, format, args...)], the error
    being [fmt.Errorf(format, args...)] with [%w] for [cause]. *)
Definition failShard (s : Key) (ch : chan) (format : string) (cause : error) (d : DAGStore)
  : option error * DAGStore :=
  let err := wrapError format cause in
  queueTask {| waiter_of := None; op := OpShardFail; shard := s; task_err := Some err |} ch d.

(** Modelled from the spec: [dispatchResult] is outside the sources at
    hand; results are pushed through the dispatcher to the caller's
    sink, so the result and its waiter are placed on [dispatchResultsCh]. *)
Definition dispatchResult (r : ShardResult) (wt : option waiter) (d : DAGStore) : DAGStore :=
  let '(mkDAGStore m a b c e i cm dr df tf ti cd tr wo) := emit (EvDispatch r wt) d in
  mkDAGStore m a b c e i cm (dr ++ [{| w := wt; res := r |}]) df tf ti cd tr wo.

(** Modelled from the spec: [Throttler.Do] is outside the sources at
    hand. [do(ctx, f)] acquires a permit (cancellable via ctx), runs [f]
    and releases the permit on any exit path; with capacity 0 no permit
    is needed. *)
Definition Throttler_Do {R : Type} (t : Throttler) (c : Context)
    (f : Context -> DAGStore -> result R * DAGStore) (d : DAGStore)
  : result R * DAGStore :=
  if bool_decide (capacity t = 0) then f c d
  else if Done c then (Err (ctx_Err c), d)
  else
    let '(r, d) := f c (emit (EvPermit (which t)) d) in
    (r, emit (EvPermitBack (which t)) d).

(** [mnt.Fetch(ctx)] of the mount handed to a worker. *)
Definition mnt_Fetch (mnt : mount.Mount) (c : Context) (d : DAGStore)
  : result mount.Reader * DAGStore :=
  (mount.Mount_Fetch mnt, emit EvMountFetch d).

(** [reader.Close()] *)
Definition reader_Close (reader : mount.Reader) (d : DAGStore) : option error * DAGStore :=
  (mount.close_err reader, emit EvReaderClose d).

(** Modelled from the spec: [NewShardAccessor] is outside the sources
    at hand; the acquire worker "builds accessor → dispatches
    [{accessor, nil}]". *)
Definition NewShardAccessor (reader : mount.Reader) (idx : Index) (s : Key)
  : ShardAccessor * option error :=
  ({| sa_data := reader; sa_idx := idx; sa_shard := s |}, None).

(** [func (d *DAGStore) acquireAsync(ctx, w, s, mnt)] *)
Definition acquireAsync (c : Context) (wt : waiter) (s : Shard) (mnt : mount.Mount)
    (d : DAGStore) : DAGStore :=
  let k := key s in
  match Throttler_Do (throttleFetch d) c (mnt_Fetch mnt) d with
  | (Err err, d) =>
      let '(_, d) :=
        queueTask {| waiter_of := None; op := OpShardRelease; shard := k; task_err := None |}
          completionCh d in
      let '(_, d) := failShard k completionCh "failed to acquire reader of mount" err d in
      dispatchResult {| Key_of := k; Error := Some err; Accessor := None |} (Some wt) d
  | (Ok reader, d) =>
      let d := emit (EvGetFullIndex k) d in
      match GetFullIndex k (indices d) with
      | Err err =>
          let '(_, d) := reader_Close reader d in
          let '(_, d) :=
            queueTask {| waiter_of := None; op := OpShardRelease; shard := k; task_err := None |}
              completionCh d in
          let '(_, d) :=
            failShard k completionCh ("failed to recover index for shard " +:+ k) err d in
          dispatchResult {| Key_of := k; Error := Some err; Accessor := None |} (Some wt) d
      | Ok idx =>
          let '(sa, err) := NewShardAccessor reader idx k in
          dispatchResult {| Key_of := k; Error := err; Accessor := Some sa |} (Some wt) d
      end
  end.

Section Externals.

(** Code outside the sources at hand that the functions below call:
    [car.ReadOrGenerateIndex] on a reader, [Shard.UnmarshalJSON] on
    a stored value, [index.NewFSRepo] on a directory of the disk, which it
    may write to, and [os.MkdirAll] on a path that [os.Stat] does not find. *)
Variable car_ReadOrGenerateIndex : mount.Reader -> result Index.
Variable UnmarshalJSON : string -> result Shard.
Variable NewFSRepo : string -> os.FS -> result FullIndexRepo * os.FS.
Variable MkdirAll : string -> os.FS -> option error * os.FS.

(** [func (d *DAGStore) initializeShard(ctx, s, mnt)]; the deferred
    [reader.Close()] runs as the function returns. *)
Definition initializeShard (c : Context) (s : Shard) (mnt : mount.Mount) (d : DAGStore)
  : DAGStore :=
  match Throttler_Do (throttleFetch d) c (mnt_Fetch mnt) d with
  | (Err err, d) =>
      snd (failShard (key s) completionCh "failed to acquire reader of mount" err d)
  | (Ok reader, d) =>
      let indexing (_ : Context) (d : DAGStore) :=
        (car_ReadOrGenerateIndex reader, emit EvReadOrGenerateIndex d) in
      let d :=
        match Throttler_Do (throttleIndex d) c indexing d with
        | (Err err, d) =>
            snd (failShard (key s) completionCh "failed to read/generate CAR Index" err d)
        | (Ok idx, d) =>
            let '(added, repo) := AddFullIndex (key s) idx (indices d) in
            let d := emit (EvAddFullIndex (key s)) (set_indices repo d) in
            match added with
            | Some err =>
                snd (failShard (key s) completionCh "failed to add index for shard" err d)
            | None =>
                snd (queueTask {| waiter_of := None; op := OpShardMakeAvailable;
                                  shard := key s; task_err := None |} completionCh d)
            end
        end in
      snd (reader_Close reader d)
  end.

(** The loop of [restoreState] over the results of the query. *)
Fixpoint restoreState_loop (results : list (string * string)) (d : DAGStore) : DAGStore :=
  match results with
  | [] => d
  | (_, value) :: results =>
      match UnmarshalJSON value with
      | Err _ => restoreState_loop results d    (* logged; skipping *)
      | Ok s => restoreState_loop results (set_shards (<[key s := s]> (shards d)) d)
      end
  end.

(** [func (d *DAGStore) restoreState() error] *)
Definition restoreState (d : DAGStore) : option error * DAGStore :=
  match query_err (store d) with
  | Some err => (Some (wrapError "failed to recover dagstore state from store" err), d)
  | None => (None, restoreState_loop (records (store d)) d)
  end.

(** [ensureDir(path)] *)
Definition ensureDir (path : string) (wo : mount.World) : option error * mount.World :=
  match os.Stat path (mount.fs wo) with
  | Err _ =>
      (* We need to create the directory. *)
      let '(err, f) := MkdirAll path (mount.fs wo) in
      (err, mount.set_fs f wo)
  | Ok fi =>
      if negb (os.IsDir fi) then
        (Some (errorString ("path " +:+ path +:+ " exists, and it is not a directory")), wo)
      else (None, wo)
  end.

(** The body of the loop of [NewDAGStore] that resets in-progress
    states, for the shard [s] found under [k]: the shard as it is left,
    and whether its registration is to be restarted. *)
Definition reset_in_progress (repo : FullIndexRepo) (s : Shard) : Shard * bool :=
  let s := if bool_decide (state s = ShardStateServing)
           then set_state ShardStateAvailable s else s in
  if bool_decide (state s = ShardStateInitializing) then
    match StatFullIndex (key s) repo with
    | Ok true => (set_state ShardStateAvailable s, false)
    | _ => (set_state ShardStateNew s, true)
    end
  else (s, false).

(** [for _, s := range dagst.shards { ... }]: the catalog after the
    loop and the shards to register again. *)
Definition reset_loop (d : DAGStore) : gmap Key Shard * list Key :=
  map_fold (λ (k : Key) (s : Shard) (acc : gmap Key Shard * list Key),
              let '(catalog, register) := acc in
              let '(s', again) := reset_in_progress (indices d) s in
              (<[k := s']> catalog, if again then (register ++ [k])%list else register))
           (shards d, []) (shards d).

(** [for _, s := range register { _ = dagst.queueTask(...) }] *)
Fixpoint queue_registrations (register : list Key) (d : DAGStore) : DAGStore :=
  match register with
  | [] => d
  | s :: register =>
      let wt := {| ctx := WithCancel (ctx_done d); outCh := None |} in
      let '(_, d) := queueTask {| waiter_of := Some wt; op := OpShardRegister;
                                  shard := s; task_err := None |} externalCh d in
      queue_registrations register d
  end.

(** [func NewDAGStore(cfg Config)], started on the file system [wo].
    The control and dispatcher goroutines it spawns receive from the
    channels and are not part of this function's result. *)
Definition NewDAGStore (cfg : Config) (wo : mount.World) : result DAGStore :=
  if bool_decide (TransientsDir cfg = "") then
    Err (errorString "missing scratch area root path")
  else
    match ensureDir (TransientsDir cfg) wo with
    | (Some err, _) => Err (wrapError "failed to create scratch root dir" err)
    | (None, wo) =>
        let instantiated :=
          if bool_decide (IndexDir cfg = "") then Ok (NewMemoryRepo, wo)
          else
            match ensureDir (IndexDir cfg) wo with
            | (Some err, _) => Err (wrapError "failed to create index root dir" err)
            | (None, wo) =>
                match NewFSRepo (IndexDir cfg) (mount.fs wo) with
                | (Err err, _) => Err (wrapError "failed to instantiate full index repo" err)
                | (Ok repo, f) => Ok (repo, mount.set_fs f wo)
                end
            end in
        match instantiated with
        | Err err => Err err
        | Ok (repo, wo) =>
            let datastore :=
              match Datastore_of cfg with
              | Some ds => ds
              | None => NewMapDatastore
              end in
            (* the no-op throttler, unless the limit is positive *)
            let throttler t (max : Z) :=
              {| which := t; capacity := if bool_decide (0 < max)%Z then Z.to_nat max else 0 |} in
            let dagst :=
              {| shards := ∅; config := cfg; indices := repo; store := datastore;
                 external := []; internal := []; completion := [];
                 dispatchResultsCh := []; dispatchFailuresCh := None;
                 throttleFetch := throttler ThrottleFetch (MaxConcurrentFetch cfg);
                 throttleIndex := throttler ThrottleIndex (MaxConcurrentIndex cfg);
                 cancelled := None; trace := []; world := wo |} in
            match restoreState dagst with
            | (Some err, _) => Err (wrapError "failed to restore dagstore state" err)
            | (None, dagst) =>
                let '(catalog, register) := reset_loop dagst in
                let dagst := set_shards catalog dagst in
                let dagst :=
                  match FailureCh cfg with
                  | Some _ => set_failures (Some []) dagst
                  | None => dagst
                  end in
                Ok (queue_registrations register dagst)
            end
        end
    end.

End Externals.

Record RegisterOpts : Type := {
  ExistingTransient : string;
  LazyInitialization : bool;
}.

(** [func (d *DAGStore) RegisterShard(ctx, key, mnt, out, opts) error] *)
Definition RegisterShard (c : Context) (k : Key) (mnt : mount.Mount) (out : option nat)
    (opts : RegisterOpts) (d : DAGStore) : option error * DAGStore :=
  match shards d !! k with
  | Some _ => (Some (wrapError k ErrShardExists), d)
  | None =>
      match mount.Upgrade mnt (TransientsDir (config d)) k (ExistingTransient opts) (world d) with
      | (Err err, wo) => (Some err, set_world wo d)
      | (Ok upgraded, wo) =>
          let wt := {| ctx := c; outCh := out |} in
          let s := {| key := k; state := ShardStateNew; err := None; refs := 0;
                      mount_of := upgraded; lazy := LazyInitialization opts |} in
          let d := set_shards (<[k := s]> (shards d)) (set_world wo d) in
          queueTask {| waiter_of := Some wt; op := OpShardRegister; shard := k;
                       task_err := None |} externalCh d
      end
  end.

(** [func (d *DAGStore) DestroyShard(ctx, key, out, _) error] *)
Definition DestroyShard (c : Context) (k : Key) (out : option nat) (d : DAGStore)
  : option error * DAGStore :=
  match shards d !! k with
  | None => (Some ErrShardUnknown, d)
  | Some s =>
      queueTask {| waiter_of := Some {| ctx := c; outCh := out |}; op := OpShardDestroy;
                   shard := k; task_err := None |} externalCh d
  end.

(** [func (d *DAGStore) AcquireShard(ctx, key, out, _) error] *)
Definition AcquireShard (c : Context) (k : Key) (out : option nat) (d : DAGStore)
  : option error * DAGStore :=
  match shards d !! k with
  | None => (Some (wrapError k ErrShardUnknown), d)
  | Some s =>
      queueTask {| waiter_of := Some {| ctx := c; outCh := out |}; op := OpShardAcquire;
                   shard := k; task_err := None |} externalCh d
  end.

(** [func (d *DAGStore) RecoverShard(ctx, key, out, _) error] *)
Definition RecoverShard (c : Context) (k : Key) (out : option nat) (d : DAGStore)
  : option error * DAGStore :=
  match shards d !! k with
  | None => (Some (wrapError k ErrShardUnknown), d)
  | Some s =>
      queueTask {| waiter_of := Some {| ctx := c; outCh := out |}; op := OpShardRecover;
                   shard := k; task_err := None |} externalCh d
  end.

(** [func (d *DAGStore) Close() error]: the root context is cancelled;
    [sel] is what the selects of [queueTask] take from then on. *)
Definition Close (sel : nat -> bool) (d : DAGStore) : option error * DAGStore :=
  (None, set_cancelled (Some sel) d).

Record ShardInfo : Type := {
  ShardState_of : ShardState;
  info_Error : option error;
  info_refs : nat;
}.

(** The snapshot [ShardInfo{ShardState: s.state, Error: s.err, refs: s.refs}]. *)
Definition info_of (s : Shard) : ShardInfo :=
  {| ShardState_of := state s; info_Error := err s; info_refs := refs s |}.

(** [func (d *DAGStore) GetShardInfo(k shard.Key) (ShardInfo, error)] *)
Definition GetShardInfo (k : Key) (d : DAGStore) : result ShardInfo :=
  match shards d !! k with
  | None => Err ErrShardUnknown
  | Some s => Ok (info_of s)
  end.

(** [func (d *DAGStore) AllShardsInfo() AllShardsInfo] *)
Definition AllShardsInfo (d : DAGStore) : gmap Key ShardInfo :=
  map_fold (λ (k : Key) (s : Shard) (ret : gmap Key ShardInfo), <[k := info_of s]> ret)
           ∅ (shards d).

(** [GC], first loop: the shards that are available or errored, in the
    order the catalog is ranged over. *)
Definition GC_reclaim (d : DAGStore) : list Key :=
  map_fold (λ (k : Key) (s : Shard) (reclaim : list Key),
              if bool_decide (state s = ShardStateAvailable ∨ state s = ShardStateErrored)
              then reclaim ++ [k] else reclaim)
           [] (shards d).

(** [GC], second loop: one task per shard to reclaim, all answering on
    the channel [ch] made for this call; [await] counts the tasks that were
    enqueued, [merr] gathers the errors of the others. *)
Fixpoint GC_enqueue (c : Context) (ch : nat) (reclaim : list Key)
    (await : nat) (merr : list error) (d : DAGStore) : nat * list error * DAGStore :=
  match reclaim with
  | [] => (await, merr, d)
  | s :: reclaim =>
      let tsk := {| waiter_of := Some {| ctx := c; outCh := Some ch |}; op := OpShardGC;
                    shard := s; task_err := None |} in
      match queueTask tsk externalCh d with
      | (None, d) => GC_enqueue c ch reclaim (S await) merr d
      | (Some e, d) =>
          GC_enqueue c ch reclaim await
            (merr ++ [wrapError ("failed to enqueue GC task for shard " +:+ s) e]) d
      end
  end.

(** [GC], third loop: [await] times, a result is received from the
    channel or the context is found done. [answers] is what the select
    meets each time: [Some res] for a result, [None] for [ctx.Done()]; when
    the answers run out the call stays blocked, which is [None]. *)
Fixpoint GC_collect (c : Context) (await : nat) (answers : list (option ShardResult))
    (results : gmap Key (option error))
  : option (gmap Key (option error) * option error) :=
  match await with
  | O => Some (results, None)
  | S await =>
      match answers with
      | [] => None
      | Some r :: answers => GC_collect c await answers (<[Key_of r := Error r]> results)
      | None :: _ => Some (results, Some (ctx_Err c))
      end
  end.

(** [func (d *DAGStore) GC(ctx) (map[shard.Key]error, error)]; [merr] is
    built and not returned. *)
Definition GC (c : Context) (ch : nat) (answers : list (option ShardResult)) (d : DAGStore)
  : option (gmap Key (option error) * option error) * DAGStore :=
  let reclaim := GC_reclaim d in
  let '(await, merr, d) := GC_enqueue c ch reclaim 0 [] d in
  (GC_collect c await answers ∅, d).

End dagstore.

(** ** Concrete mounts, disks and stores, for the examples below *)
Module Scenario.
Import mount.

Definition noroute : error := errorString "no route".

Definition car : Reader :=
  {| data := "CARv1"; read_err := None; close_err := None |}.

Definition sequential_only : Info :=
  {| Kind_of := KindRemote; AccessSequential := true;
     AccessSeek := false; AccessRandom := false |}.

(** A remote mount that cannot be reached. *)
Definition unreachable : Mount :=
  {| Mount_Info := sequential_only; Mount_Fetch := Err noroute;
     Mount_Stat := Ok {| Exists := true; Size := 5 |} |}.

(** The same mount once it answers. *)
Definition healthy : Mount :=
  {| Mount_Info := sequential_only; Mount_Fetch := Ok car;
     Mount_Stat := Ok {| Exists := true; Size := 5 |} |}.

(** A mount without sequential access. *)
Definition random_only : Mount :=
  {| Mount_Info := {| Kind_of := KindRemote; AccessSequential := false;
                      AccessSeek := false; AccessRandom := true |};
     Mount_Fetch := Ok car; Mount_Stat := Ok {| Exists := true; Size := 5 |} |}.

(** A mount with every capability. *)
Definition full_featured : Mount :=
  {| Mount_Info := {| Kind_of := KindLocal; AccessSequential := true;
                      AccessSeek := true; AccessRandom := true |};
     Mount_Fetch := Ok car; Mount_Stat := Ok {| Exists := true; Size := 5 |} |}.

(** A disk with the transients directory and one file of the user. *)
Definition disk : World :=
  {| fs := {| os.files := {[ "/home/user/shard.car" := "CARv1" ]};
              os.dirs := {[ "/data/transients" ]}; os.rand := 0; os.dir_size := 4096 |};
     onces := []; log := [] |}.

Definition with_underlying (m : Mount) (u : Upgrader) : Upgrader :=
  {| rootdir := rootdir u; underlying := m; key := key u;
     passthrough := passthrough u; transient := transient u; once := once u |}.

End Scenario.

Module Engine.
Import dagstore.

(** A toy encoding of shard records for the examples: the first letter
    is the state, the key follows the colon. Anything else does not
    deserialize. *)
Definition blank (k : Key) (st : ShardState) : Shard :=
  {| key := k; state := st; err := None; refs := 0;
     mount_of := {| mount.rootdir := "/data/transients";
                    mount.underlying := Scenario.healthy; mount.key := k;
                    mount.passthrough := false; mount.transient := "";
                    mount.once := 0 |};
     lazy := false |}.

Definition decode (value : string) : result Shard :=
  match value with
  | String "N" (String ":" k) => Ok (blank k ShardStateNew)
  | String "I" (String ":" k) => Ok (blank k ShardStateInitializing)
  | String "A" (String ":" k) => Ok (blank k ShardStateAvailable)
  | String "S" (String ":" k) => Ok (blank k ShardStateServing)
  | String "E" (String ":" k) => Ok (blank k ShardStateErrored)
  | _ => Err (errorString "unexpected end of JSON input")
  end.

Definition index_of (r : mount.Reader) : result Index :=
  if bool_decide (mount.data r = "CARv1") then Ok [("bafyroot", 11)]
  else Err (errorString "invalid car version").

(** The index directory holds the index of [k2] only. *)
Definition fsrepo (dir : string) (f : os.FS) : result FullIndexRepo * os.FS :=
  (Ok {| entries := {[ "k2" := [("bafyroot", 11)] ]}; repo_fault := None |}, f).

(** [os.MkdirAll] on a disk where the parents of the path exist: it
    makes the one directory that is missing, unless the path is empty or a
    file is there. *)
Definition mkdirall (path : string) (f : os.FS) : option error * os.FS :=
  if bool_decide (path = "") then (Some (os.no_such "mkdir" path), f)
  else
    match os.files f !! path with
    | Some _ => (Some (errorString ("mkdir " +:+ path +:+ ": not a directory")), f)
    | None => (None, os.set_dirs ({[ path ]} ∪ os.dirs f) f)
    end.

Definition persisted : Datastore :=
  {| query_err := None;
     records := [("/k1", "S:k1"); ("/k2", "I:k2"); ("/torn", "{"); ("/k3", "I:k3");
                 ("/k4", "E:k4")] |}.

Definition cfg : Config :=
  {| TransientsDir := "/data/transients"; IndexDir := "/data/index";
     Datastore_of := Some persisted; TraceCh := None; FailureCh := None;
     MaxConcurrentIndex := 0; MaxConcurrentFetch := 2 |}%Z.

(** A running engine with one shard [k1], nothing queued. *)
Definition idle : DAGStore :=
  {| shards := {[ "k1" := blank "k1" ShardStateAvailable ]}; config := cfg;
     indices := NewMemoryRepo; store := NewMapDatastore;
     external := []; internal := []; completion := [];
     dispatchResultsCh := []; dispatchFailuresCh := None;
     throttleFetch := {| which := ThrottleFetch; capacity := 2 |};
     throttleIndex := {| which := ThrottleIndex; capacity := 0 |};
     cancelled := None; trace := []; world := Scenario.disk |}.

(** The store as [NewDAGStore] has it when it calls [restoreState]. *)
Definition restarting : DAGStore :=
  {| shards := ∅; config := cfg;
     indices := {| entries := {[ "k2" := [("bafyroot", 11)] ]}; repo_fault := None |};
     store := persisted;
     external := []; internal := []; completion := [];
     dispatchResultsCh := []; dispatchFailuresCh := None;
     throttleFetch := {| which := ThrottleFetch; capacity := 2 |};
     throttleIndex := {| which := ThrottleIndex; capacity := 0 |};
     cancelled := None; trace := []; world := Scenario.disk |}.

Definition live : Context := {| Done := false; ctx_Err := context_Canceled |}.

(** What the selects of [queueTask] take on an engine that is closed:
    the [Done] case at every call, the send at every call, and the [Done]
    case at the first call only. *)
Definition always_done : nat -> bool := λ _, false.
Definition always_send : nat -> bool := λ _, true.
Definition done_then_send : nat -> bool := λ n, negb (Nat.eqb n 0).
Definition caller : waiter := {| ctx := live; outCh := Some 7 |}.

End Engine.

(** ** Vocabulary of the statements *)

(** [true] when the call returned a value. *)
Definition is_ok {A : Type} (r : result A) : bool :=
  match r with Ok _ => true | Err _ => false end.

Section UpgraderVocabulary.
Import mount.

(** The upgrader after a refetch that failed with nothing to fall back
    on: no transient, and the latch it still points to is done. The
    empty path names no file. *)
Definition spent (u : Upgrader) (w : World) : Prop :=
  passthrough u = false
  ∧ transient u = ""
  ∧ onces w !! once u = Some OnceDone
  ∧ os.files (fs w) !! "" = None.

(** The places of [Fetch] a goroutine is found in on a spent upgrader. *)
Definition outside_refetch (o : nat) (p : pc) : Prop :=
  match p with
  | AtEntry | AfterDo None | Returned (Err _) => True
  | AtDo o' => o' = o
  | _ => False
  end.

End UpgraderVocabulary.

Section EngineVocabulary.
Import dagstore.

(** The events of a call made through the throttler [t]. *)
Definition throttled (t : Throttler) (inner : list event) : list event :=
  if bool_decide (capacity t = 0) then inner
  else [EvPermit (which t)] ++ inner ++ [EvPermitBack (which t)].

(** The task that restarts the registration of the shard under [k]. *)
Definition restart_task (k : Key) : task :=
  {| waiter_of := Some {| ctx := WithCancel false; outCh := None |};
     op := OpShardRegister; shard := k; task_err := None |}.

End EngineVocabulary.

(** The task an API call of operation [o] on shard [k] places on the
    external channel. *)
Definition api_task (o : dagstore.OpType) (c : dagstore.Context) (k : dagstore.Key)
    (out : option nat) : dagstore.task :=
  {| dagstore.waiter_of := Some {| dagstore.ctx := c; dagstore.outCh := out |};
     dagstore.op := o; dagstore.shard := k; dagstore.task_err := None |}.

(** The tasks of the workers and the failure they dispatch. *)
Definition release_task (k : dagstore.Key) : dagstore.task :=
  {| dagstore.waiter_of := None; dagstore.op := dagstore.OpShardRelease;
     dagstore.shard := k; dagstore.task_err := None |}.

Definition fail_task (k : dagstore.Key) (msg : string) (cause : error) : dagstore.task :=
  {| dagstore.waiter_of := None; dagstore.op := dagstore.OpShardFail;
     dagstore.shard := k; dagstore.task_err := Some (wrapError msg cause) |}.

Definition available_task (k : dagstore.Key) : dagstore.task :=
  {| dagstore.waiter_of := None; dagstore.op := dagstore.OpShardMakeAvailable;
     dagstore.shard := k; dagstore.task_err := None |}.

Definition failure (k : dagstore.Key) (e : error) : dagstore.ShardResult :=
  {| dagstore.Key_of := k; dagstore.Error := Some e; dagstore.Accessor := None |}.

Section DedupVocabulary.
Import mount.

(** The transient is tracked and on disk: [Fetch] opens it without a
    refetch. *)
Definition alive (u : Upgrader) (w : World) : Prop :=
  transient u ≠ "" ∧ ∃ stat, os.Stat (transient u) (fs w) = Ok stat.

(** Where the goroutines can be around the latch [o]: not in [once.Do]
    yet, running the function of [once.Do], or past it. *)
Definition idle_pc (o : nat) (p : pc) : Prop :=
  match p with
  | AtEntry | Returned _ => True
  | AtDo o' => o' = o
  | _ => False
  end.

Definition runner_pc (o base : nat) (u : Upgrader) (w : World) (p : pc) : Prop :=
  match p with
  | InRefetch o' => o' = o ∧ once u = o ∧ refetches (log w) = base
  | InCopy o' => o' = o ∧ once u = o ∧ refetches (log w) = S base
  | InCommit o' file =>
      o' = o ∧ once u = o ∧ refetches (log w) = S base
      ∧ file ≠ "" ∧ is_Some (os.files (fs w) !! file)
  | LeavingDo o' _ =>
      o' = o ∧ refetches (log w) = S base ∧ (once u = o ∨ alive u w)
  | _ => False
  end.

Definition done_pc (o : nat) (p : pc) : Prop :=
  match p with
  | AtEntry | Returned _ | AfterDo _ => True
  | AtDo o' => o' = o
  | _ => False
  end.

Definition not_returned (p : pc) : Prop :=
  match p with Returned _ => False | _ => True end.

(** The goroutines around the latch [o] that was armed when the log
    counted [base] refetches; [missing] says that the transient was not
    alive then. While the latch is fresh nothing has changed; while it
    runs, exactly one goroutine is in [refetch]; once it is done, one
    refetch has taken place. *)
Definition around_latch (o base : nat) (missing : Prop) (s : System) : Prop :=
  let u := upgrader s in
  let w := surroundings s in
  let gs := goroutines s in
  passthrough u = false
  ∧ match onces w !! o with
    | Some OnceFresh =>
        once u = o ∧ refetches (log w) = base ∧ Forall (idle_pc o) gs
        ∧ (missing → ¬ alive u w ∧ Forall not_returned gs)
    | Some OnceRunning =>
        ∃ i p, gs !! i = Some p ∧ runner_pc o base u w p
               ∧ ∀ j q, j ≠ i → gs !! j = Some q → idle_pc o q
    | Some OnceDone =>
        refetches (log w) = S base ∧ Forall (done_pc o) gs
        ∧ (once u = o ∨ alive u w)
    | None => False
    end.

End DedupVocabulary.

(** ** Samples for the further properties *)
Module Samples.
Import mount.

(** The upgrader and the surroundings that [Upgrade] gives for the
    reachable mount of [Scenario] on the disk of [Scenario]. *)
Definition fresh_upgrader : Upgrader :=
  {| rootdir := "/data/transients"; underlying := Scenario.healthy; key := "k";
     passthrough := false; transient := ""; once := 0 |}.

Definition fresh_world : World :=
  {| fs := fs Scenario.disk; onces := [OnceFresh]; log := [] |}.

End Samples.

(** A name that stands for itself as a path element. *)
Definition plain_name (name : string) : Prop :=
  os.has_separator name = false ∧ name ≠ "" ∧ name ≠ "." ∧ name ≠ "..".


Section CoverageVocabulary.
Import dagstore.

(** What the workers and [GC] leave alone in the engine: the catalog,
    the channel of the API and the internal one, the configuration, the
    store, the throttlers, the root context and the file system. *)
Definition untouched (d d' : DAGStore) : Prop :=
  shards d' = shards d ∧ external d' = external d ∧ internal d' = internal d
  ∧ config d' = config d ∧ store d' = store d ∧ world d' = world d
  ∧ throttleFetch d' = throttleFetch d ∧ throttleIndex d' = throttleIndex d
  ∧ ctx_done d' = ctx_done d ∧ dispatchFailuresCh d' = dispatchFailuresCh d.

(** The shards whose transient [GC] asks the event loop to reclaim. *)
Definition reclaimable (s : Shard) : Prop :=
  state s = ShardStateAvailable ∨ state s = ShardStateErrored.

(** What [os.Stat] finds at a path: a directory, or something that is
    not one. *)
Definition is_directory (path : string) (f : os.FS) : Prop :=
  ∃ fi, os.Stat path f = Ok fi ∧ os.IsDir fi = true.

Definition not_a_directory (path : string) (f : os.FS) : Prop :=
  ∃ fi, os.Stat path f = Ok fi ∧ os.IsDir fi = false.

(** [os.MkdirAll] as documented: it creates a directory named path,
    along with any necessary parents, and returns nil, or else returns an
    error. *)
Definition makes_directories (MkdirAll : string → os.FS → option error * os.FS) : Prop :=
  ∀ path f f', MkdirAll path f = (None, f') → is_directory path f'.

(** Why [ensureDir] fails with [cause] on a disk: something that is not
    a directory is at the path, or [os.Stat] does not find the path and
    [os.MkdirAll] fails. *)
Definition cannot_ensure (MkdirAll : string → os.FS → option error * os.FS)
    (path : string) (f : os.FS) (cause : error) : Prop :=
  (not_a_directory path f
   ∧ cause = errorString ("path " +:+ path +:+ " exists, and it is not a directory"))
  ∨ ((∃ e, os.Stat path f = Err e) ∧ (MkdirAll path f).1 = Some cause).

(** The result that carries an accessor on [reader] and [idx]. *)
Definition served (k : Key) (reader : mount.Reader) (idx : Index) : ShardResult :=
  {| Key_of := k; Error := None;
     Accessor := Some {| sa_data := reader; sa_idx := idx; sa_shard := k |} |}.

End CoverageVocabulary.

(** * Properties of the mount upgrader *)

(** ** The file system *)
Section DiskFacts.

Lemma Stat_file (path bytes : string) (f : os.FS) :
  os.files f !! path = Some bytes →
  os.Stat path f = Ok {| os.Size := String.length bytes; os.IsDir := false |}.
Proof. intros Hf. unfold os.Stat. by rewrite Hf. Qed.

Lemma Stat_Err (path : string) (f : os.FS) (e : error) :
  os.Stat path f = Err e → os.files f !! path = None ∧ os.is_dir path f = false.
Proof.
  unfold os.Stat. destruct (os.files f !! path); [done|].
  by destruct (os.is_dir path f).
Qed.

Lemma Stat_Ok (path : string) (f : os.FS) (stat : os.FileInfo) :
  os.Stat path f = Ok stat →
  (∃ bytes, os.files f !! path = Some bytes
            ∧ stat = {| os.Size := String.length bytes; os.IsDir := false |})
  ∨ (os.files f !! path = None ∧ os.is_dir path f = true
     ∧ stat = {| os.Size := os.dir_size f; os.IsDir := true |}).
Proof.
  unfold os.Stat. destruct (os.files f !! path) as [bytes|].
  - intros [= <-]. left. by exists bytes.
  - destruct (os.is_dir path f); [|done]. intros [= <-]. by right.
Qed.

Lemma Stat_empty (f : os.FS) :
  os.files f !! "" = None → os.Stat "" f = Err (os.no_such "stat" "").
Proof.
  intros Hf. unfold os.Stat, os.is_dir. rewrite Hf.
  rewrite bool_decide_eq_false_2; [done|]. by intros [? _].
Qed.

(** Removing a path that is not on disk changes nothing. *)
Lemma Remove_missing (path : string) (f : os.FS) (e : error) :
  os.Stat path f = Err e → os.Remove path f = (Some (os.no_such "remove" path), f).
Proof.
  intros [Hf Hd]%Stat_Err. unfold os.Remove. by rewrite Hf, Hd.
Qed.

Lemma Remove_facts (path : string) (f : os.FS) :
  let f' := (os.Remove path f).2 in
  os.files f' !! path = None
  ∧ (∀ p, p ≠ path → os.files f' !! p = os.files f !! p)
  ∧ (∀ p, p ≠ path → p ∈ os.dirs f' ↔ p ∈ os.dirs f)
  ∧ (∀ p, p ∈ os.dirs f' → p ∈ os.dirs f)
  ∧ os.rand f' = os.rand f
  ∧ os.dir_size f' = os.dir_size f
  ∧ (os.files f !! path = None → os.files f' = os.files f)
  ∧ (is_Some (os.files f !! path) → os.dirs f' = os.dirs f).
Proof.
  unfold os.Remove. destruct (os.files f !! path) as [bytes|] eqn:Hf; cbn.
  - split; [apply lookup_delete_eq|]. split; [by intros p Hp; rewrite lookup_delete_ne|].
    by repeat split.
  - destruct (os.is_dir path f); [|by repeat split].
    destruct (bool_decide (os.empty_dir path f)); [|by repeat split]. cbn.
    split; [done|]. split; [done|].
    split; [intros p Hp; rewrite elem_of_difference, elem_of_singleton;
            split; [by intros [? _] | by intros ?]|].
    split; [by intros p [? _]%elem_of_difference|].
    by repeat split.
Qed.

End DiskFacts.

Section UpgraderFacts.
Import mount.

Lemma new_Once_fresh (w : World) :
  onces (snd (new_Once w)) !! fst (new_Once w) = Some OnceFresh.
Proof.
  unfold new_Once; simpl.
  rewrite lookup_app_r by lia. by rewrite Nat.sub_diag.
Qed.

Lemma refetch_copy_log (u : Upgrader) (w : World) :
  ∃ evs, log (snd (refetch_copy u w)) = log w ++ evs.
Proof.
  unfold refetch_copy.
  destruct (os.CreateTemp _ _ _) as [[file|e] f]; simpl.
  2: { exists []. by rewrite app_nil_r. }
  destruct (Mount_Stat (underlying u)) as [st|e]; simpl.
  2: { by exists [EvUnderlyingStat]. }
  destruct (Exists st); simpl.
  2: { by exists [EvUnderlyingStat]. }
  destruct (Mount_Fetch (underlying u)) as [from|e]; simpl.
  2: { exists [EvUnderlyingStat; EvUnderlyingFetch]. by rewrite <- app_assoc. }
  unfold io_Copy. destruct (read_err from); simpl;
    exists [EvUnderlyingStat; EvUnderlyingFetch]; by rewrite <- app_assoc.
Qed.

(** A call of [Fetch] that finds no transient on an armed latch enters
    [refetch]. *)
Lemma Fetch_armed_refetches (u : Upgrader) (w : World) :
  passthrough u = false →
  transient u = "" →
  onces w !! once u = Some OnceFresh →
  ∃ evs, log (snd (Fetch u w)) = log w ++ EvRefetch :: evs.
Proof.
  intros Hp Ht Ho. unfold Fetch, Fetch_check. rewrite Hp, Ht. simpl.
  unfold once_Do. rewrite Ho. unfold refetch, refetch_remove. rewrite Ht. simpl.
  set (w1 := emit EvRefetch (set_once (once u) OnceRunning w)).
  destruct (refetch_copy_log u w1) as [evs Hevs].
  destruct (refetch_copy u w1) as [[file|e] w2]; simpl in *.
  - exists (evs ++ [EvOpen file]). rewrite Hevs. unfold w1. simpl.
    by rewrite <- !app_assoc.
  - exists evs. rewrite Hevs. unfold w1. simpl. by rewrite <- app_assoc.
Qed.

(** What [DeleteTransient] does with a tracked transient is decided by
    the error of [filepath.Rel] alone. *)
Lemma DeleteTransient_tracked (u : Upgrader) (w : World) :
  transient u ≠ "" →
  match filepath.Rel_err (rootdir u) (transient u) with
  | Some _ => DeleteTransient u w = (None, u, w)
  | None =>
      ∃ w', DeleteTransient u w = (fst (os.Remove (transient u) (fs w)), set_transient "" u, w')
            ∧ os.files (fs w') !! transient u = None
  end.
Proof.
  intros Ht. unfold DeleteTransient.
  rewrite bool_decide_eq_false_2 by done.
  destruct (filepath.Rel_err _ _); [done|].
  pose proof (Remove_facts (transient u) (fs w)) as [Hgone _].
  destruct (os.Remove (transient u) (fs w)) as [err f].
  eexists; split; [reflexivity|]. exact Hgone.
Qed.

End UpgraderFacts.

(** C9. Every call of [Close] on an upgrader panics, whatever the upgrader
    and its surroundings: it returns neither a nil error nor an error
    value. *)
Theorem Close_always_panics :
  ∀ (u : mount.Upgrader) (w : mount.World),
    mount.Close u w = Panics "implement me" ∧ ∀ r, mount.Close u w ≠ Returns r.
Proof. intros u w. split; [reflexivity | intros r; discriminate]. Qed.

(** C10, as stated, fails on a mount without sequential access: with a
    missing [initial] file the construction returns an error; and on a
    full-featured mount the upgrader passes through, so its first [Fetch]
    fetches from the mount and does not enter [refetch]. *)
Lemma Upgrade_missing_initial_refused :
  os.Stat "/missing" (mount.fs Scenario.disk) = Err (os.no_such "stat" "/missing")
  ∧ fst (mount.Upgrade Scenario.random_only "/data/transients" "k" "/missing" Scenario.disk)
    = Err (errorString "underlying mount must support sequential access")
  ∧ ∃ u w, mount.Upgrade Scenario.full_featured "/data/transients" "k" "/missing" Scenario.disk
           = (Ok u, w)
         ∧ mount.log (snd (mount.Fetch u w)) = mount.log w ++ [mount.EvUnderlyingFetch].
Proof.
  split; [reflexivity|]. split; [reflexivity|].
  eexists _, _. split; reflexivity.
Qed.

(** C10, amended. For every call of [Upgrade] on a mount with sequential
    access and with a non-empty [initial] path that is not on disk, the
    construction succeeds and the path is ignored: the upgrader starts with
    an empty transient, nothing on disk changes, and, unless the mount is
    seekable and random-access (then the upgrader passes through), its first
    [Fetch] enters [refetch]. *)
Theorem Upgrade_missing_initial_ignored :
  ∀ (m : mount.Mount) (rootdir key initial : string) (w : mount.World) (e : error),
    mount.AccessSequential (mount.Mount_Info m) = true →
    initial ≠ "" →
    os.Stat initial (mount.fs w) = Err e →
    ∃ u w',
      mount.Upgrade m rootdir key initial w = (Ok u, w')
      ∧ mount.transient u = ""
      ∧ mount.fs w' = mount.fs w
      ∧ mount.passthrough u
        = mount.AccessSeek (mount.Mount_Info m) && mount.AccessRandom (mount.Mount_Info m)
      ∧ (mount.passthrough u = false →
         ∃ evs, mount.log (snd (mount.Fetch u w')) = mount.log w' ++ mount.EvRefetch :: evs).
Proof.
  intros m rootdir key initial w e Hseq Hinit Hstat.
  unfold mount.Upgrade.
  pose proof (new_Once_fresh w) as Hfresh.
  destruct (mount.new_Once w) as [o w'] eqn:Hnew. simpl in Hfresh.
  assert (Hfs : mount.fs w' = mount.fs w).
  { unfold mount.new_Once in Hnew. by inversion Hnew. }
  rewrite Hseq. simpl.
  destruct (mount.AccessSeek (mount.Mount_Info m) && mount.AccessRandom (mount.Mount_Info m))
    eqn:Hpass.
  - eexists _, _. split; [reflexivity|]. simpl. repeat split; try done.
  - rewrite bool_decide_eq_false_2 by done. simpl.
    rewrite Hfs, Hstat.
    eexists _, _. split; [reflexivity|]. simpl. repeat split; try done.
    intros _. by apply Fetch_armed_refetches.
Qed.

Lemma Upgrade_missing_initial_ignored_witness :
  ∃ u w',
    mount.Upgrade Scenario.healthy "/data/transients" "k" "/missing" Scenario.disk = (Ok u, w')
    ∧ mount.transient u = "".
Proof.
  destruct (Upgrade_missing_initial_ignored Scenario.healthy "/data/transients" "k" "/missing"
              Scenario.disk (os.no_such "stat" "/missing"))
    as (u & w' & Hup & Ht & _).
  - reflexivity.
  - discriminate.
  - reflexivity.
  - exists u, w'. split; [exact Hup | exact Ht].
Defined.

(** C3 on an upgrader that tracks a file of the user outside its root
    directory ([ExistingTransient]): [filepath.Rel] answers with a path
    through [..] and no error, so [DeleteTransient] removes the file, where
    the specification has it return nil without deleting. *)
Theorem DeleteTransient_outside_rootdir :
  ∃ u w,
    mount.Upgrade Scenario.healthy "/data/transients" "k" "/home/user/shard.car" Scenario.disk
    = (Ok u, w)
    ∧ mount.rootdir u = "/data/transients"
    ∧ mount.transient u = "/home/user/shard.car"
    ∧ os.files (mount.fs w) !! "/home/user/shard.car" = Some "CARv1"
    ∧ filepath.Rel_err (mount.rootdir u) (mount.transient u) = None
    ∧ ∃ w', mount.DeleteTransient u w = (None, mount.set_transient "" u, w')
          ∧ os.files (mount.fs w') !! "/home/user/shard.car" = None
          ∧ mount.log w' = [mount.EvRemove "/home/user/shard.car"].
Proof.
  eexists _, _. split; [reflexivity|].
  repeat (split; [reflexivity|]).
  eexists. split; [reflexivity|]. split; reflexivity.
Qed.

(** ** A refetch that failed *)
Section FailedRefetch.
Import mount.

Lemma refetches_app (l1 l2 : list event) :
  refetches (l1 ++ l2) = refetches l1 + refetches l2.
Proof. unfold refetches. by rewrite filter_app, length_app. Qed.



Lemma step_spent (p p' : pc) (u u' : Upgrader) (w w' : World) :
  spent u w →
  outside_refetch (once u) p →
  step p u w = Some (p', u', w') →
  u' = u ∧ spent u w' ∧ outside_refetch (once u) p'
  ∧ refetches (log w') = refetches (log w).
Proof.
  intros (Hp & Ht & Ho & Hempty) Hout Hstep.
  destruct p as [|o|o|o|o file|o err|[err|]|r]; simpl in Hout; try done.
  - simpl in Hstep. rewrite Hp in Hstep. unfold Fetch_check in Hstep.
    rewrite Ht in Hstep. simpl in Hstep. inversion Hstep; subst.
    by repeat split.
  - subst o. simpl in Hstep. rewrite Ho in Hstep. inversion Hstep; subst.
    by repeat split.
  - simpl in Hstep. rewrite Ht in Hstep. unfold os_Open in Hstep.
    rewrite Hempty in Hstep. inversion Hstep; subst.
    repeat split; try done.
    simpl. rewrite refetches_app.
    replace (refetches [EvOpen ""]) with 0 by reflexivity. lia.
Qed.

Lemma sched_spent (i : nat) (s s' : System) :
  spent (upgrader s) (surroundings s) →
  Forall (outside_refetch (once (upgrader s))) (goroutines s) →
  sched i s = Some s' →
  upgrader s' = upgrader s
  ∧ spent (upgrader s') (surroundings s')
  ∧ Forall (outside_refetch (once (upgrader s'))) (goroutines s')
  ∧ refetches (log (surroundings s')) = refetches (log (surroundings s)).
Proof.
  intros Hsp Hall Hs. unfold sched in Hs.
  destruct (goroutines s !! i) as [p|] eqn:Hi; [|done].
  destruct (step p (upgrader s) (surroundings s)) as [[[p' u'] w']|] eqn:Hstep; [|done].
  inversion Hs; subst; clear Hs. simpl.
  destruct (step_spent _ _ _ _ _ _ Hsp (Forall_lookup_1 _ _ _ _ Hall Hi) Hstep)
    as (-> & Hsp' & Hp' & Hn).
  split; [done|]. split; [done|]. split; [by apply Forall_insert | done].
Qed.

(** However many goroutines call [Fetch] on a spent upgrader and however
    they are scheduled, no refetch takes place and no call returns a
    reader. *)
Lemma run_spent (schedule : list nat) (s : System) :
  spent (upgrader s) (surroundings s) →
  Forall (outside_refetch (once (upgrader s))) (goroutines s) →
  refetches (log (surroundings (run schedule s))) = refetches (log (surroundings s))
  ∧ Forall (outside_refetch (once (upgrader s))) (goroutines (run schedule s)).
Proof.
  revert s. induction schedule as [|i schedule IH]; intros s Hsp Hall; simpl; [done|].
  destruct (sched i s) as [s'|] eqn:Hs; [|by apply IH].
  destruct (sched_spent _ _ _ Hsp Hall Hs) as (Hu & Hsp' & Hall' & Hn).
  destruct (IH s' Hsp' Hall') as [Hn' Hall'']. rewrite Hu in Hall''.
  split; [congruence | done].
Qed.

End FailedRefetch.

(** C2 on an upgrader whose mount cannot be reached. The call of [Fetch]
    that runs the refetch gets the error of the refetch; the latch is left
    done and is not replaced. A call that waited in [once.Do] for that
    refetch comes back with a nil error and fails on opening the empty
    transient path, so it does not see the error of the refetch. The next
    [Fetch], the mount being reachable again, finds the transient missing
    and goes through the same latch: it enters no refetch and fails on
    opening the empty path. *)
Theorem failed_refetch_is_not_retried :
  let refetch_failed :=
    wrapError "mount fetch failed"
      (wrapError "failed to fetch from underlying mount" Scenario.noroute) in
  ∃ u w,
    mount.Upgrade Scenario.unreachable "/data/transients" "k" "" Scenario.disk = (Ok u, w)
    ∧ (∃ u1 w1,
         mount.Fetch u w = (Err refetch_failed, u1, w1)
         ∧ mount.refetches (mount.log w1) = 1
         ∧ mount.transient u1 = ""
         ∧ mount.once u1 = mount.once u
         ∧ mount.onces w1 !! mount.once u1 = Some mount.OnceDone
         ∧ ∃ w2,
             mount.Fetch (Scenario.with_underlying Scenario.healthy u1) w1
             = (Err (os.no_such "open" ""), Scenario.with_underlying Scenario.healthy u1, w2)
             ∧ mount.log w2 = mount.log w1 ++ [mount.EvOpen ""])
    ∧ (let two := {| mount.upgrader := u; mount.surroundings := w;
                     mount.goroutines := [mount.AtEntry; mount.AtEntry] |} in
       mount.goroutines (mount.run [0; 0; 1] two) = [mount.InRefetch 0; mount.AtDo 0]
       ∧ mount.sched 1 (mount.run [0; 0; 1] two) = None
       ∧ mount.goroutines (mount.run [0; 0; 1; 0; 0; 0; 0; 1; 1] two)
         = [mount.Returned (Err refetch_failed);
            mount.Returned (Err (os.no_such "open" ""))]).
Proof.
  eexists _, _. split; [reflexivity|]. split.
  - eexists _, _. split; [reflexivity|].
    do 4 (split; [reflexivity|]).
    eexists. split; reflexivity.
  - repeat split; reflexivity.
Qed.

(** C8 on the upgrader that the failed refetch of
    [failed_refetch_is_not_retried] leaves behind, the mount being
    reachable again: however many calls of [Fetch] run concurrently and
    however they are scheduled, they find the transient missing, no refetch
    is performed (the specification has exactly one), and no call returns a
    reader.
    Two calls that take turns both end on the error of opening the empty
    path. *)
Theorem concurrent_fetches_after_failed_refetch :
  ∃ u w u1 w1 e,
    mount.Upgrade Scenario.unreachable "/data/transients" "k" "" Scenario.disk = (Ok u, w)
    ∧ mount.Fetch u w = (Err e, u1, w1)
    ∧ (∀ (n : nat) (schedule : list nat),
         let s := mount.run schedule
                    {| mount.upgrader := Scenario.with_underlying Scenario.healthy u1;
                       mount.surroundings := w1;
                       mount.goroutines := replicate n mount.AtEntry |} in
         mount.refetches (mount.log (mount.surroundings s)) = mount.refetches (mount.log w1)
         ∧ ∀ p, p ∈ mount.goroutines s → ∀ r, p ≠ mount.Returned (Ok r))
    ∧ (let s := mount.run [0; 1; 0; 1; 0; 1]
                  {| mount.upgrader := Scenario.with_underlying Scenario.healthy u1;
                     mount.surroundings := w1;
                     mount.goroutines := [mount.AtEntry; mount.AtEntry] |} in
       mount.goroutines s
       = [mount.Returned (Err (os.no_such "open" ""));
          mount.Returned (Err (os.no_such "open" ""))]
       ∧ mount.log (mount.surroundings s) = mount.log w1 ++ [mount.EvOpen ""; mount.EvOpen ""]).
Proof.
  eexists _, _, _, _, _. split; [reflexivity|]. split; [reflexivity|]. split.
  - intros n schedule s.
    edestruct (run_spent schedule) as [Hn Hall]; [| |split; [exact Hn|]].
    + repeat split; reflexivity.
    + simpl. apply Forall_replicate. exact I.
    + intros p Hp r ->. simpl in Hall.
      rewrite Forall_forall in Hall. apply Hall in Hp. exact Hp.
  - split; reflexivity.
Qed.

(** ** One goroutine on its own *)
Section Alone.
Import mount.

Lemma run_one (p : pc) (u : Upgrader) (w : World) (l : list nat) :
  run (0 :: l) {| upgrader := u; surroundings := w; goroutines := [p] |}
  = match step p u w with
    | Some (p', u', w') =>
        run l {| upgrader := u'; surroundings := w'; goroutines := [p'] |}
    | None => run l {| upgrader := u; surroundings := w; goroutines := [p] |}
    end.
Proof.
  assert (Hs : sched 0 {| upgrader := u; surroundings := w; goroutines := [p] |}
               = match step p u w with
                 | Some (p', u', w') =>
                     Some {| upgrader := u'; surroundings := w'; goroutines := [p'] |}
                 | None => None
                 end).
  { unfold sched. cbn [goroutines upgrader surroundings].
    change ([p] !! 0) with (Some p). cbv beta iota.
    generalize (step p u w). intros [[[p' u'] w']|]; reflexivity. }
  cbn [run]. rewrite Hs. generalize (step p u w).
  intros [[[p' u'] w']|]; reflexivity.
Qed.

Lemma run_returned (r : result Reader) (u : Upgrader) (w : World) (l : list nat) :
  run l {| upgrader := u; surroundings := w; goroutines := [Returned r] |}
  = {| upgrader := u; surroundings := w; goroutines := [Returned r] |}.
Proof.
  induction l as [|i l IH]; [done|].
  cbn [run]. unfold sched. cbn [goroutines upgrader surroundings].
  destruct i as [|i]; [change ([Returned r] !! 0) with (Some (Returned r)) | change ([Returned r] !! S i) with (@None pc)]; cbn [step]; exact IH.
Qed.

(** A goroutine that runs [Fetch] with no other goroutine around does
    what the function [Fetch] does. *)
Lemma run_alone_Fetch (u : Upgrader) (w : World) :
  onces w !! once u ≠ Some OnceRunning →
  run (replicate 7 0) {| upgrader := u; surroundings := w; goroutines := [AtEntry] |}
  = {| upgrader := (Fetch u w).1.2; surroundings := (Fetch u w).2;
       goroutines := [Returned (Fetch u w).1.1] |}.
Proof.
  intros Hrun. unfold Fetch. cbn [replicate].
  rewrite run_one. cbn [step].
  destruct (passthrough u) eqn:Hp; [by rewrite run_returned|].
  destruct (Fetch_check u w) as [[r|o] w0] eqn:Hc; [by rewrite run_returned|].
  assert (o = once u ∧ w0 = w) as [-> ->].
  { unfold Fetch_check in Hc. destruct (negb _); [destruct (os.Stat _ _)|];
      [destruct (os_Open _ _) | |]; by inversion Hc. }
  rewrite run_one. cbn [step]. unfold once_Do.
  destruct (onces w !! once u) as [[| |]|] eqn:Ho; [|done| |].
  - rewrite run_one. cbn [step]. rewrite run_one. cbn [step]. unfold refetch.
    destruct (refetch_copy u (refetch_remove u (set_once (once u) OnceRunning w)))
      as [[file|e] w1] eqn:Hcopy.
    + rewrite run_one. cbn [step].
      destruct (refetch_commit file u w1) as [u2 w2].
      rewrite run_one. cbn [step]. rewrite run_one. cbn [step].
      destruct (Fetch_finish None u2 _) as [r w3]. by rewrite run_returned.
    + rewrite run_one. cbn [step]. rewrite run_one. cbn [step].
      destruct (Fetch_finish (Some e) u _) as [r w3]. by rewrite run_returned.
  - rewrite run_one. cbn [step].
    destruct (Fetch_finish None u w) as [r w3]. by rewrite run_returned.
  - rewrite run_one. cbn [step].
    destruct (Fetch_finish None u w) as [r w3]. by rewrite run_returned.
Qed.
End Alone.

(** ** An armed latch *)
Section ArmedLatch.
Import mount.

Lemma joinPath_nonempty (dir name : string) : os.joinPath dir name ≠ "".
Proof.
  unfold os.joinPath.
  destruct (os.ends_with_separator dir) eqn:Hsep; destruct dir as [|c dir]; done.
Qed.

Lemma CreateTemp_loop_name (try : nat) (dir pre suf name : string) (f f' : os.FS) :
  os.CreateTemp_loop try dir pre suf f = (Ok name, f') →
  name ≠ "".
Proof.
  revert f. induction try as [|try IH]; intros f; cbn.
  - destruct (os.Stat _ f); [done|]. destruct (os.is_dir dir f).
    + intros [= <- _]. apply joinPath_nonempty.
    + by destruct (os.files f !! dir).
  - destruct (os.Stat _ f); [apply IH|]. destruct (os.is_dir dir f).
    + intros [= <- _]. apply joinPath_nonempty.
    + by destruct (os.files f !! dir).
Qed.

Lemma CreateTemp_name (dir pattern name : string) (f f' : os.FS) :
  os.CreateTemp dir pattern f = (Ok name, f') → name ≠ "".
Proof.
  unfold os.CreateTemp. destruct (os.prefixAndSuffix pattern) as [[pre suf]|e]; [|done].
  apply CreateTemp_loop_name.
Qed.

Lemma refetches_snoc (l : list event) (e : event) :
  refetches (l ++ [e]) = refetches l + (if decide (e = EvRefetch) then 1 else 0).
Proof. rewrite refetches_app. f_equal. unfold refetches. cbn. by destruct (decide _). Qed.

Lemma refetch_remove_facts (u : Upgrader) (w : World) :
  onces (refetch_remove u w) = onces w
  ∧ refetches (log (refetch_remove u w)) = S (refetches (log w)).
Proof.
  unfold refetch_remove. destruct (negb _).
  - destruct (os.Remove _ _) as [e f]. unfold emit, set_fs. cbn [log onces fs].
    split; [done|]. rewrite !refetches_snoc. repeat case_decide; try done; lia.
  - unfold emit. cbn [log onces fs]. split; [done|]. rewrite refetches_snoc.
    repeat case_decide; try done; lia.
Qed.

Lemma refetch_copy_facts (u : Upgrader) (w : World) :
  let '(r, w') := refetch_copy u w in
  onces w' = onces w
  ∧ refetches (log w') = refetches (log w)
  ∧ ∀ file, r = Ok file → file ≠ "" ∧ is_Some (os.files (fs w') !! file).
Proof.
  unfold refetch_copy.
  destruct (os.CreateTemp _ _ _) as [[file|e] f] eqn:Htemp; [|done].
  destruct (Mount_Stat (underlying u)) as [st|e].
  2: { unfold emit, set_fs. cbn [log onces fs]. rewrite refetches_snoc.
       split; [done|]. split; [repeat case_decide; try done; lia | done]. }
  destruct (Exists st); cbn [negb].
  2: { unfold emit, set_fs. cbn [log onces fs]. rewrite refetches_snoc.
       split; [done|]. split; [repeat case_decide; try done; lia | done]. }
  destruct (Mount_Fetch (underlying u)) as [from|e].
  2: { unfold emit, set_fs. cbn [log onces fs]. rewrite !refetches_snoc.
       split; [done|]. split; [repeat case_decide; try done; lia | done]. }
  unfold io_Copy, emit, set_fs. cbn [log onces fs].
  destruct (read_err from); cbn [log onces fs os.files os.set_files].
  - rewrite !refetches_snoc. split; [done|].
    split; [repeat case_decide; try done; lia | done].
  - rewrite !refetches_snoc. split; [done|].
    split; [repeat case_decide; try done; lia |].
    intros ? [= <-]. split; [by eapply CreateTemp_name|].
    rewrite lookup_insert_eq. by eexists.
Qed.

Lemma Fetch_check_cases (u : Upgrader) (w : World) :
  (alive u w ∧ ∃ r, Fetch_check u w = (inl r, emit (EvOpen (transient u)) w))
  ∨ (¬ alive u w ∧ Fetch_check u w = (inr (once u), w)).
Proof.
  unfold Fetch_check, alive, os_Open.
  destruct (decide (transient u = "")) as [Ht|Ht].
  - right. rewrite bool_decide_eq_true_2 by done. cbn. split; [|done]. by intros [? _].
  - rewrite bool_decide_eq_false_2 by done. cbn.
    destruct (os.Stat (transient u) (fs w)) as [stat|e] eqn:Hf.
    + left. split; [split; [done | by exists stat]|]. by eexists.
    + right. split; [|done]. intros [_ [? ?]]. done.
Qed.

Lemma refetches_emit_open (path : string) (w : World) :
  refetches (log (emit (EvOpen path) w)) = refetches (log w).
Proof. unfold emit. cbn [log]. rewrite refetches_snoc. case_decide; [done|lia]. Qed.

Lemma runner_pc_emit_open (o base : nat) (u : Upgrader) (w : World) (path : string) (p : pc) :
  runner_pc o base u w p → runner_pc o base u (emit (EvOpen path) w) p.
Proof.
  destruct p; cbn [runner_pc]; try done; rewrite refetches_emit_open; done.
Qed.

Lemma runner_pc_settled (o base : nat) (u : Upgrader) (w : World) (p : pc) :
  runner_pc o base u w p → once u = o ∨ alive u w.
Proof. destruct p; cbn [runner_pc]; try done; intuition. Qed.

Lemma idle_done_pc (o : nat) (p : pc) : idle_pc o p → done_pc o p.
Proof. by destruct p. Qed.

(** A step of a goroutine that is not in [once.Do] yet, or past it: it
    enters no refetch, and it goes for the latch only when the transient
    is not alive. *)
Lemma step_outside (o : nat) (p p' : pc) (u u' : Upgrader) (w w' : World) :
  passthrough u = false →
  done_pc o p →
  onces w !! o = Some OnceDone ∨ idle_pc o p ∧ p ≠ AtDo o →
  step p u w = Some (p', u', w') →
  u' = u
  ∧ (w' = w ∨ ∃ path, w' = emit (EvOpen path) w)
  ∧ (p' = AtDo (once u) ∧ ¬ alive u w ∧ w' = w
     ∨ (∃ r, p' = Returned r) ∧ (p = AtEntry → alive u w)
     ∨ (∃ e, p' = AfterDo e) ∧ onces w !! o = Some OnceDone).
Proof.
  intros Hp Hdone Hwhere Hstep.
  destruct p as [|o'|o'|o'|o' file|o' err|err|r]; cbn in Hdone; try done.
  - cbn in Hstep. rewrite Hp in Hstep.
    destruct (Fetch_check_cases u w) as [[Ha [r Hc]]|[Ha Hc]];
      rewrite Hc in Hstep; injection Hstep as <- <- <-.
    + split; [done|]. split; [right; by eexists|]. right. left. split; [by eexists|done].
    + split; [done|]. split; [by left|]. left. done.
  - subst o'. destruct Hwhere as [Ho|[_ Hne]]; [|done].
    cbn in Hstep. rewrite Ho in Hstep. injection Hstep as <- <- <-.
    split; [done|]. split; [by left|]. right. right. split; [by eexists|done].
  - destruct Hwhere as [Ho|[Hidle _]]; [|done].
    cbn in Hstep. unfold Fetch_finish, os_Open in Hstep.
    destruct err; injection Hstep as <- <- <-.
    + split; [done|]. split; [by left|]. right. left. split; [by eexists|done].
    + split; [done|]. split; [right; by eexists|]. right. left. split; [by eexists|done].
Qed.

Lemma alive_emit (u : Upgrader) (w : World) (e : event) :
  alive u (emit e w) ↔ alive u w.
Proof. done. Qed.

Lemma alive_file (u : Upgrader) (w : World) :
  transient u ≠ "" → is_Some (os.files (fs w) !! transient u) → alive u w.
Proof. intros Hne [bytes Hf]. split; [done|]. eexists. by apply Stat_file. Qed.

Lemma Forall_insert_lookup {A : Type} (P : A → Prop) (l : list A) (i : nat) (x : A) :
  P x →
  (∀ j y, j ≠ i → l !! j = Some y → P y) →
  Forall P (<[i := x]> l).
Proof.
  intros Hx Hl. apply Forall_lookup. intros j y Hj.
  destruct (decide (j = i)) as [->|Hne].
  - apply list_lookup_insert_Some in Hj as [(_ & <- & _)|[? _]]; done.
  - rewrite list_lookup_insert_ne in Hj by done. by eapply Hl.
Qed.

Lemma idle_pc_at_do (o : nat) (p : pc) : idle_pc o p → p = AtDo o ∨ p ≠ AtDo o.
Proof. destruct p; cbn; intros; subst; (by left) || (by right). Qed.

(** The steps of the goroutines keep them around the latch. *)
Lemma sched_around_latch (o base : nat) (missing : Prop) (i : nat) (s s' : System) :
  around_latch o base missing s →
  sched i s = Some s' →
  around_latch o base missing s'.
Proof.
  intros [Hp Hinv] Hs. unfold sched in Hs.
  destruct (goroutines s !! i) as [p|] eqn:Hi; [|done].
  destruct (step p (upgrader s) (surroundings s)) as [[[p' u'] w']|] eqn:Hstep; [|done].
  inversion Hs; subst s'; clear Hs.
  destruct s as [u w gs]. unfold around_latch. cbn [upgrader surroundings goroutines] in *.
  assert (Hlen : i < length gs) by (by eapply lookup_lt_Some).
  destruct (onces w !! o) as [[| |]|] eqn:Ho; [| | |done].
  - (* the latch is fresh *)
    destruct Hinv as (Hou & Hn & Hall & Hmiss).
    pose proof (Forall_lookup_1 _ _ _ _ Hall Hi) as Hidle.
    destruct (idle_pc_at_do _ _ Hidle) as [->|Hne].
    + cbn in Hstep. rewrite Ho in Hstep. injection Hstep as <- <- <-.
      split; [done|]. cbn [onces set_once].
      rewrite list_lookup_insert_eq by (by eapply lookup_lt_Some).
      exists i, (InRefetch o). split; [by apply list_lookup_insert_eq|].
      split; [done|]. intros j q Hj Hq. rewrite list_lookup_insert_ne in Hq by done.
      by eapply Forall_lookup_1.
    + destruct (step_outside o _ _ _ _ _ _ Hp (idle_done_pc _ _ Hidle)
                  (or_intror (conj Hidle Hne)) Hstep)
        as (-> & Hw & [(-> & Ha & ->)|[[[r ->] Ha]|[_ Hd]]]); [| |congruence].
      * split; [done|]. rewrite Ho. split; [done|]. split; [done|].
        split; [apply Forall_insert; [done|by rewrite Hou]|].
        intros Hm. split; [done|]. apply Forall_insert; [by apply Hmiss|done].
      * assert (Hentry : p = AtEntry).
        { destruct p; cbn in Hidle; try done; try (by subst); by cbn in Hstep. }
        specialize (Ha Hentry).
        assert (onces w' = onces w ∧ refetches (log w') = refetches (log w)
                ∧ (alive u w' ↔ alive u w)) as (Ho' & Hn' & Ha').
        { destruct Hw as [->|[path ->]]; [done|]. by rewrite refetches_emit_open. }
        split; [done|]. rewrite Ho', Ho. split; [done|]. split; [congruence|].
        split; [by apply Forall_insert|].
        intros Hm. by destruct (Hmiss Hm).
  - (* the latch is running *)
    destruct Hinv as (i0 & p0 & Hi0 & Hrun & Hothers).
    destruct (decide (i = i0)) as [->|Hne].
    + assert (p = p0) as -> by congruence.
      destruct p0 as [|o'|o'|o'|o' file|o' err|err|r]; cbn [runner_pc] in Hrun; try done.
      * destruct Hrun as (-> & Hou & Hn). cbn in Hstep. injection Hstep as <- <- <-.
        destruct (refetch_remove_facts u w) as [Ho' Hn'].
        split; [done|]. rewrite Ho', Ho.
        exists i0, (InCopy o). split; [by apply list_lookup_insert_eq|].
        split; [cbn; by rewrite Hn', Hn|].
        intros j q Hj Hq. rewrite list_lookup_insert_ne in Hq by done. by eapply Hothers.
      * destruct Hrun as (-> & Hou & Hn). cbn in Hstep.
        pose proof (refetch_copy_facts u w) as Hcopy.
        destruct (refetch_copy u w) as [[file|e] w1]; destruct Hcopy as (Ho' & Hn' & Hfile);
          injection Hstep as <- <- <-.
        -- split; [done|]. rewrite Ho', Ho.
           exists i0, (InCommit o file). split; [by apply list_lookup_insert_eq|].
           destruct (Hfile file eq_refl) as [Hne Hsome].
           split; [cbn; by rewrite Hn', Hn|].
           intros j q Hj Hq. rewrite list_lookup_insert_ne in Hq by done. by eapply Hothers.
        -- split; [done|]. rewrite Ho', Ho.
           exists i0, (LeavingDo o (Some e)). split; [by apply list_lookup_insert_eq|].
           split; [cbn; rewrite Hn', Hn; by auto|].
           intros j q Hj Hq. rewrite list_lookup_insert_ne in Hq by done. by eapply Hothers.
      * destruct Hrun as (-> & Hou & Hn & Hfile & Hsome). cbn in Hstep.
        injection Hstep as <- <- <-. cbn [passthrough set_once_ptr set_transient].
        split; [done|]. cbn [onces].
        rewrite lookup_app_l by (by eapply lookup_lt_Some). rewrite Ho.
        exists i0, (LeavingDo o None). split; [by apply list_lookup_insert_eq|].
        split; [cbn; split; [done|]; split; [done|]; right; by apply alive_file|].
        intros j q Hj Hq. rewrite list_lookup_insert_ne in Hq by done. by eapply Hothers.
      * destruct Hrun as (-> & Hn & Hsettled). cbn in Hstep.
        injection Hstep as <- <- <-.
        split; [done|]. cbn [onces set_once].
        rewrite list_lookup_insert_eq by (by eapply lookup_lt_Some).
        split; [done|]. split; [|done].
        apply Forall_insert_lookup; [done|].
        intros j q Hj Hq. apply idle_done_pc. by eapply Hothers.
    + pose proof (Hothers i p Hne Hi) as Hidle.
      assert (p ≠ AtDo o) as Hnot.
      { intros ->. cbn in Hstep. by rewrite Ho in Hstep. }
      destruct (step_outside o _ _ _ _ _ _ Hp (idle_done_pc _ _ Hidle)
                  (or_intror (conj Hidle Hnot)) Hstep)
        as (-> & Hw & [(-> & Ha & ->)|[[[r ->] Ha]|[_ Hd]]]); [| |congruence].
      * split; [done|]. rewrite Ho.
        exists i0, p0. split; [by rewrite list_lookup_insert_ne|]. split; [done|].
        intros j q Hj Hq. destruct (decide (j = i)) as [->|Hji].
        -- apply list_lookup_insert_Some in Hq as [(_ & <- & _)|[? _]]; [|done].
           cbn. destruct (runner_pc_settled _ _ _ _ _ Hrun); done.
        -- rewrite list_lookup_insert_ne in Hq by done. by eapply Hothers.
      * assert (onces w' = onces w ∧ runner_pc o base u w' p0) as [Ho' Hrun'].
        { destruct Hw as [->|[path ->]]; [done|]. split; [done|].
          by apply runner_pc_emit_open. }
        split; [done|]. rewrite Ho', Ho.
        exists i0, p0. split; [by rewrite list_lookup_insert_ne|]. split; [done|].
        intros j q Hj Hq. destruct (decide (j = i)) as [->|Hji].
        -- apply list_lookup_insert_Some in Hq as [(_ & <- & _)|[? _]]; done.
        -- rewrite list_lookup_insert_ne in Hq by done. by eapply Hothers.
  - (* the latch is done *)
    destruct Hinv as (Hn & Hall & Hsettled).
    pose proof (Forall_lookup_1 _ _ _ _ Hall Hi) as Hdone.
    destruct (step_outside o _ _ _ _ _ _ Hp Hdone (or_introl Ho) Hstep)
      as (-> & Hw & Hp').
    assert (onces w' = onces w ∧ refetches (log w') = refetches (log w)
            ∧ (alive u w' ↔ alive u w)) as (Ho' & Hn' & Ha').
    { destruct Hw as [->|[path ->]]; [done|]. by rewrite refetches_emit_open. }
    split; [done|]. rewrite Ho', Ho. split; [congruence|].
    split; [|by rewrite Ha'].
    apply Forall_insert; [done|].
    destruct Hp' as [(-> & Ha & _)|[[[r ->] _]|[[e ->] _]]]; [|done|done].
    cbn. by destruct Hsettled.
Qed.

Lemma run_around_latch (o base : nat) (missing : Prop) (schedule : list nat) (s : System) :
  around_latch o base missing s →
  around_latch o base missing (run schedule s).
Proof.
  revert s. induction schedule as [|i schedule IH]; intros s Hs; cbn; [done|].
  destruct (sched i s) as [s'|] eqn:Hi; [|by apply IH].
  apply IH. by eapply sched_around_latch.
Qed.

Lemma run_length (schedule : list nat) (s : System) :
  length (goroutines (run schedule s)) = length (goroutines s).
Proof.
  revert s. induction schedule as [|i schedule IH]; intros s; cbn; [done|].
  destruct (sched i s) as [s'|] eqn:Hi; [|by apply IH].
  rewrite IH. unfold sched in Hi.
  destruct (goroutines s !! i); [|done].
  destruct (step _ _ _) as [[[p' u'] w']|]; [|done].
  injection Hi as <-. cbn. apply length_insert.
Qed.

(** A goroutine that reaches [once.Do] while another one runs the
    function waits. *)
Lemma waits_for_refetch (o : nat) (u : Upgrader) (w : World) :
  onces w !! o = Some OnceRunning → step (AtDo o) u w = None.
Proof. intros Ho. cbn. by rewrite Ho. Qed.

(** While the latch is armed the calls of [Fetch] are deduplicated:
    however many goroutines call [Fetch] and however they are scheduled,
    at most one refetch is entered; and when the transient was missing
    and all the calls have returned, exactly one. *)
Theorem armed_latch_dedups (u : Upgrader) (w : World) (n : nat) (schedule : list nat) :
  passthrough u = false →
  onces w !! once u = Some OnceFresh →
  let s := run schedule {| upgrader := u; surroundings := w;
                           goroutines := replicate n AtEntry |} in
  (refetches (log (surroundings s)) ≤ S (refetches (log w)))%nat
  ∧ (¬ alive u w → (0 < n)%nat →
     Forall (λ p, ∃ r, p = Returned r) (goroutines s) →
     refetches (log (surroundings s)) = S (refetches (log w))).
Proof.
  intros Hp Ho s.
  assert (around_latch (once u) (refetches (log w)) (¬ alive u w) s) as [_ Hinv].
  { apply run_around_latch. split; [done|]. cbn. rewrite Ho.
    split; [done|]. split; [done|]. split; [by apply Forall_replicate|].
    intros Hm. split; [done|]. by apply Forall_replicate. }
  assert (length (goroutines s) = n) as Hlen.
  { unfold s. rewrite run_length. cbn. apply length_replicate. }
  destruct (onces (surroundings s) !! once u) as [[| |]|]; [| | |done].
  - destruct Hinv as (_ & Hn & _ & Hmiss). split; [lia|].
    intros Hm Hpos Hret. destruct (Hmiss Hm) as [_ Hnot].
    destruct (goroutines s) as [|p gs]; [cbn in Hlen; lia|].
    apply Forall_cons in Hret as [[r ->] _]. by apply Forall_cons in Hnot as [? _].
  - destruct Hinv as (i & p & Hi & Hrun & _). split.
    + destruct p; cbn in Hrun; try done; lia.
    + intros _ _ Hret. destruct (Forall_lookup_1 _ _ _ _ Hret Hi) as [r ->]. done.
  - destruct Hinv as (Hn & _). split; [lia|]. by intros.
Qed.

End ArmedLatch.

(** Three calls of [Fetch] on a fresh upgrader of a reachable mount: the
    first goroutine runs the refetch, the second waits in [once.Do], the
    third arrives meanwhile; one refetch, and each call returns a reader on
    the new transient. *)
Example armed_latch_dedups_three :
  let u := {| mount.rootdir := "/data/transients"; mount.underlying := Scenario.healthy;
              mount.key := "k"; mount.passthrough := false; mount.transient := "";
              mount.once := 0 |} in
  let w := {| mount.fs := mount.fs Scenario.disk; mount.onces := [mount.OnceFresh];
              mount.log := [] |} in
  let s := mount.run [0; 1; 0; 1; 2; 0; 0; 0; 0; 0; 1; 1; 2; 2]
             {| mount.upgrader := u; mount.surroundings := w;
                mount.goroutines := replicate 3 mount.AtEntry |} in
  mount.Upgrade Scenario.healthy "/data/transients" "k" "" Scenario.disk = (Ok u, w)
  ∧ mount.goroutines s = replicate 3 (mount.Returned (Ok Scenario.car))
  ∧ mount.refetches (mount.log (mount.surroundings s)) = 1
  ∧ mount.transient (mount.upgrader s) = "/data/transients/transient-k-0".
Proof.
  intros u w s.
  assert (Hg : mount.goroutines s = replicate 3 (mount.Returned (Ok Scenario.car)))
    by (vm_compute; reflexivity).
  split; [reflexivity|]. split; [exact Hg|]. split; [|vm_compute; reflexivity].
  apply (proj2 (armed_latch_dedups u w 3 [0; 1; 0; 1; 2; 0; 0; 0; 0; 0; 1; 1; 2; 2]
                  eq_refl eq_refl)).
  - intros [Hne _]. by apply Hne.
  - lia.
  - fold s. rewrite Hg. repeat constructor; by eexists.
Defined.

(** * Properties of the DAG store *)
Section QueueFacts.
Import dagstore.

Lemma queueTask_open (tsk : task) (ch : chan) (d : DAGStore) :
  ctx_done d = false →
  queueTask tsk ch d = (None, send ch tsk d).
Proof.
  unfold queueTask, refuses, advance, ctx_done. by destruct (cancelled d).
Qed.

Lemma ctx_done_open (d : DAGStore) : ctx_done d = false → cancelled d = None.
Proof. unfold ctx_done. by destruct (cancelled d). Qed.

Lemma refuses_closed (d : DAGStore) : refuses d = true → ctx_done d = true.
Proof. unfold refuses, ctx_done. by destruct (cancelled d). Qed.

(** One select later the engine is as it was, but for the selects to
    come. *)
Lemma advance_frame (d : DAGStore) :
  shards (advance d) = shards d ∧ config (advance d) = config d
  ∧ indices (advance d) = indices d ∧ store (advance d) = store d
  ∧ external (advance d) = external d ∧ internal (advance d) = internal d
  ∧ completion (advance d) = completion d
  ∧ dispatchResultsCh (advance d) = dispatchResultsCh d
  ∧ dispatchFailuresCh (advance d) = dispatchFailuresCh d
  ∧ throttleFetch (advance d) = throttleFetch d
  ∧ throttleIndex (advance d) = throttleIndex d
  ∧ ctx_done (advance d) = ctx_done d
  ∧ trace (advance d) = trace d ∧ world (advance d) = world d.
Proof.
  unfold advance, ctx_done. destruct d as [? ? ? ? ? ? ? ? ? ? ? cd ? ?]; cbn.
  by destruct cd.
Qed.

(** What [queueTask] does: the task is sent unless the select takes the
    [Done] case, and nothing else changes but the selects to come. *)
Lemma queueTask_spec (tsk : task) (ch : chan) (d : DAGStore) :
  let '(ret, d') := queueTask tsk ch d in
  ret = (if refuses d then Some (errorString "dag store closed") else None)
  ∧ sent ch d' = sent ch d ++ (if refuses d then [] else [tsk])
  ∧ (∀ ch', ch' ≠ ch → sent ch' d' = sent ch' d)
  ∧ trace d' = trace d ++ (if refuses d then [] else [EvSend ch tsk])
  ∧ shards d' = shards d ∧ config d' = config d
  ∧ indices d' = indices d ∧ store d' = store d
  ∧ dispatchResultsCh d' = dispatchResultsCh d
  ∧ dispatchFailuresCh d' = dispatchFailuresCh d
  ∧ throttleFetch d' = throttleFetch d
  ∧ throttleIndex d' = throttleIndex d
  ∧ ctx_done d' = ctx_done d
  ∧ world d' = world d
  ∧ cancelled d' = cancelled (advance d).
Proof.
  unfold queueTask. destruct (refuses d) eqn:Href.
  - pose proof (advance_frame d)
      as (? & ? & ? & ? & He & Hi & Hc & ? & ? & ? & ? & ? & ? & ?).
    rewrite !app_nil_r. repeat split; try done.
    + by destruct ch.
    + intros ch' _. by destruct ch'.
  - unfold refuses, advance, ctx_done in *.
    destruct d as [? ? ? ? ? ? ? ? ? ? ? cd ? ?]; cbn in *.
    destruct cd as [sel|]; destruct ch; cbn; repeat split; try done;
      intros ch' Hne; by destruct ch'.
Qed.

(** A task sent on the external channel is the last one on it, and the
    other channels and the catalog are as before. *)
Lemma send_external (tsk : task) (d : DAGStore) :
  external (send externalCh tsk d) = external d ++ [tsk]
  ∧ internal (send externalCh tsk d) = internal d
  ∧ completion (send externalCh tsk d) = completion d
  ∧ shards (send externalCh tsk d) = shards d
  ∧ ctx_done (send externalCh tsk d) = ctx_done d.
Proof. by destruct d. Qed.

Lemma queue_external_open (tsk : task) (d : DAGStore) :
  ctx_done d = false →
  ∃ d', queueTask tsk externalCh d = (None, d')
        ∧ external d' = external d ++ [tsk]
        ∧ internal d' = internal d
        ∧ completion d' = completion d
        ∧ shards d' = shards d.
Proof.
  intros H. rewrite queueTask_open by done. eexists. split; [reflexivity|].
  by destruct d.
Qed.


(** A call that only records an event, made through a throttler:
    either the wait for a permit is cancelled and nothing happens, or the
    call runs within the permit. Only the trace changes. *)
Lemma throttled_call {R : Type} (t : Throttler) (c : Context) (r : result R)
    (ev : event) (d : DAGStore) :
  let '(r', d1) := Throttler_Do t c (λ _ d, (r, emit ev d)) d in
  ((r' = Err (ctx_Err c) ∧ trace d1 = trace d)
   ∨ (r' = r ∧ trace d1 = trace d ++ throttled t [ev]))
  ∧ completion d1 = completion d
  ∧ dispatchResultsCh d1 = dispatchResultsCh d
  ∧ indices d1 = indices d
  ∧ throttleIndex d1 = throttleIndex d
  ∧ ctx_done d1 = ctx_done d.
Proof.
  unfold Throttler_Do, throttled.
  destruct d; cbn.
  destruct (bool_decide _); cbn.
  { split; [right|done]. done. }
  destruct (Done c); cbn.
  { split; [left|done]. done. }
  split; [right|done]. split; [done|]. by rewrite <- !app_assoc.
Qed.

End QueueFacts.


(** C6, as stated, fails for [RegisterShard] on a mount that cannot be
    upgraded: the key is not in the catalog and the engine is running, and
    yet the call returns an error and enqueues nothing. *)
Lemma RegisterShard_rejects_mount :
  let d := Engine.idle in
  let opts := {| dagstore.ExistingTransient := ""; dagstore.LazyInitialization := false |} in
  dagstore.shards d !! "k9" = None
  ∧ dagstore.ctx_done d = false
  ∧ ∃ d', dagstore.RegisterShard Engine.live "k9" Scenario.random_only (Some 7) opts d
          = (Some (errorString "underlying mount must support sequential access"), d')
        ∧ dagstore.external d' = dagstore.external d
        ∧ dagstore.shards d' = dagstore.shards d.
Proof.
  split; [reflexivity|]. split; [reflexivity|].
  eexists. split; [reflexivity|]. split; reflexivity.
Qed.

(** C6, amended. [RegisterShard] returns a [ShardExists] error when the
    key is already in the catalog, and [AcquireShard], [RecoverShard] and
    [DestroyShard] return a [ShardUnknown] error when it is not; in these
    cases nothing is enqueued and the catalog is as before. [RegisterShard]
    also returns the error of [mount.Upgrade], enqueuing and cataloguing
    nothing, when the mount has no sequential access. In all other cases,
    absent engine shutdown, each call places exactly one task, of its own
    operation and for that key, on the external channel and returns nil. *)
Theorem api_validation :
  ∀ (c : dagstore.Context) (k : dagstore.Key) (out : option nat) (d : dagstore.DAGStore),
    (* the key is known *)
    (∀ s mnt opts, dagstore.shards d !! k = Some s →
       (∃ e, dagstore.RegisterShard c k mnt out opts d = (Some e, d)
             ∧ errors_Is is_ErrShardExists e = true)
       ∧ (dagstore.ctx_done d = false →
          ∀ call o,
            (call, o) ∈ [(dagstore.AcquireShard, dagstore.OpShardAcquire);
                         (dagstore.RecoverShard, dagstore.OpShardRecover);
                         (dagstore.DestroyShard, dagstore.OpShardDestroy)] →
            ∃ d', call c k out d = (None, d')
                  ∧ dagstore.external d' = dagstore.external d ++ [api_task o c k out]
                  ∧ dagstore.internal d' = dagstore.internal d
                  ∧ dagstore.completion d' = dagstore.completion d
                  ∧ dagstore.shards d' = dagstore.shards d))
    (* the key is not known *)
    ∧ (dagstore.shards d !! k = None →
       (∀ call, call ∈ [dagstore.AcquireShard; dagstore.RecoverShard; dagstore.DestroyShard] →
          ∃ e, call c k out d = (Some e, d) ∧ errors_Is is_ErrShardUnknown e = true)
       ∧ (∀ mnt opts,
            mount.AccessSequential (mount.Mount_Info mnt) = false →
            ∃ e d' wo,
              mount.Upgrade mnt (dagstore.TransientsDir (dagstore.config d)) k
                (dagstore.ExistingTransient opts) (dagstore.world d) = (Err e, wo)
              ∧ e = errorString "underlying mount must support sequential access"
              ∧ dagstore.RegisterShard c k mnt out opts d = (Some e, d')
              ∧ dagstore.external d' = dagstore.external d
              ∧ dagstore.shards d' = dagstore.shards d)
       ∧ (∀ mnt opts e wo,
            mount.Upgrade mnt (dagstore.TransientsDir (dagstore.config d)) k
              (dagstore.ExistingTransient opts) (dagstore.world d) = (Err e, wo) →
            dagstore.RegisterShard c k mnt out opts d = (Some e, dagstore.set_world wo d)
            ∧ dagstore.external (dagstore.set_world wo d) = dagstore.external d
            ∧ dagstore.shards (dagstore.set_world wo d) = dagstore.shards d)
       ∧ (∀ mnt opts,
            mount.AccessSequential (mount.Mount_Info mnt) = true →
            dagstore.ctx_done d = false →
            ∃ d' s, dagstore.RegisterShard c k mnt out opts d = (None, d')
                    ∧ dagstore.external d'
                      = dagstore.external d ++ [api_task dagstore.OpShardRegister c k out]
                    ∧ dagstore.internal d' = dagstore.internal d
                    ∧ dagstore.completion d' = dagstore.completion d
                    ∧ dagstore.shards d' = <[k := s]> (dagstore.shards d)
                    ∧ dagstore.key s = k
                    ∧ dagstore.state s = dagstore.ShardStateNew)).
Proof.
  intros c k out d. split.
  - intros s mnt opts Hk. split.
    + unfold dagstore.RegisterShard. rewrite Hk. eexists. split; reflexivity.
    + intros Hopen call o Hin.
      repeat (apply elem_of_cons in Hin as [Hin|Hin]; [inversion Hin; subst; clear Hin|]);
        [| | |by apply elem_of_nil in Hin].
      all: cbv beta delta [dagstore.AcquireShard dagstore.RecoverShard dagstore.DestroyShard];
        rewrite Hk; exact (queue_external_open _ d Hopen).
  - intros Hk. split; [|split; [|split]].
    + intros call Hin.
      repeat (apply elem_of_cons in Hin as [->|Hin]); [| | |by apply elem_of_nil in Hin].
      all: cbv beta delta [dagstore.AcquireShard dagstore.RecoverShard dagstore.DestroyShard];
        rewrite Hk; eexists; split; reflexivity.
    + intros mnt opts Hseq. unfold dagstore.RegisterShard, mount.Upgrade. rewrite Hk.
      cbn [mount.new_Once]. rewrite Hseq. cbn.
      eexists _, _, _. split; [reflexivity|]. split; [reflexivity|].
      split; [reflexivity|]. by destruct d.
    + intros mnt opts e wo Hup. unfold dagstore.RegisterShard. rewrite Hk, Hup.
      split; [reflexivity|]. by destruct d.
    + intros mnt opts Hseq Hopen. unfold dagstore.RegisterShard. rewrite Hk.
      destruct (mount.Upgrade mnt _ k _ (dagstore.world d)) as [[upgraded|e] wo] eqn:Hup.
      2: { exfalso. unfold mount.Upgrade in Hup. cbn [mount.new_Once] in Hup.
           rewrite Hseq in Hup. cbn in Hup.
           repeat match type of Hup with
                  | context [if ?b then _ else _] => destruct b
                  | context [match ?x with _ => _ end] => destruct x
                  end; discriminate. }
      rewrite queueTask_open by (by destruct d).
      eexists _, _. split; [reflexivity|].
      destruct d; cbn in *. by repeat split.
Qed.

Lemma api_validation_witness :
  dagstore.shards Engine.idle !! "k1" = Some (Engine.blank "k1" dagstore.ShardStateAvailable)
  ∧ dagstore.ctx_done Engine.idle = false
  ∧ ∃ d', dagstore.AcquireShard Engine.live "k1" (Some 7) Engine.idle = (None, d')
          ∧ dagstore.external d'
            = [api_task dagstore.OpShardAcquire Engine.live "k1" (Some 7)].
Proof.
  split; [reflexivity|]. split; [reflexivity|].
  destruct (api_validation Engine.live "k1" (Some 7) Engine.idle) as [Hknown _].
  destruct (Hknown (Engine.blank "k1" dagstore.ShardStateAvailable) Scenario.healthy
              {| dagstore.ExistingTransient := ""; dagstore.LazyInitialization := false |})
    as [_ Hq]; [reflexivity|].
  destruct (Hq eq_refl dagstore.AcquireShard dagstore.OpShardAcquire) as (d' & Hcall & Hext & _).
  { apply elem_of_cons. by left. }
  exists d'. split; [exact Hcall | exact Hext].
Defined.

(** ** The workers *)


(** C1, as stated, fails once the engine is shut down: the select of
    [queueTask] may then take its [Done] case, [queueTask] returns "dag
    store closed" and the worker drops that error. In the run in which it
    does so at both calls, a mount fetch that fails enqueues neither the
    Release nor the Fail task, and only the dispatch to the caller takes
    place; in the run in which it does so at the first call only, the shard
    is failed and the reference is not released. In the run in which the
    select takes the send both times, both tasks are enqueued. *)
Lemma acquireAsync_after_shutdown :
  let s := Engine.blank "k1" dagstore.ShardStateServing in
  let run sel :=
    dagstore.acquireAsync Engine.live Engine.caller s Scenario.unreachable
      (snd (dagstore.Close sel Engine.idle)) in
  let fail := fail_task "k1" "failed to acquire reader of mount" Scenario.noroute in
  mount.Mount_Fetch Scenario.unreachable = Err Scenario.noroute
  ∧ dagstore.completion (run Engine.always_done) = []
  ∧ dagstore.trace (run Engine.always_done)
    = [dagstore.EvPermit dagstore.ThrottleFetch; dagstore.EvMountFetch;
       dagstore.EvPermitBack dagstore.ThrottleFetch;
       dagstore.EvDispatch (failure "k1" Scenario.noroute) (Some Engine.caller)]
  ∧ dagstore.completion (run Engine.done_then_send) = [fail]
  ∧ dagstore.completion (run Engine.always_send) = [release_task "k1"; fail].
Proof. repeat split; reflexivity. Qed.

(** C1, amended. For every execution of [acquireAsync], absent engine
    shutdown: when the mount fetch fails, the worker enqueues a Release
    task, then a Fail task, on the completion channel and then dispatches
    the error to the caller; when the fetch succeeds and the index cannot
    be loaded, it closes the reader and then does the same; otherwise it
    dispatches the accessor with a nil error and enqueues nothing. So every
    execution that dispatches an error has enqueued the Release before. *)
Theorem acquireAsync_compensates :
  ∀ (c : dagstore.Context) (wt : dagstore.waiter) (s : dagstore.Shard) (mnt : mount.Mount)
    (d : dagstore.DAGStore),
    dagstore.ctx_done d = false →
    let k := dagstore.key s in
    let d' := dagstore.acquireAsync c wt s mnt d in
    match dagstore.Throttler_Do (dagstore.throttleFetch d) c (dagstore.mnt_Fetch mnt) d with
    | (Err e, d1) =>
        let fail := fail_task k "failed to acquire reader of mount" e in
        dagstore.trace d'
        = dagstore.trace d1
          ++ [dagstore.EvSend dagstore.completionCh (release_task k);
              dagstore.EvSend dagstore.completionCh fail;
              dagstore.EvDispatch (failure k e) (Some wt)]
        ∧ dagstore.completion d' = dagstore.completion d ++ [release_task k; fail]
        ∧ dagstore.dispatchResultsCh d'
          = dagstore.dispatchResultsCh d
            ++ [{| dagstore.w := Some wt; dagstore.res := failure k e |}]
    | (Ok reader, d1) =>
        match dagstore.GetFullIndex k (dagstore.indices d) with
        | Err e =>
            let fail := fail_task k ("failed to recover index for shard " +:+ k) e in
            dagstore.trace d'
            = dagstore.trace d1
              ++ [dagstore.EvGetFullIndex k; dagstore.EvReaderClose;
                  dagstore.EvSend dagstore.completionCh (release_task k);
                  dagstore.EvSend dagstore.completionCh fail;
                  dagstore.EvDispatch (failure k e) (Some wt)]
            ∧ dagstore.completion d' = dagstore.completion d ++ [release_task k; fail]
            ∧ dagstore.dispatchResultsCh d'
              = dagstore.dispatchResultsCh d
                ++ [{| dagstore.w := Some wt; dagstore.res := failure k e |}]
        | Ok idx =>
            let sa := {| dagstore.sa_data := reader; dagstore.sa_idx := idx;
                         dagstore.sa_shard := k |} in
            let ok := {| dagstore.Key_of := k; dagstore.Error := None;
                         dagstore.Accessor := Some sa |} in
            dagstore.trace d'
            = dagstore.trace d1 ++ [dagstore.EvGetFullIndex k; dagstore.EvDispatch ok (Some wt)]
            ∧ dagstore.completion d' = dagstore.completion d
            ∧ dagstore.dispatchResultsCh d'
              = dagstore.dispatchResultsCh d ++ [{| dagstore.w := Some wt; dagstore.res := ok |}]
        end
    end.
Proof.
  intros c wt s mnt d Hopen k d'.
  pose proof (throttled_call (dagstore.throttleFetch d) c (mount.Mount_Fetch mnt)
                dagstore.EvMountFetch d) as Hf.
  change (λ (_ : dagstore.Context) (d0 : dagstore.DAGStore),
            (mount.Mount_Fetch mnt, dagstore.emit dagstore.EvMountFetch d0))
    with (dagstore.mnt_Fetch mnt) in Hf.
  unfold d', dagstore.acquireAsync. fold k.
  destruct (dagstore.Throttler_Do _ c _ d) as [[reader|e] d1].
  - destruct Hf as (_ & Hc & Hd & Hi & _ & Hx).
    rewrite Hopen in Hx. apply ctx_done_open in Hx. clear Hopen.
    assert (dagstore.indices (dagstore.emit (dagstore.EvGetFullIndex k) d1) = dagstore.indices d)
      as -> by (by destruct d1).
    destruct (dagstore.GetFullIndex k (dagstore.indices d)) as [idx|e].
    + destruct d1; cbn in *; subst. by rewrite <- app_assoc.
    + unfold dagstore.reader_Close, dagstore.failShard, dagstore.queueTask,
        dagstore.refuses, dagstore.advance.
      destruct d1; cbn in *; subst. cbn.
      repeat split; try done; by rewrite <- !app_assoc.
  - destruct Hf as (_ & Hc & Hd & Hi & _ & Hx).
    rewrite Hopen in Hx. apply ctx_done_open in Hx. clear Hopen.
    unfold dagstore.failShard, dagstore.queueTask, dagstore.refuses, dagstore.advance.
    destruct d1; cbn in *; subst. cbn.
    repeat split; try done; by rewrite <- !app_assoc.
Qed.

Lemma acquireAsync_compensates_witness :
  dagstore.ctx_done Engine.idle = false
  ∧ dagstore.completion
      (dagstore.acquireAsync Engine.live Engine.caller
         (Engine.blank "k1" dagstore.ShardStateServing) Scenario.unreachable Engine.idle)
    = [release_task "k1"; fail_task "k1" "failed to acquire reader of mount" Scenario.noroute].
Proof.
  split; [reflexivity|].
  pose proof (acquireAsync_compensates Engine.live Engine.caller
                (Engine.blank "k1" dagstore.ShardStateServing) Scenario.unreachable
                Engine.idle eq_refl) as H.
  cbv zeta in H. cbn [Engine.blank dagstore.key] in H.
  exact (proj1 (proj2 H)).
Defined.

(** C5, as stated, fails once the engine is shut down: the select of
    [queueTask] may then take its [Done] case, and in the run in which it
    does, a mount fetch that fails enqueues no Fail task. In the run in
    which the select takes the send, the Fail task is enqueued. *)
Lemma initializeShard_after_shutdown :
  let s := Engine.blank "k1" dagstore.ShardStateInitializing in
  let run sel :=
    dagstore.initializeShard Engine.index_of Engine.live s Scenario.unreachable
      (snd (dagstore.Close sel Engine.idle)) in
  mount.Mount_Fetch Scenario.unreachable = Err Scenario.noroute
  ∧ dagstore.completion (run Engine.always_done) = []
  ∧ dagstore.trace (run Engine.always_done)
    = [dagstore.EvPermit dagstore.ThrottleFetch; dagstore.EvMountFetch;
       dagstore.EvPermitBack dagstore.ThrottleFetch]
  ∧ dagstore.completion (run Engine.always_send)
    = [fail_task "k1" "failed to acquire reader of mount" Scenario.noroute].
Proof. repeat split; reflexivity. Qed.

(** C5, amended. For every execution of [initializeShard], absent engine
    shutdown: the worker fetches the mount through the fetch throttler,
    reads or generates the index through the index throttler, stores the
    index in the repository and then enqueues a MakeAvailable task, in this
    order; when one of the steps fails the later steps do not run, and it
    enqueues one Fail task with the error of that step and no MakeAvailable
    task. The reader, once fetched, is closed as the worker returns. *)
Theorem initializeShard_steps :
  ∀ (generate : mount.Reader → result dagstore.Index) (c : dagstore.Context)
    (s : dagstore.Shard) (mnt : mount.Mount) (d : dagstore.DAGStore),
    dagstore.ctx_done d = false →
    let k := dagstore.key s in
    let d' := dagstore.initializeShard generate c s mnt d in
    let sends tsk := dagstore.EvSend dagstore.completionCh tsk in
    match dagstore.Throttler_Do (dagstore.throttleFetch d) c (dagstore.mnt_Fetch mnt) d with
    | (Err e, d1) =>
        let fail := fail_task k "failed to acquire reader of mount" e in
        dagstore.trace d' = dagstore.trace d1 ++ [sends fail]
        ∧ dagstore.completion d' = dagstore.completion d ++ [fail]
        ∧ dagstore.indices d' = dagstore.indices d
    | (Ok reader, d1) =>
        match dagstore.Throttler_Do (dagstore.throttleIndex d) c
                (λ _ d, (generate reader, dagstore.emit dagstore.EvReadOrGenerateIndex d)) d1
        with
        | (Err e, d2) =>
            let fail := fail_task k "failed to read/generate CAR Index" e in
            dagstore.trace d' = dagstore.trace d2 ++ [sends fail; dagstore.EvReaderClose]
            ∧ dagstore.completion d' = dagstore.completion d ++ [fail]
            ∧ dagstore.indices d' = dagstore.indices d
        | (Ok idx, d2) =>
            match dagstore.AddFullIndex k idx (dagstore.indices d) with
            | (Some e, repo) =>
                let fail := fail_task k "failed to add index for shard" e in
                dagstore.trace d'
                = dagstore.trace d2
                  ++ [dagstore.EvAddFullIndex k; sends fail; dagstore.EvReaderClose]
                ∧ dagstore.completion d' = dagstore.completion d ++ [fail]
                ∧ dagstore.indices d' = repo
            | (None, repo) =>
                dagstore.trace d'
                = dagstore.trace d
                  ++ throttled (dagstore.throttleFetch d) [dagstore.EvMountFetch]
                  ++ throttled (dagstore.throttleIndex d) [dagstore.EvReadOrGenerateIndex]
                  ++ [dagstore.EvAddFullIndex k; sends (available_task k);
                      dagstore.EvReaderClose]
                ∧ dagstore.completion d' = dagstore.completion d ++ [available_task k]
                ∧ dagstore.indices d' = repo
                ∧ dagstore.GetFullIndex k repo = Ok idx
            end
        end
    end.
Proof.
  intros generate c s mnt d Hopen k d' sends.
  pose proof (throttled_call (dagstore.throttleFetch d) c (mount.Mount_Fetch mnt)
                dagstore.EvMountFetch d) as Hf.
  unfold d', dagstore.initializeShard. fold k.
  change (λ (_ : dagstore.Context) (d0 : dagstore.DAGStore),
            (mount.Mount_Fetch mnt, dagstore.emit dagstore.EvMountFetch d0))
    with (dagstore.mnt_Fetch mnt) in Hf.
  destruct (dagstore.Throttler_Do _ c (dagstore.mnt_Fetch mnt) d) as [[reader|e] d1].
  - destruct Hf as (Htr1 & Hc1 & _ & Hi1 & Hti & Hx1).
    rewrite Hti.
    pose proof (throttled_call (dagstore.throttleIndex d) c (generate reader)
                  dagstore.EvReadOrGenerateIndex d1) as Hg.
    destruct (dagstore.Throttler_Do _ c _ d1) as [[idx|e] d2].
    + destruct Hg as (Htr2 & Hc2 & _ & Hi2 & _ & Hx2).
      rewrite Hi2, Hi1. rewrite Hc1 in Hc2. rewrite Hx1, Hopen in Hx2. clear Hc1 Hx1 Hi1 Hi2.
      apply ctx_done_open in Hx2. clear Hopen.
      destruct (dagstore.AddFullIndex k idx (dagstore.indices d)) as [[e|] repo] eqn:Hadd.
      * unfold dagstore.reader_Close, dagstore.failShard, dagstore.queueTask,
          dagstore.refuses, dagstore.advance.
        destruct d2; cbn in *; subst. cbn.
        repeat split; try done; by rewrite <- !app_assoc.
      * destruct Htr1 as [[? _]|[_ Htr1]]; [done|].
        destruct Htr2 as [[? _]|[_ Htr2]]; [done|]. rewrite Htr1 in Htr2.
        unfold dagstore.reader_Close, dagstore.queueTask, dagstore.refuses, dagstore.advance.
        destruct d2; cbn in *; subst. cbn.
        split; [|split; [|split]]; try done.
        -- by rewrite <- !app_assoc.
        -- unfold dagstore.AddFullIndex in Hadd.
           destruct (dagstore.repo_fault (dagstore.indices d)); [done|].
           inversion Hadd; subst. unfold dagstore.GetFullIndex. cbn.
           by rewrite lookup_insert_eq.
    + destruct Hg as (Htr2 & Hc2 & _ & Hi2 & _ & Hx2).
      rewrite Hc1 in Hc2. rewrite Hx1, Hopen in Hx2. rewrite Hi1 in Hi2. clear Hc1 Hx1 Hi1.
      apply ctx_done_open in Hx2. clear Hopen.
      unfold dagstore.reader_Close, dagstore.failShard, dagstore.queueTask,
        dagstore.refuses, dagstore.advance.
      destruct d2; cbn in *; subst. cbn.
      repeat split; try done; by rewrite <- !app_assoc.
  - destruct Hf as (Htr1 & Hc1 & _ & Hi1 & _ & Hx1).
    rewrite Hopen in Hx1. apply ctx_done_open in Hx1. clear Hopen.
    unfold dagstore.failShard, dagstore.queueTask, dagstore.refuses, dagstore.advance.
    destruct d1; cbn in *; subst. cbn.
    repeat split; try done; by rewrite <- !app_assoc.
Qed.

Lemma initializeShard_steps_witness :
  dagstore.ctx_done Engine.idle = false
  ∧ dagstore.completion
      (dagstore.initializeShard Engine.index_of Engine.live
         (Engine.blank "k1" dagstore.ShardStateInitializing) Scenario.healthy Engine.idle)
    = [available_task "k1"].
Proof.
  split; [reflexivity|].
  pose proof (initializeShard_steps Engine.index_of Engine.live
                (Engine.blank "k1" dagstore.ShardStateInitializing) Scenario.healthy
                Engine.idle eq_refl) as H.
  vm_compute in H. vm_compute. exact (proj1 (proj2 H)).
Defined.

(** ** Restart *)
Section RestoreFacts.
Import dagstore.
Variable UnmarshalJSON : string → result Shard.

Lemma set_shards_shards (d : DAGStore) : set_shards (shards d) d = d.
Proof. by destruct d. Qed.

Lemma set_shards_twice (m m' : gmap Key Shard) (d : DAGStore) :
  set_shards m (set_shards m' d) = set_shards m d.
Proof. by destruct d. Qed.

Lemma shards_set_shards (m : gmap Key Shard) (d : DAGStore) :
  shards (set_shards m d) = m.
Proof. by destruct d. Qed.

(** The loop of [restoreState] touches the catalog only. *)
Lemma restoreState_loop_frame (recs : list (string * string)) (d : DAGStore) :
  restoreState_loop UnmarshalJSON recs d
  = set_shards (shards (restoreState_loop UnmarshalJSON recs d)) d.
Proof.
  revert d. induction recs as [|[k v] recs IH]; intros d; cbn.
  - by rewrite set_shards_shards.
  - destruct (UnmarshalJSON v) as [s|e]; [|apply IH].
    rewrite IH at 1. by rewrite set_shards_twice.
Qed.

Lemma restoreState_loop_app (l1 l2 : list (string * string)) (d : DAGStore) :
  restoreState_loop UnmarshalJSON (l1 ++ l2) d
  = restoreState_loop UnmarshalJSON l2 (restoreState_loop UnmarshalJSON l1 d).
Proof.
  revert d. induction l1 as [|[k v] l1 IH]; intros d; cbn; [done|].
  destruct (UnmarshalJSON v); apply IH.
Qed.

(** A key that no record of the list deserializes to is left alone. *)
Lemma restoreState_loop_other (recs : list (string * string)) (k0 : Key) (d : DAGStore) :
  (∀ k v s, (k, v) ∈ recs → UnmarshalJSON v = Ok s → key s ≠ k0) →
  shards (restoreState_loop UnmarshalJSON recs d) !! k0 = shards d !! k0.
Proof.
  revert d. induction recs as [|[k v] recs IH]; intros d Hno; cbn; [done|].
  assert (∀ k v s, (k, v) ∈ recs → UnmarshalJSON v = Ok s → key s ≠ k0) as Hno'.
  { intros k' v' s' Hin. apply (Hno k' v' s'). by apply list_elem_of_further. }
  destruct (UnmarshalJSON v) as [s|e] eqn:Hv; [|by apply IH].
  rewrite IH by done. rewrite shards_set_shards.
  apply lookup_insert_ne. apply (Hno k v s); [apply list_elem_of_here | done].
Qed.

(** Whatever is in the catalog after the loop was there before or comes
    from a record that deserializes. *)
Lemma restoreState_loop_from (recs : list (string * string)) (k0 : Key) (s : Shard)
    (d : DAGStore) :
  shards (restoreState_loop UnmarshalJSON recs d) !! k0 = Some s →
  shards d !! k0 = Some s
  ∨ ∃ k v, (k, v) ∈ recs ∧ UnmarshalJSON v = Ok s ∧ key s = k0.
Proof.
  revert d. induction recs as [|[k v] recs IH]; intros d Hs; cbn in Hs; [by left|].
  destruct (UnmarshalJSON v) as [s1|e] eqn:Hv.
  - destruct (IH _ Hs) as [Hd|(k' & v' & Hin & Hv' & Hk)].
    + rewrite shards_set_shards in Hd.
      destruct (decide (key s1 = k0)) as [Heq|Hne].
      * rewrite <- Heq, lookup_insert_eq in Hd. inversion Hd; subst.
        right. exists k, v. split; [apply list_elem_of_here | done].
      * rewrite lookup_insert_ne in Hd by done. by left.
    + right. exists k', v'. split; [by apply list_elem_of_further | done].
  - destruct (IH _ Hs) as [Hd|(k' & v' & Hin & Hv' & Hk)]; [by left|].
    right. exists k', v'. split; [by apply list_elem_of_further | done].
Qed.

End RestoreFacts.


(** C7. For every set of persisted records that the query of
    [restoreState] yields: [restoreState] returns nil; a record whose value
    does not deserialize is skipped, the outcome being that of the records
    without it; every record that deserializes is in the catalog under its
    key, unless a later record of the same key replaced it; and nothing
    else is added to the catalog. Whether [NewDAGStore] succeeds does not
    depend on how any stored value deserializes. *)
Theorem restoreState_skips_malformed :
  ∀ (UnmarshalJSON : string → result dagstore.Shard) (d : dagstore.DAGStore),
    dagstore.query_err (dagstore.store d) = None →
    let recs := dagstore.records (dagstore.store d) in
    ∃ d',
      dagstore.restoreState UnmarshalJSON d = (None, d')
      ∧ (∀ pre k v post e,
           recs = pre ++ (k, v) :: post →
           UnmarshalJSON v = Err e →
           d' = dagstore.restoreState_loop UnmarshalJSON (pre ++ post) d)
      ∧ (∀ pre k v post s,
           recs = pre ++ (k, v) :: post →
           UnmarshalJSON v = Ok s →
           (∀ k' v' s', (k', v') ∈ post → UnmarshalJSON v' = Ok s' →
                        dagstore.key s' ≠ dagstore.key s) →
           dagstore.shards d' !! dagstore.key s = Some s)
      ∧ (∀ k s,
           dagstore.shards d' !! k = Some s →
           dagstore.shards d !! k = Some s
           ∨ ∃ k' v, (k', v) ∈ recs ∧ UnmarshalJSON v = Ok s ∧ dagstore.key s = k)
      ∧ (∀ UnmarshalJSON' NewFSRepo MkdirAll cfg wo,
           is_ok (dagstore.NewDAGStore UnmarshalJSON NewFSRepo MkdirAll cfg wo)
           = is_ok (dagstore.NewDAGStore UnmarshalJSON' NewFSRepo MkdirAll cfg wo)).
Proof.
  intros U d Hq recs. unfold dagstore.restoreState. rewrite Hq.
  eexists. split; [reflexivity|]. fold recs. split; [|split; [|split]].
  - intros pre k v post e -> Hv.
    rewrite !restoreState_loop_app. cbn. by rewrite Hv.
  - intros pre k v post s -> Hv Hlast.
    rewrite restoreState_loop_app. cbn. rewrite Hv.
    rewrite restoreState_loop_other by done.
    rewrite shards_set_shards. apply lookup_insert_eq.
  - intros k s. apply restoreState_loop_from.
  - intros U' NewFS Mk cfg wo. unfold dagstore.NewDAGStore.
    destruct (bool_decide (dagstore.TransientsDir cfg = "")); [done|].
    destruct (dagstore.ensureDir _ _ wo) as [[e|] wo1]; [done|].
    destruct (if bool_decide (dagstore.IndexDir cfg = "") then _ else _) as [[repo wo2]|e];
      [|done].
    unfold dagstore.restoreState. cbn [dagstore.store]. clear.
    destruct (dagstore.query_err _); [done|].
    do 2 destruct (dagstore.reset_loop _). done.
Qed.

Lemma restoreState_skips_malformed_witness :
  dagstore.query_err Engine.persisted = None
  ∧ ∃ d', dagstore.restoreState Engine.decode (Engine.restarting) = (None, d')
          ∧ dagstore.shards d' !! "k4" = Some (Engine.blank "k4" dagstore.ShardStateErrored)
          ∧ dagstore.shards d' !! "torn" = None.
Proof.
  split; [reflexivity|].
  destruct (restoreState_skips_malformed Engine.decode Engine.restarting eq_refl)
    as (d' & Hr & _ & Hin & _).
  exists d'. split; [exact Hr|]. split.
  - apply (Hin [("/k1", "S:k1"); ("/k2", "I:k2"); ("/torn", "{"); ("/k3", "I:k3")]
             "/k4" "E:k4" [] (Engine.blank "k4" dagstore.ShardStateErrored));
      [reflexivity | reflexivity |].
    intros k' v' s' H. by apply elem_of_nil in H.
  - inversion Hr. reflexivity.
Defined.

Section ResetFacts.
Import dagstore.

(** The shard that the loop of [NewDAGStore] leaves is neither
    initializing nor serving. *)
Lemma reset_in_progress_state (repo : FullIndexRepo) (s : Shard) :
  state (reset_in_progress repo s).1 ≠ ShardStateInitializing
  ∧ state (reset_in_progress repo s).1 ≠ ShardStateServing.
Proof.
  unfold reset_in_progress.
  repeat case_bool_decide; try destruct (StatFullIndex _ _) as [[|]|];
    cbn in *; split; congruence.
Qed.

Lemma reset_in_progress_cases (repo : FullIndexRepo) (s : Shard) :
  (state s = ShardStateServing →
   reset_in_progress repo s = (set_state ShardStateAvailable s, false))
  ∧ (state s = ShardStateInitializing → StatFullIndex (key s) repo = Ok true →
     reset_in_progress repo s = (set_state ShardStateAvailable s, false))
  ∧ (state s = ShardStateInitializing → StatFullIndex (key s) repo ≠ Ok true →
     reset_in_progress repo s = (set_state ShardStateNew s, true))
  ∧ (state s ≠ ShardStateServing → state s ≠ ShardStateInitializing →
     reset_in_progress repo s = (s, false)).
Proof.
  unfold reset_in_progress.
  split; [|split; [|split]].
  - intros Hs. rewrite (bool_decide_eq_true_2 (state s = ShardStateServing)) by done.
    by rewrite bool_decide_eq_false_2.
  - intros Hs Hstat.
    rewrite (bool_decide_eq_false_2 (state s = ShardStateServing)) by congruence.
    rewrite bool_decide_eq_true_2 by done. by rewrite Hstat.
  - intros Hs Hstat.
    rewrite (bool_decide_eq_false_2 (state s = ShardStateServing)) by congruence.
    rewrite bool_decide_eq_true_2 by done.
    by destruct (StatFullIndex _ _) as [[|]|].
  - intros Hs Hi.
    rewrite (bool_decide_eq_false_2 (state s = ShardStateServing)) by done.
    by rewrite bool_decide_eq_false_2.
Qed.

(** The loop over the catalog resets every shard of the catalog, and
    lists for registration the keys of the shards whose reset asks for it. *)
Lemma reset_loop_spec (d : DAGStore) :
  (∀ k, (reset_loop d).1 !! k = (λ s, (reset_in_progress (indices d) s).1) <$> shards d !! k)
  ∧ (∀ k, k ∈ (reset_loop d).2
          ↔ ∃ s, shards d !! k = Some s ∧ (reset_in_progress (indices d) s).2 = true).
Proof.
  unfold reset_loop.
  set (body := λ (k : Key) (s : Shard) (acc : gmap Key Shard * list Key), _).
  assert (∀ m0 : gmap Key Shard,
            let acc := map_fold body (m0, []) (shards d) in
            (∀ k, acc.1 !! k
                  = match shards d !! k with
                    | Some s => Some (reset_in_progress (indices d) s).1
                    | None => m0 !! k
                    end)
            ∧ (∀ k, k ∈ acc.2
                    ↔ ∃ s, shards d !! k = Some s
                           ∧ (reset_in_progress (indices d) s).2 = true)) as H.
  { intros m0.
    apply (map_fold_weak_ind
             (λ acc m,
                (∀ k, acc.1 !! k
                      = match m !! k with
                        | Some s => Some (reset_in_progress (indices d) s).1
                        | None => m0 !! k
                        end)
                ∧ (∀ k, k ∈ acc.2
                        ↔ ∃ s, m !! k = Some s
                               ∧ (reset_in_progress (indices d) s).2 = true))).
    - split; [done|]. intros k. split; [by intros ?%elem_of_nil|].
      by intros (s & ? & _).
    - intros i x m [catalog register] Hi [Hcat Hreg]. unfold body.
      destruct (reset_in_progress (indices d) x) as [x' again] eqn:Hx.
      cbn [fst snd] in *.
      split.
      + intros k. destruct (decide (i = k)) as [->|Hne].
        * by rewrite !lookup_insert_eq, Hx.
        * rewrite !lookup_insert_ne by done. apply Hcat.
      + intros k. destruct (decide (i = k)) as [->|Hne].
        * rewrite lookup_insert_eq. split.
          -- intros Hin. exists x. split; [done|]. rewrite Hx. cbn.
             destruct again; [done|]. apply Hreg in Hin as (s & Hs & _). congruence.
          -- intros (s & [= <-] & Hs). rewrite Hx in Hs. cbn in Hs. subst.
             apply elem_of_app. right. apply list_elem_of_here.
        * rewrite lookup_insert_ne by done. rewrite <- Hreg.
          destruct again; [|done]. rewrite elem_of_app, list_elem_of_singleton.
          split; [intros [?|?]; [done|congruence] | by left]. }
  destruct (H (shards d)) as [Hcat Hreg]. split; [|done].
  intros k. rewrite Hcat. by destruct (shards d !! k).
Qed.


Lemma queue_registrations_open (register : list Key) (d : DAGStore) :
  ctx_done d = false →
  external (queue_registrations register d) = external d ++ (restart_task <$> register)
  ∧ shards (queue_registrations register d) = shards d
  ∧ indices (queue_registrations register d) = indices d.
Proof.
  revert d. induction register as [|k register IH]; intros d Hopen; cbn.
  - by rewrite app_nil_r.
  - rewrite queueTask_open by done. rewrite Hopen.
    destruct (IH (send externalCh (restart_task k) d)) as (He & Hs & Hi);
      [by destruct d|].
    unfold restart_task in *. rewrite He, Hs, Hi.
    destruct d; cbn. by rewrite <- app_assoc.
Qed.

End ResetFacts.

(** C4. For every engine that [NewDAGStore] returns, and the catalog that
    [restoreState] restored for it from the persisted records: a shard
    restored as Serving is Available; a shard restored as Initializing is
    Available when the index repository reports that its index exists, and
    otherwise it is New and a Register task for it is on the external
    channel; every other shard is as restored, and no other task is queued.
    So no shard of the catalog is Initializing or Serving. *)
Theorem restart_resets_in_progress :
  ∀ (UnmarshalJSON : string → result dagstore.Shard)
    (NewFSRepo : string → os.FS → result dagstore.FullIndexRepo * os.FS)
    (MkdirAll : string → os.FS → option error * os.FS)
    (cfg : dagstore.Config) (wo : mount.World) (dagst : dagstore.DAGStore),
    dagstore.NewDAGStore UnmarshalJSON NewFSRepo MkdirAll cfg wo = Ok dagst →
    ∃ d0 restored,
      dagstore.shards d0 = ∅
      ∧ dagstore.store d0
        = match dagstore.Datastore_of cfg with
          | Some ds => ds
          | None => dagstore.NewMapDatastore
          end
      ∧ dagstore.restoreState UnmarshalJSON d0 = (None, restored)
      ∧ (∀ k, dagstore.shards restored !! k = None → dagstore.shards dagst !! k = None)
      ∧ (∀ k s,
           dagstore.shards restored !! k = Some s →
           let exists_ := dagstore.StatFullIndex (dagstore.key s) (dagstore.indices dagst) in
           ∃ s',
             dagstore.shards dagst !! k = Some s'
             ∧ (dagstore.state s = dagstore.ShardStateServing →
                s' = dagstore.set_state dagstore.ShardStateAvailable s)
             ∧ (dagstore.state s = dagstore.ShardStateInitializing → exists_ = Ok true →
                s' = dagstore.set_state dagstore.ShardStateAvailable s)
             ∧ (dagstore.state s = dagstore.ShardStateInitializing → exists_ ≠ Ok true →
                s' = dagstore.set_state dagstore.ShardStateNew s
                ∧ restart_task k ∈ dagstore.external dagst)
             ∧ (dagstore.state s ≠ dagstore.ShardStateServing →
                dagstore.state s ≠ dagstore.ShardStateInitializing →
                s' = s))
      ∧ (∀ tsk,
           tsk ∈ dagstore.external dagst →
           ∃ k s, tsk = restart_task k
                  ∧ dagstore.shards restored !! k = Some s
                  ∧ dagstore.state s = dagstore.ShardStateInitializing
                  ∧ dagstore.StatFullIndex (dagstore.key s) (dagstore.indices dagst) ≠ Ok true)
      ∧ (∀ k s',
           dagstore.shards dagst !! k = Some s' →
           dagstore.state s' ≠ dagstore.ShardStateInitializing
           ∧ dagstore.state s' ≠ dagstore.ShardStateServing).
Proof.
  intros U NewFS Mk cfg wo dagst Hnew. unfold dagstore.NewDAGStore in Hnew.
  destruct (bool_decide (dagstore.TransientsDir cfg = "")); [done|].
  destruct (dagstore.ensureDir _ _ wo) as [[e|] wo1]; [done|].
  destruct (if bool_decide (dagstore.IndexDir cfg = "") then _ else _) as [[repo wo2]|e];
    [|done].
  match type of Hnew with
  | context [dagstore.restoreState U ?d] => set (d0 := d) in *
  end.
  destruct (dagstore.restoreState U d0) as [[e|] d1] eqn:Hrestore; [done|].
  assert (Hframe : d1 = dagstore.set_shards (dagstore.shards d1) d0).
  { unfold dagstore.restoreState in Hrestore.
    destruct (dagstore.query_err _); [done|]. inversion Hrestore.
    apply restoreState_loop_frame. }
  pose proof (reset_loop_spec d1) as [Hcat Hreg].
  destruct (dagstore.reset_loop d1) as [catalog register]. cbn [fst snd] in Hcat, Hreg.
  set (d2 := match dagstore.FailureCh cfg with
             | Some _ => _
             | None => _
             end) in Hnew.
  assert (dagstore.ctx_done d2 = false ∧ dagstore.shards d2 = catalog
          ∧ dagstore.indices d2 = repo ∧ dagstore.external d2 = []) as (Hopen & Hs2 & Hi2 & He2).
  { unfold d2. rewrite Hframe. unfold d0. by destruct (dagstore.FailureCh cfg). }
  destruct (queue_registrations_open register d2 Hopen) as (Hext & Hsh & Hind).
  inversion Hnew as [Hd]. clear Hnew. rewrite Hext, Hsh, Hind. rewrite Hs2, Hi2, He2. cbn [app].
  assert (Hrepo : dagstore.indices d1 = repo) by (rewrite Hframe; done).
  rewrite Hrepo in Hcat, Hreg.
  exists d0, d1. split; [done|]. split; [done|]. split; [done|].
  split; [|split; [|split]].
  - intros k Hk. by rewrite Hcat, Hk.
  - intros k s Hk. cbv zeta. rewrite Hcat, Hk. cbn. eexists. split; [reflexivity|].
    destruct (reset_in_progress_cases repo s) as (Hserving & Hindexed & Hagain & Hother).
    split; [|split; [|split]].
    + intros H. by rewrite Hserving.
    + intros H1 H2. by rewrite Hindexed.
    + intros H1 H2. rewrite Hagain by done. split; [done|].
      apply list_elem_of_fmap_2. apply Hreg. exists s. by rewrite Hagain.
    + intros H1 H2. by rewrite Hother.
  - intros tsk (k & -> & Hin)%list_elem_of_fmap_1.
    apply Hreg in Hin as (s & Hk & Hagain).
    exists k, s. split; [done|]. split; [done|].
    destruct (reset_in_progress_cases repo s) as (Hserving & Hindexed & _ & Hother).
    destruct (decide (dagstore.state s = dagstore.ShardStateInitializing)) as [Hinit|Hinit].
    + split; [done|]. intros Hstat. rewrite Hindexed in Hagain by done. done.
    + destruct (decide (dagstore.state s = dagstore.ShardStateServing)) as [Hsv|Hsv].
      * rewrite Hserving in Hagain by done. done.
      * rewrite Hother in Hagain by done. done.
  - intros k s'. rewrite Hcat. destruct (dagstore.shards d1 !! k) as [s|]; [|done].
    cbn. intros [= <-]. apply reset_in_progress_state.
Qed.

Lemma restart_resets_in_progress_witness :
  ∃ dagst,
    dagstore.NewDAGStore Engine.decode Engine.fsrepo Engine.mkdirall Engine.cfg Scenario.disk
    = Ok dagst
    ∧ ∀ k s', dagstore.shards dagst !! k = Some s' →
              dagstore.state s' ≠ dagstore.ShardStateInitializing
              ∧ dagstore.state s' ≠ dagstore.ShardStateServing.
Proof.
  assert (∃ dagst,
            dagstore.NewDAGStore Engine.decode Engine.fsrepo Engine.mkdirall Engine.cfg
              Scenario.disk = Ok dagst)
    as [dagst Hnew].
  { eexists. vm_compute. reflexivity. }
  exists dagst. split; [exact Hnew|].
  destruct (restart_resets_in_progress _ _ _ _ _ _ Hnew) as (d0 & restored & Hrest).
  exact (proj2 (proj2 (proj2 (proj2 (proj2 (proj2 Hrest)))))).
Defined.

(** * Further properties of the mount upgrader *)
Section FetchFacts.
Import mount.

Lemma CreateTemp_loop_facts (try : nat) (dir pre suf : string) (f : os.FS) :
  let '(r, f') := os.CreateTemp_loop try dir pre suf f in
  os.dirs f' = os.dirs f
  ∧ os.dir_size f' = os.dir_size f
  ∧ match r with
    | Ok name => os.files f !! name = None ∧ os.files f' = <[name := ""]> (os.files f)
    | Err _ => os.files f' = os.files f
    end.
Proof.
  revert f. induction try as [|try IH]; intros f; cbn.
  - destruct (os.Stat _ f) eqn:Hf; [done|]. apply Stat_Err in Hf as [Hf _].
    destruct (os.is_dir dir f); [done|]. by destruct (os.files f !! dir).
  - destruct (os.Stat _ f) eqn:Hf.
    + specialize (IH (os.next_rand f)). by destruct (os.CreateTemp_loop _ _ _ _ _).
    + apply Stat_Err in Hf as [Hf _].
      destruct (os.is_dir dir f); [done|]. by destruct (os.files f !! dir).
Qed.

Lemma CreateTemp_facts (dir pattern : string) (f : os.FS) :
  let '(r, f') := os.CreateTemp dir pattern f in
  os.dirs f' = os.dirs f
  ∧ os.dir_size f' = os.dir_size f
  ∧ match r with
    | Ok name => name ≠ "" ∧ os.files f !! name = None
                 ∧ os.files f' = <[name := ""]> (os.files f)
    | Err _ => os.files f' = os.files f
    end.
Proof.
  destruct (os.CreateTemp dir pattern f) as [r f'] eqn:Htemp.
  assert (∀ name, r = Ok name → name ≠ "") as Hname.
  { intros name ->. by eapply CreateTemp_name. }
  unfold os.CreateTemp in Htemp.
  destruct (os.prefixAndSuffix pattern) as [[pre suf]|e]; [|by injection Htemp as <- <-].
  pose proof (CreateTemp_loop_facts (100 * 100 - 1)
                (if bool_decide (dir = "") then os.TempDir else dir) pre suf f) as Hloop.
  rewrite Htemp in Hloop. destruct r as [name|e]; [|done].
  destruct Hloop as (? & ? & ? & ?). split; [done|]. split; [done|].
  split; [by apply Hname|done].
Qed.

(** What the middle part of [refetch] leaves on disk: at most one new
    file, the temporary one, and on success it holds the bytes of the
    underlying mount. *)
Lemma refetch_copy_disk (u : Upgrader) (w : World) :
  let '(r, w') := refetch_copy u w in
  os.dirs (fs w') = os.dirs (fs w)
  ∧ os.dir_size (fs w') = os.dir_size (fs w)
  ∧ match r with
    | Ok file =>
        ∃ from, Mount_Fetch (underlying u) = Ok from ∧ read_err from = None
                ∧ file ≠ "" ∧ os.files (fs w) !! file = None
                ∧ os.files (fs w') = <[file := data from]> (os.files (fs w))
    | Err _ =>
        os.files (fs w') = os.files (fs w)
        ∨ ∃ file bytes, file ≠ "" ∧ os.files (fs w) !! file = None
                        ∧ os.files (fs w') = <[file := bytes]> (os.files (fs w))
    end.
Proof.
  unfold refetch_copy.
  pose proof (CreateTemp_facts (rootdir u) ("transient-" +:+ key u +:+ "-*") (fs w)) as Htemp.
  destruct (os.CreateTemp _ _ _) as [[file|e] f];
    [|by destruct Htemp as (? & ? & ?); split; [|split; [|left]]].
  destruct Htemp as (Hdirs & Hsize & Hne & Hfresh & Hfiles).
  assert (∃ bytes, file ≠ "" ∧ os.files (fs w) !! file = None
                   ∧ os.files f = <[file := bytes]> (os.files (fs w))) as Hleft
    by (by exists "").
  destruct (Mount_Stat (underlying u)) as [st|e]; [|by split; [|split; [|right; eexists]]].
  destruct (Exists st); cbn [negb]; [|by split; [|split; [|right; eexists]]].
  destruct (Mount_Fetch (underlying u)) as [from|e];
    [|by split; [|split; [|right; eexists]]].
  unfold io_Copy, emit, set_fs.
  cbn [fs os.files os.dirs os.dir_size os.set_files onces log].
  destruct (read_err from) eqn:Hread.
  - split; [done|]. split; [done|]. right. exists file, (data from).
    split; [done|]. split; [done|]. rewrite Hfiles. by rewrite insert_insert_eq.
  - split; [done|]. split; [done|]. exists from. repeat (split; [done|]).
    rewrite Hfiles. by rewrite insert_insert_eq.
Qed.

Lemma refetch_remove_disk (u : Upgrader) (w : World) :
  ¬ alive u w → fs (refetch_remove u w) = fs w.
Proof.
  intros Ha. unfold refetch_remove.
  destruct (decide (transient u = "")) as [Ht|Ht].
  - by rewrite bool_decide_eq_true_2.
  - rewrite bool_decide_eq_false_2 by done. cbn [negb].
    destruct (os.Stat (transient u) (fs w)) as [stat|e] eqn:Hstat.
    + destruct Ha. split; [done | by exists stat].
    + change (fs (emit EvRefetch w)) with (fs w).
      by rewrite (Remove_missing _ _ _ Hstat).
Qed.

(** The middle part of [refetch] leaves the latches and the count of
    refetches alone. *)
Lemma refetch_copy_quiet (u : Upgrader) (w : World) :
  onces (refetch_copy u w).2 = onces w
  ∧ refetches (log (refetch_copy u w).2) = refetches (log w).
Proof.
  pose proof (refetch_copy_facts u w) as H.
  destruct (refetch_copy u w) as [r w']. cbn. by destruct H as (? & ? & _).
Qed.

(** What [Fetch] does when it finds no live transient and a fresh latch:
    it is [refetch] that decides. *)
Lemma Fetch_on_fresh (u : Upgrader) (w : World) :
  passthrough u = false →
  ¬ alive u w →
  onces w !! once u = Some OnceFresh →
  let w0 := refetch_remove u (set_once (once u) OnceRunning w) in
  Fetch u w
  = match refetch_copy u w0 with
    | (Err e, w1) =>
        (Err (wrapError "mount fetch failed" e), u, set_once (once u) OnceDone w1)
    | (Ok file, w1) =>
        let '(u', w2) := refetch_commit file u w1 in
        let '(r, w3) := os_Open file (set_once (once u) OnceDone w2) in
        (r, u', w3)
    end.
Proof.
  intros Hp Ha Ho w0. unfold Fetch. rewrite Hp.
  destruct (Fetch_check_cases u w) as [[? _]|[_ ->]]; [done|].
  unfold once_Do. rewrite Ho. unfold refetch. fold w0.
  destruct (refetch_copy u w0) as [[file|e] w1]; [|done].
  unfold refetch_commit, new_Once, Fetch_finish. by cbn.
Qed.

End FetchFacts.

Section FetchOutcome.
Import mount.

Lemma os_Open_Ok (path : string) (w : World) (r : Reader) :
  (os_Open path w).1 = Ok r → ∃ stat, os.Stat path (fs w) = Ok stat.
Proof.
  unfold os_Open, os.Stat. cbn [fst].
  destruct (os.files (fs w) !! path); [by eexists|].
  destruct (os.is_dir path (fs w)); [by eexists | done].
Qed.

Lemma Fetch_alive (u : Upgrader) (w : World) :
  passthrough u = false →
  alive u w →
  Fetch u w = ((os_Open (transient u) w).1, u, emit (EvOpen (transient u)) w)
  ∧ ∃ r, (os_Open (transient u) w).1 = Ok r.
Proof.
  intros Hp [Hne [stat Hstat]]. split.
  - unfold Fetch, Fetch_check. rewrite Hp.
    rewrite bool_decide_eq_false_2 by done. cbn [negb]. by rewrite Hstat.
  - unfold os_Open. cbn [fst].
    apply Stat_Ok in Hstat as [(bytes & -> & _)|(-> & -> & _)]; by eexists.
Qed.

Lemma Fetch_alive_file (u : Upgrader) (w : World) (bytes : string) :
  passthrough u = false →
  transient u ≠ "" →
  os.files (fs w) !! transient u = Some bytes →
  Fetch u w = (Ok {| data := bytes; read_err := None; close_err := None |}, u,
               emit (EvOpen (transient u)) w).
Proof.
  intros Hp Hne Hf.
  destruct (Fetch_alive u w Hp) as [-> _]; [by apply alive_file|].
  unfold os_Open. cbn [fst]. by rewrite Hf.
Qed.

(** A call of [Fetch] on an upgrader that is not passthrough returns a
    reader in two ways only: it opened the live transient, or it ran a
    refetch that succeeded. *)
Lemma Fetch_ok_inv (u u' : Upgrader) (w w' : World) (r : Reader) :
  passthrough u = false →
  os.files (fs w) !! "" = None →
  Fetch u w = (Ok r, u', w') →
  passthrough u' = false
  ∧ alive u' w'
  ∧ (os_Open (transient u') w').1 = Ok r
  ∧ os.files (fs w') !! "" = None
  ∧ (alive u w ∧ u' = u ∧ w' = emit (EvOpen (transient u)) w
     ∨ ¬ alive u w ∧ onces w !! once u = Some OnceFresh
       ∧ r = {| data := data r; read_err := None; close_err := None |}
       ∧ os.files (fs w') !! transient u' = Some (data r)
       ∧ (∃ from, Mount_Fetch (underlying u) = Ok from ∧ data r = data from)
       ∧ once u < length (onces w) ∧ once u' = length (onces w)
       ∧ onces w' = <[once u := OnceDone]> (onces w) ++ [OnceFresh]
       ∧ refetches (log w') = S (refetches (log w))
       ∧ os.dirs (fs w') = os.dirs (fs w)
       ∧ os.dir_size (fs w') = os.dir_size (fs w)
       ∧ ∀ p, p ≠ transient u' → os.files (fs w') !! p = os.files (fs w) !! p).
Proof.
  intros Hp Hempty Hfetch.
  destruct (Fetch_check_cases u w) as [[Ha _]|[Ha Hc]].
  - destruct (Fetch_alive u w Hp Ha) as [Heq [r0 Hr0]].
    rewrite Heq, Hr0 in Hfetch. injection Hfetch as <- <- <-.
    split; [done|]. split; [done|]. split; [done|]. split; [done|]. by left.
  - destruct (onces w !! once u) as [[| |]|] eqn:Ho.
    2-4: exfalso; unfold Fetch in Hfetch; rewrite Hp, Hc in Hfetch;
         unfold once_Do in Hfetch; rewrite Ho in Hfetch; cbn [Fetch_finish] in Hfetch;
         destruct (os_Open (transient u) w) as [r1 w1] eqn:Hopen;
         injection Hfetch as -> <- <-;
         pose proof (os_Open_Ok (transient u) w r) as Hstat; rewrite Hopen in Hstat;
         destruct (Hstat eq_refl) as [stat Hs];
         apply Ha; split; [|by exists stat];
         intros Ht; rewrite Ht in Hs; by rewrite Stat_empty in Hs.
    rewrite Fetch_on_fresh in Hfetch by done. cbv zeta in Hfetch.
    set (w0 := refetch_remove u (set_once (once u) OnceRunning w)) in *.
    pose proof (refetch_copy_disk u w0) as Hdisk.
    pose proof (refetch_copy_quiet u w0) as [Honces Hcount].
    destruct (refetch_remove_facts u (set_once (once u) OnceRunning w)) as [Ho0 Hn0].
    pose proof (refetch_remove_disk u (set_once (once u) OnceRunning w) Ha) as Hf0.
    fold w0 in Ho0, Hn0, Hf0. cbn [fs set_once onces log] in Ho0, Hn0, Hf0.
    destruct (refetch_copy u w0) as [[file|e] w1]; [|done].
    cbn [snd] in Honces, Hcount.
    destruct Hdisk as (Hdirs & Hsize & from & Hfrom & Hread & Hfile & Hfresh & Hfiles).
    rewrite Hf0 in Hdirs, Hsize, Hfresh, Hfiles.
    unfold refetch_commit, new_Once, os_Open in Hfetch.
    cbn [fs set_once onces log emit] in Hfetch.
    rewrite Hfiles, lookup_insert_eq in Hfetch.
    injection Hfetch as <- <- <-.
    unfold emit, set_once.
    cbn [data passthrough transient once set_once_ptr set_transient fs onces log].
    assert (once u < length (onces w)) as Hlt by (by eapply lookup_lt_Some).
    split; [done|].
    split; [apply alive_file; [done|]; cbn; rewrite Hfiles, lookup_insert_eq; by eexists|].
    split; [unfold os_Open; cbn; by rewrite Hfiles, lookup_insert_eq|].
    split; [by rewrite Hfiles, lookup_insert_ne|].
    right. split; [done|]. split; [done|]. split; [done|].
    split; [by rewrite Hfiles, lookup_insert_eq|].
    split; [by exists from|].
    split; [done|].
    rewrite Honces, Ho0, length_insert.
    split; [done|].
    split.
    { rewrite insert_app_l by (by rewrite length_insert).
      by rewrite list_insert_insert_eq. }
    split.
    { rewrite refetches_snoc, Hcount, Hn0.
      destruct (decide (EvOpen file = EvRefetch)); [done|lia]. }
    split; [done|]. split; [done|].
    intros p Hp1. by rewrite Hfiles, lookup_insert_ne.
Qed.

End FetchOutcome.

(** A call of [Fetch] that returned a reader on an upgrader that is not
    passthrough has left a transient that is tracked and on disk, and
    [Stat] then answers from the transient, without asking the underlying
    mount: it exists, with the size that [os.Stat] reports. When the
    transient is a regular file, it holds exactly the bytes of the reader
    and the size is their number; when it is a directory (one that was given
    to [Upgrade] as the initial transient), the reads of the reader fail. *)
Theorem Fetch_then_Stat :
  ∀ (u u' : mount.Upgrader) (w w' : mount.World) (r : mount.Reader),
    mount.passthrough u = false →
    os.files (mount.fs w) !! "" = None →
    mount.Fetch u w = (Ok r, u', w') →
    mount.TransientPath u' ≠ ""
    ∧ ∃ stat,
        os.Stat (mount.TransientPath u') (mount.fs w') = Ok stat
        ∧ mount.Stat_of u' w'
          = (Ok {| mount.Exists := true; mount.Size := os.Size stat |}, w')
        ∧ (os.IsDir stat = false →
           os.files (mount.fs w') !! mount.TransientPath u' = Some (mount.data r)
           ∧ os.Size stat = String.length (mount.data r)
           ∧ mount.read_err r = None)
        ∧ (os.IsDir stat = true → mount.read_err r ≠ None).
Proof.
  intros u u' w w' r Hp Hempty Hfetch.
  destruct (Fetch_ok_inv u u' w w' r Hp Hempty Hfetch)
    as (_ & [Hne [stat Hstat]] & Hopen & _).
  unfold mount.TransientPath. split; [done|]. exists stat. split; [done|].
  split.
  { unfold mount.Stat_of. rewrite bool_decide_eq_false_2 by done. cbn [negb].
    by rewrite Hstat. }
  unfold mount.os_Open in Hopen. cbn [fst] in Hopen.
  apply Stat_Ok in Hstat as [(bytes & Hf & ->)|(Hf & Hd & ->)];
    rewrite Hf in Hopen; [|rewrite Hd in Hopen]; injection Hopen as <-; cbn.
  - split; [done|]. by intros ?.
  - split; [by intros ?|]. by intros _.
Qed.

Lemma Fetch_then_Stat_witness :
  ∃ r u' w' stat,
    mount.Fetch Samples.fresh_upgrader Samples.fresh_world = (Ok r, u', w')
    ∧ mount.Stat_of u' w' = (Ok {| mount.Exists := true; mount.Size := os.Size stat |}, w').
Proof.
  assert (∃ u' w', mount.Fetch Samples.fresh_upgrader Samples.fresh_world
                   = (Ok Scenario.car, u', w')) as (u' & w' & Hfetch).
  { eexists _, _. vm_compute. reflexivity. }
  destruct (Fetch_then_Stat Samples.fresh_upgrader u' Samples.fresh_world w'
              Scenario.car eq_refl eq_refl Hfetch) as (_ & stat & _ & Hstat & _).
  exists Scenario.car, u', w', stat. split; [exact Hfetch | exact Hstat].
Defined.

(** After a call of [Fetch] that returned a reader, the next call returns
    the same reader from the transient: the upgrader is as it was, nothing
    on disk changes, and neither the underlying mount nor [refetch] is
    reached. *)
Theorem Fetch_then_Fetch :
  ∀ (u u' : mount.Upgrader) (w w' : mount.World) (r : mount.Reader),
    mount.passthrough u = false →
    os.files (mount.fs w) !! "" = None →
    mount.Fetch u w = (Ok r, u', w') →
    mount.Fetch u' w' = (Ok r, u', mount.emit (mount.EvOpen (mount.transient u')) w').
Proof.
  intros u u' w w' r Hp Hempty Hfetch.
  destruct (Fetch_ok_inv u u' w w' r Hp Hempty Hfetch) as (Hp' & Ha & Hopen & _).
  destruct (Fetch_alive u' w' Hp' Ha) as [-> _]. by rewrite Hopen.
Qed.

Lemma Fetch_then_Fetch_witness :
  ∃ r u' w',
    mount.Fetch Samples.fresh_upgrader Samples.fresh_world = (Ok r, u', w')
    ∧ mount.Fetch u' w' = (Ok r, u', mount.emit (mount.EvOpen (mount.transient u')) w').
Proof.
  assert (∃ u' w', mount.Fetch Samples.fresh_upgrader Samples.fresh_world
                   = (Ok Scenario.car, u', w')) as (u' & w' & Hfetch).
  { eexists _, _. vm_compute. reflexivity. }
  exists Scenario.car, u', w'. split; [exact Hfetch|].
  exact (Fetch_then_Fetch Samples.fresh_upgrader u' Samples.fresh_world w' Scenario.car
           eq_refl eq_refl Hfetch).
Defined.

(** A call of [Fetch] that finds no live transient and returns a reader
    has run exactly one refetch: the reader yields the bytes that the
    underlying mount fetched, the latch that was used is done and the
    upgrader points to a new, fresh one, and on disk nothing but the stale
    and the new transient has changed. *)
Theorem Fetch_refetch_round_trip :
  ∀ (u u' : mount.Upgrader) (w w' : mount.World) (r : mount.Reader),
    mount.passthrough u = false →
    os.files (mount.fs w) !! "" = None →
    ¬ alive u w →
    mount.Fetch u w = (Ok r, u', w') →
    (∃ from, mount.Mount_Fetch (mount.underlying u) = Ok from
             ∧ mount.data r = mount.data from)
    ∧ mount.refetches (mount.log w') = S (mount.refetches (mount.log w))
    ∧ mount.onces w' !! mount.once u = Some mount.OnceDone
    ∧ mount.onces w' !! mount.once u' = Some mount.OnceFresh
    ∧ os.dirs (mount.fs w') = os.dirs (mount.fs w)
    ∧ ∀ p, p ≠ mount.transient u → p ≠ mount.transient u' →
           os.files (mount.fs w') !! p = os.files (mount.fs w) !! p.
Proof.
  intros u u' w w' r Hp Hempty Ha Hfetch.
  destruct (Fetch_ok_inv u u' w w' r Hp Hempty Hfetch)
    as (_ & _ & _ & _
        & [[? _]|(_ & _ & _ & _ & Hfrom & Hlt & Ho' & Honces & Hn & Hd & _ & Hf)]);
    [done|].
  split; [done|]. split; [done|]. rewrite Honces, Ho'.
  split.
  { rewrite lookup_app_l by (by rewrite length_insert).
    by apply list_lookup_insert_eq. }
  split.
  { rewrite lookup_app_r by (by rewrite length_insert).
    by rewrite length_insert, Nat.sub_diag. }
  split; [done|]. intros p _ Hp2. by apply Hf.
Qed.

Lemma Fetch_refetch_round_trip_witness :
  ∃ r u' w',
    mount.Fetch Samples.fresh_upgrader Samples.fresh_world = (Ok r, u', w')
    ∧ mount.refetches (mount.log w') = 1.
Proof.
  assert (∃ u' w', mount.Fetch Samples.fresh_upgrader Samples.fresh_world
                   = (Ok Scenario.car, u', w')) as (u' & w' & Hfetch).
  { eexists _, _. vm_compute. reflexivity. }
  exists Scenario.car, u', w'. split; [exact Hfetch|].
  refine (proj1 (proj2 (Fetch_refetch_round_trip Samples.fresh_upgrader u'
                          Samples.fresh_world w' Scenario.car eq_refl eq_refl _ Hfetch))).
  intros [Hne _]. by apply Hne.
Defined.

(** A call of [Fetch] that fails on an upgrader without transient and
    with a fresh latch has spent the latch: the upgrader is as it was and
    still points to that latch, which is done. From then on, whatever the
    underlying mount answers, however many goroutines call [Fetch] and
    however they are scheduled, no refetch is entered and no call returns a
    reader. *)
Theorem failed_Fetch_spends_latch :
  ∀ (u u' : mount.Upgrader) (w w' : mount.World) (e : error),
    mount.passthrough u = false →
    mount.transient u = "" →
    mount.onces w !! mount.once u = Some mount.OnceFresh →
    os.files (mount.fs w) !! "" = None →
    mount.Fetch u w = (Err e, u', w') →
    u' = u
    ∧ mount.onces w' !! mount.once u = Some mount.OnceDone
    ∧ ∀ (m : mount.Mount) (n : nat) (schedule : list nat),
        let s := mount.run schedule
                   {| mount.upgrader := Scenario.with_underlying m u;
                      mount.surroundings := w';
                      mount.goroutines := replicate n mount.AtEntry |} in
        mount.refetches (mount.log (mount.surroundings s)) = mount.refetches (mount.log w')
        ∧ ∀ p, p ∈ mount.goroutines s → ∀ r, p ≠ mount.Returned (Ok r).
Proof.
  intros u u' w w' e Hp Ht Ho Hempty Hfetch.
  assert (¬ alive u w) as Ha by (by intros [? _]).
  rewrite Fetch_on_fresh in Hfetch by done. cbv zeta in Hfetch.
  set (w0 := mount.refetch_remove u (mount.set_once (mount.once u) mount.OnceRunning w)) in *.
  pose proof (refetch_copy_disk u w0) as Hdisk.
  pose proof (refetch_copy_quiet u w0) as [Honces _].
  destruct (refetch_remove_facts u (mount.set_once (mount.once u) mount.OnceRunning w))
    as [Ho0 _].
  pose proof (refetch_remove_disk u (mount.set_once (mount.once u) mount.OnceRunning w) Ha)
    as Hf0.
  fold w0 in Ho0, Hf0. cbn [mount.fs mount.set_once mount.onces] in Ho0, Hf0.
  destruct (mount.refetch_copy u w0) as [[file|e1] w1]; cbn [snd] in Honces.
  { exfalso. destruct Hdisk as (_ & _ & from & _ & _ & _ & _ & Hfiles).
    unfold mount.refetch_commit, mount.new_Once, mount.os_Open in Hfetch.
    cbn [mount.fs mount.set_once mount.onces mount.log] in Hfetch.
    rewrite Hfiles, lookup_insert_eq in Hfetch. done. }
  injection Hfetch as <- <- <-.
  assert (mount.once u < length (mount.onces w)) as Hlt by (by eapply lookup_lt_Some).
  assert (mount.onces (mount.set_once (mount.once u) mount.OnceDone w1) !! mount.once u
          = Some mount.OnceDone) as Hdone.
  { cbn [mount.set_once mount.onces]. rewrite Honces, Ho0.
    apply list_lookup_insert_eq. by rewrite length_insert. }
  split; [done|]. split; [done|].
  intros m n schedule s.
  assert (spent (Scenario.with_underlying m u)
            (mount.set_once (mount.once u) mount.OnceDone w1)) as Hspent.
  { split; [done|]. split; [done|]. split; [done|].
    cbn [mount.set_once mount.fs].
    destruct Hdisk as (_ & _ & [->|(file & bytes & Hne & _ & ->)]).
    - by rewrite Hf0.
    - rewrite lookup_insert_ne by done. by rewrite Hf0. }
  destruct (run_spent schedule
              {| mount.upgrader := Scenario.with_underlying m u;
                 mount.surroundings := mount.set_once (mount.once u) mount.OnceDone w1;
                 mount.goroutines := replicate n mount.AtEntry |} Hspent)
    as [Hn Hall].
  { apply Forall_replicate. exact I. }
  split; [exact Hn|].
  intros p Hin r ->. rewrite Forall_forall in Hall. by apply Hall in Hin.
Qed.

Lemma failed_Fetch_spends_latch_witness :
  let u := Scenario.with_underlying Scenario.unreachable Samples.fresh_upgrader in
  ∃ e w',
    mount.Fetch u Samples.fresh_world = (Err e, u, w')
    ∧ mount.onces w' !! 0 = Some mount.OnceDone.
Proof.
  intros u.
  assert (∃ e u' w', mount.Fetch u Samples.fresh_world = (Err e, u', w'))
    as (e & u' & w' & Hfetch).
  { eexists _, _, _. vm_compute. reflexivity. }
  destruct (failed_Fetch_spends_latch u u' Samples.fresh_world w' e
              eq_refl eq_refl eq_refl eq_refl Hfetch) as (Hu & Hdone & _).
  exists e, w'. split; [rewrite Hu in Hfetch; exact Hfetch | exact Hdone].
Defined.

(** [DeleteTransient] is idempotent and local: a second call returns nil
    and changes nothing, and the first one leaves every file and every
    directory other than the tracked transient, the latches, the underlying
    mount and the latch of the upgrader as they were; it either clears the
    tracked path or changes nothing at all. *)
Theorem DeleteTransient_idempotent :
  ∀ (u : mount.Upgrader) (w : mount.World),
    let '(_, u', w') := mount.DeleteTransient u w in
    mount.DeleteTransient u' w' = (None, u', w')
    ∧ (∀ p, p ≠ mount.transient u →
            os.files (mount.fs w') !! p = os.files (mount.fs w) !! p)
    ∧ (∀ p, p ≠ mount.transient u →
            p ∈ os.dirs (mount.fs w') ↔ p ∈ os.dirs (mount.fs w))
    ∧ mount.onces w' = mount.onces w
    ∧ mount.underlying u' = mount.underlying u
    ∧ mount.once u' = mount.once u
    ∧ (mount.transient u' = "" ∨ u' = u ∧ w' = w).
Proof.
  intros u w. unfold mount.DeleteTransient at 1.
  destruct (bool_decide (mount.transient u = "")) eqn:Ht.
  { unfold mount.DeleteTransient. rewrite Ht. repeat split; try done.
    left. by apply bool_decide_eq_true in Ht. }
  destruct (filepath.Rel_err _ _) eqn:Hrel.
  { unfold mount.DeleteTransient. rewrite Ht, Hrel. repeat split; try done. by right. }
  pose proof (Remove_facts (mount.transient u) (mount.fs w)) as (_ & Hfiles & Hdirs & _).
  destruct (os.Remove (mount.transient u) (mount.fs w)) as [err f]. cbn [snd] in Hfiles, Hdirs.
  split; [reflexivity|]. split; [exact Hfiles|]. split; [exact Hdirs|].
  split; [done|]. split; [done|]. split; [done|]. by left.
Qed.

(** On a mount that is seekable and random-access, [Upgrade] gives an
    upgrader that passes through, whether or not [initial] names a file:
    it tracks no transient, [Fetch] returns what the mount's own [Fetch]
    returns and touches neither the disk nor the latch, and
    [DeleteTransient] does nothing. *)
Theorem Upgrade_passthrough :
  ∀ (m : mount.Mount) (rootdir key initial : string) (w : mount.World),
    mount.AccessSequential (mount.Mount_Info m) = true →
    mount.AccessSeek (mount.Mount_Info m) = true →
    mount.AccessRandom (mount.Mount_Info m) = true →
    ∃ u w1,
      mount.Upgrade m rootdir key initial w = (Ok u, w1)
      ∧ mount.fs w1 = mount.fs w
      ∧ mount.log w1 = mount.log w
      ∧ mount.TransientPath u = ""
      ∧ mount.Fetch u w1 = (mount.Mount_Fetch m, u, mount.emit mount.EvUnderlyingFetch w1)
      ∧ mount.DeleteTransient u w1 = (None, u, w1).
Proof.
  intros m rootdir key initial w Hseq Hseek Hrand.
  unfold mount.Upgrade. cbn [mount.new_Once]. rewrite Hseq, Hseek, Hrand. cbn [negb andb].
  eexists _, _. split; [reflexivity|]. by repeat split.
Qed.

Lemma Upgrade_passthrough_witness :
  ∃ u w1,
    mount.Upgrade Scenario.full_featured "/data/transients" "k" "/home/user/shard.car"
      Scenario.disk = (Ok u, w1)
    ∧ mount.TransientPath u = "".
Proof.
  destruct (Upgrade_passthrough Scenario.full_featured "/data/transients" "k"
              "/home/user/shard.car" Scenario.disk eq_refl eq_refl eq_refl)
    as (u & w1 & Hup & _ & _ & Ht & _).
  exists u, w1. split; [exact Hup | exact Ht].
Defined.

(** On a mount with sequential access that is not passed through,
    [Upgrade] with an [initial] file that is on disk reuses it: the
    upgrader tracks that path, and its first [Fetch] returns the bytes of
    the file without reaching the underlying mount or [refetch]. *)
Theorem Upgrade_reuses_initial :
  ∀ (m : mount.Mount) (rootdir key initial bytes : string) (w : mount.World),
    mount.AccessSequential (mount.Mount_Info m) = true →
    mount.AccessSeek (mount.Mount_Info m) && mount.AccessRandom (mount.Mount_Info m) = false →
    initial ≠ "" →
    os.files (mount.fs w) !! initial = Some bytes →
    ∃ u w1,
      mount.Upgrade m rootdir key initial w = (Ok u, w1)
      ∧ mount.fs w1 = mount.fs w
      ∧ mount.log w1 = mount.log w
      ∧ mount.TransientPath u = initial
      ∧ mount.Fetch u w1
        = (Ok {| mount.data := bytes; mount.read_err := None; mount.close_err := None |},
           u, mount.emit (mount.EvOpen initial) w1).
Proof.
  intros m rootdir key initial bytes w Hseq Hpass Hne Hf.
  unfold mount.Upgrade, os.Stat. cbn [mount.new_Once mount.fs].
  rewrite Hseq, Hpass, Hf. cbn [negb]. rewrite bool_decide_eq_false_2 by done. cbn [negb].
  eexists _, _. split; [reflexivity|]. split; [done|]. split; [done|]. split; [done|].
  by apply Fetch_alive_file.
Qed.

Lemma Upgrade_reuses_initial_witness :
  ∃ u w1,
    mount.Upgrade Scenario.healthy "/data/transients" "k" "/home/user/shard.car"
      Scenario.disk = (Ok u, w1)
    ∧ mount.TransientPath u = "/home/user/shard.car".
Proof.
  destruct (Upgrade_reuses_initial Scenario.healthy "/data/transients" "k"
              "/home/user/shard.car" "CARv1" Scenario.disk eq_refl eq_refl)
    as (u & w1 & Hup & _ & _ & Ht & _).
  - discriminate.
  - reflexivity.
  - exists u, w1. split; [exact Hup | exact Ht].
Defined.

(** ** The transients that [refetch] creates are under the root directory *)
Section ManagedTransient.
Import filepath.

Lemma append_cons (x : Ascii.ascii) (a b : string) :
  String x a +:+ b = String x (a +:+ b).
Proof. reflexivity. Qed.

Lemma append_nil_l (b : string) : "" +:+ b = b.
Proof. reflexivity. Qed.

Lemma append_assoc (a b c : string) : (a +:+ b) +:+ c = a +:+ (b +:+ c).
Proof.
  induction a as [|x a IH]; [done|]. rewrite !append_cons. by f_equal.
Qed.

Lemma append_nil_r (a : string) : a +:+ "" = a.
Proof. induction a as [|x a IH]; [done|]. rewrite append_cons. by f_equal. Qed.

Lemma has_separator_app (a b : string) :
  os.has_separator (a +:+ b) = os.has_separator a || os.has_separator b.
Proof.
  induction a as [|x a IH]; [done|]. rewrite append_cons. cbn [os.has_separator].
  rewrite IH. by rewrite orb_assoc.
Qed.

Lemma elements_from_sep (cur a b : string) :
  elements_from cur (a +:+ String Separator b) = elements_from cur a ++ elements_from "" b.
Proof.
  revert cur. induction a as [|x a IH]; intros cur.
  - rewrite append_nil_l. cbn [elements_from]. by rewrite Ascii.eqb_refl.
  - rewrite append_cons. cbn [elements_from].
    destruct (Ascii.eqb x Separator); [by rewrite IH|apply IH].
Qed.

Lemma elements_from_plain (cur name : string) :
  os.has_separator name = false → elements_from cur name = [cur +:+ name].
Proof.
  revert cur. induction name as [|x name IH]; intros cur Hsep; cbn [elements_from].
  - by rewrite append_nil_r.
  - cbn [os.has_separator] in Hsep. apply orb_false_elim in Hsep as [Hx Hname].
    rewrite Hx. rewrite IH by done. by rewrite append_assoc.
Qed.

Lemma ends_with_separator_split (dir : string) :
  os.ends_with_separator dir = true → ∃ d, dir = d +:+ String Separator "".
Proof.
  induction dir as [|x dir IH]; [done|]. cbn [os.ends_with_separator].
  destruct dir as [|y dir].
  - intros ->%Ascii.eqb_eq. by exists "".
  - intros [d ->]%IH. by exists (String x d).
Qed.

Lemma elements_joinPath (dir name : string) :
  os.has_separator name = false →
  ∃ els, (elements dir = els ∨ elements dir = els ++ [""])
         ∧ elements (os.joinPath dir name) = els ++ [name].
Proof.
  intros Hname. unfold os.joinPath, elements.
  destruct (os.ends_with_separator dir) eqn:Hend.
  - apply ends_with_separator_split in Hend as [d ->].
    exists (elements_from "" d). split.
    + right. by rewrite elements_from_sep.
    + rewrite append_assoc, append_cons, append_nil_l.
      by rewrite elements_from_sep, (elements_from_plain "" name).
  - exists (elements_from "" dir). split; [by left|].
    rewrite append_cons, append_nil_l.
    by rewrite elements_from_sep, (elements_from_plain "" name).
Qed.

Lemma clean_elements_snoc_empty (root : bool) (out els : list string) :
  clean_elements root out (els ++ [""]) = clean_elements root out els.
Proof.
  revert out. induction els as [|e els IH]; intros out; cbn.
  - done.
  - destruct (bool_decide (e = "" ∨ e = ".")); [apply IH|].
    destruct (bool_decide (e = "..")); [|apply IH].
    destruct out as [|top out]; [destruct root; apply IH|].
    destruct (bool_decide (top = "..")); apply IH.
Qed.

Lemma clean_elements_snoc_plain (root : bool) (out els : list string) (name : string) :
  plain_name name →
  clean_elements root out (els ++ [name]) = clean_elements root out els ++ [name].
Proof.
  intros (_ & Hne & Hdot & Hdots).
  revert out. induction els as [|e els IH]; intros out; cbn.
  - rewrite bool_decide_eq_false_2 by (by intros [?|?]).
    by rewrite bool_decide_eq_false_2.
  - destruct (bool_decide (e = "" ∨ e = ".")); [apply IH|].
    destruct (bool_decide (e = "..")); [|apply IH].
    destruct out as [|top out]; [destruct root; apply IH|].
    destruct (bool_decide (top = "..")); apply IH.
Qed.

Lemma first_differing_prefix (l x : list string) : first_differing l (l ++ x) = None.
Proof.
  induction l as [|e l IH]; cbn; [done|]. by rewrite bool_decide_eq_true_2.
Qed.

Lemma rooted_joinPath (dir name : string) :
  dir ≠ "" → rooted (os.joinPath dir name) = rooted dir.
Proof.
  intros Hdir. unfold os.joinPath. destruct dir as [|x dir]; [done|].
  by destruct (os.ends_with_separator _).
Qed.

(** [filepath.Rel] of a directory and a plain name joined to it returns
    no error. *)
Lemma Rel_err_joinPath (dir name : string) :
  dir ≠ "" → plain_name name → Rel_err dir (os.joinPath dir name) = None.
Proof.
  intros Hdir Hplain. pose proof Hplain as (Hsep & Hne & Hdot & _).
  unfold Rel_err, Clean_elements. rewrite rooted_joinPath by done.
  destruct (elements_joinPath dir name Hsep) as (els & Hels & ->).
  assert (clean_elements (rooted dir) [] (elements dir)
          = clean_elements (rooted dir) [] els) as ->.
  { destruct Hels as [->| ->]; [done|]. apply clean_elements_snoc_empty. }
  rewrite clean_elements_snoc_plain by done.
  set (cl := clean_elements (rooted dir) [] els).
  destruct (rooted dir).
  - rewrite bool_decide_eq_false_2.
    2: { intros [= H]. apply (f_equal length) in H. rewrite length_app in H. cbn in H. lia. }
    rewrite bool_decide_eq_false_2 by done. cbn [negb Bool.eqb].
    pose proof (first_differing_prefix ("" :: cl) [name]) as Hpre.
    rewrite <- app_comm_cons in Hpre. by rewrite Hpre.
  - destruct cl as [|c cl]; cbn [app].
    + rewrite bool_decide_eq_false_2 by congruence.
      by rewrite bool_decide_eq_true_2.
    + rewrite bool_decide_eq_false_2.
      2: { intros H. apply (f_equal length) in H. cbn in H. rewrite length_app in H.
           cbn in H. lia. }
      cbn [negb Bool.eqb].
      destruct (bool_decide (c :: cl = ["."])); [done|].
      pose proof (first_differing_prefix (c :: cl) [name]) as Hpre.
      rewrite <- app_comm_cons in Hpre. by rewrite Hpre.
Qed.

Lemma split_last_star_end (s : string) : os.split_last_star (s +:+ "*") = Some (s, "").
Proof.
  induction s as [|x s IH]; [done|]. rewrite append_cons. cbn [os.split_last_star].
  by rewrite IH.
Qed.

Lemma pretty_N_go_plain (x : N) (s : string) :
  os.has_separator s = false → os.has_separator (pretty_N_go x s) = false.
Proof.
  revert s. induction (N.lt_wf_0 x) as [x _ IH]; intros s Hs.
  assert (x = 0 ∨ 0 < x)%N as [->|?] by lia.
  - by rewrite pretty_N_go_0.
  - rewrite pretty_N_go_step by done. apply IH.
    { by apply N.div_lt. }
    cbn. rewrite Hs. unfold pretty_N_char. by repeat case_match.
Qed.

Lemma pretty_nat_plain (n : nat) : os.has_separator (pretty n) = false.
Proof.
  unfold pretty, pretty_nat, pretty, pretty_N.
  destruct (decide _); [done|]. by apply pretty_N_go_plain.
Qed.

(** The names [CreateTemp] gives for the pattern of [refetch]. *)
Lemma CreateTemp_loop_shape (try : nat) (dir pre suf file : string) (f f' : os.FS) :
  os.CreateTemp_loop try dir pre suf f = (Ok file, f') →
  ∃ n : nat, file = os.joinPath dir (pre +:+ pretty n +:+ suf).
Proof.
  revert f. induction try as [|try IH]; intros f; cbn.
  - destruct (os.Stat _ f); [done|]. destruct (os.is_dir dir f).
    + intros [= <- _]. by eexists.
    + by destruct (os.files f !! dir).
  - destruct (os.Stat _ f); [apply IH|]. destruct (os.is_dir dir f).
    + intros [= <- _]. by eexists.
    + by destruct (os.files f !! dir).
Qed.

Lemma CreateTemp_transient_name (dir k file : string) (f f' : os.FS) :
  dir ≠ "" →
  os.CreateTemp dir ("transient-" +:+ k +:+ "-*") f = (Ok file, f') →
  ∃ name, plain_name name ∧ file = os.joinPath dir name.
Proof.
  intros Hdir Htemp.
  assert ("transient-" +:+ k +:+ "-*" = ("transient-" +:+ k +:+ "-") +:+ "*") as Hpat.
  { symmetry. rewrite append_assoc, (append_assoc k). reflexivity. }
  rewrite Hpat in Htemp.
  unfold os.CreateTemp, os.prefixAndSuffix in Htemp.
  rewrite (bool_decide_eq_false_2 (dir = "")) in Htemp by done.
  rewrite split_last_star_end in Htemp.
  destruct (os.has_separator (("transient-" +:+ k +:+ "-") +:+ "*")) eqn:Hsep; [done|].
  apply CreateTemp_loop_shape in Htemp as [n ->].
  rewrite has_separator_app in Hsep. apply orb_false_elim in Hsep as [Hpre _].
  eexists. split; [|done]. split.
  - rewrite (has_separator_app ("transient-" +:+ k +:+ "-")), Hpre.
    rewrite has_separator_app, pretty_nat_plain. done.
  - rewrite !append_cons. by repeat split.
Qed.

End ManagedTransient.

Section ManagedFetch.
Import mount.

Lemma refetch_copy_name (u : Upgrader) (w w1 : World) (file : string) :
  refetch_copy u w = (Ok file, w1) →
  ∃ f', os.CreateTemp (rootdir u) ("transient-" +:+ key u +:+ "-*") (fs w) = (Ok file, f').
Proof.
  unfold refetch_copy.
  destruct (os.CreateTemp _ _ _) as [[file0|e] f]; [|done].
  destruct (Mount_Stat (underlying u)) as [st|e]; [|done].
  destruct (Exists st); cbn [negb]; [|done].
  destruct (Mount_Fetch (underlying u)) as [from|e]; [|done].
  destruct (io_Copy _ _ _) as [[e|] w2]; [done|].
  intros [= <- _]. by eexists.
Qed.

End ManagedFetch.

(** The transient that a refetch has created lies under the root
    directory of the upgrader and [DeleteTransient] accepts it: after a call
    of [Fetch] that found no live transient and returned a reader,
    [DeleteTransient] removes the file, clears the tracked path and returns
    nil, and the next [Fetch] enters [refetch] again. *)
Theorem refetched_transient_is_managed :
  ∀ (u u' : mount.Upgrader) (w w' : mount.World) (r : mount.Reader),
    mount.passthrough u = false →
    os.files (mount.fs w) !! "" = None →
    mount.rootdir u ≠ "" →
    ¬ alive u w →
    mount.Fetch u w = (Ok r, u', w') →
    (∃ name, plain_name name
             ∧ mount.transient u' = os.joinPath (mount.rootdir u) name)
    ∧ filepath.Rel_err (mount.rootdir u') (mount.transient u') = None
    ∧ ∃ w2,
        mount.DeleteTransient u' w' = (None, mount.set_transient "" u', w2)
        ∧ os.files (mount.fs w2) !! mount.transient u' = None
        ∧ ∃ evs, mount.log (snd (mount.Fetch (mount.set_transient "" u') w2))
                 = mount.log w2 ++ mount.EvRefetch :: evs.
Proof.
  intros u u' w w' r Hp Hempty Hroot Ha Hfetch.
  destruct (Fetch_ok_inv u u' w w' r Hp Hempty Hfetch)
    as (Hp' & [Hne Hsome] & _ & _
        & [[? _]|(_ & Ho & _ & Hf & _ & Hlt & Ho' & Honces & _)]);
    [done|].
  assert ((∃ name, plain_name name
                   ∧ mount.transient u' = os.joinPath (mount.rootdir u) name)
          ∧ mount.rootdir u' = mount.rootdir u) as [Hname Hroot'].
  { rewrite Fetch_on_fresh in Hfetch by done. cbv zeta in Hfetch.
    destruct (mount.refetch_copy u _) as [[file|e] w1] eqn:Hcopy; [|done].
    apply refetch_copy_name in Hcopy as [f' Htemp].
    apply CreateTemp_transient_name in Htemp as (name & Hplain & ->); [|done].
    unfold mount.refetch_commit, mount.new_Once in Hfetch.
    destruct (mount.os_Open _ _) as [r0 w3]. injection Hfetch as _ <- _.
    split; [by exists name|done]. }
  split; [done|].
  destruct Hname as (name & Hplain & Hname).
  assert (filepath.Rel_err (mount.rootdir u') (mount.transient u') = None) as Hrel.
  { rewrite Hroot', Hname. by apply Rel_err_joinPath. }
  split; [done|].
  unfold mount.DeleteTransient. rewrite bool_decide_eq_false_2 by done. rewrite Hrel.
  unfold os.Remove. rewrite Hf.
  eexists. split; [reflexivity|].
  cbn [mount.fs mount.set_fs mount.emit os.files].
  split; [apply lookup_delete_eq|].
  apply Fetch_armed_refetches; [done|done|].
  cbn [mount.onces mount.set_fs mount.emit mount.once mount.set_transient].
  rewrite Honces, Ho'.
  rewrite lookup_app_r by (by rewrite length_insert).
  by rewrite length_insert, Nat.sub_diag.
Qed.

Lemma refetched_transient_is_managed_witness :
  ∃ r u' w' w2,
    mount.Fetch Samples.fresh_upgrader Samples.fresh_world = (Ok r, u', w')
    ∧ mount.DeleteTransient u' w' = (None, mount.set_transient "" u', w2).
Proof.
  assert (∃ u' w', mount.Fetch Samples.fresh_upgrader Samples.fresh_world
                   = (Ok Scenario.car, u', w')) as (u' & w' & Hfetch).
  { eexists _, _. vm_compute. reflexivity. }
  destruct (refetched_transient_is_managed Samples.fresh_upgrader u' Samples.fresh_world w'
              Scenario.car eq_refl eq_refl) as (_ & _ & w2 & Hdel & _).
  - discriminate.
  - intros [Hne _]. by apply Hne.
  - exact Hfetch.
  - exists Scenario.car, u', w', w2. split; [exact Hfetch | exact Hdel].
Defined.

(** * Further properties of the DAG store *)

Section ShardInfoFacts.
Import dagstore.

Lemma AllShardsInfo_lookup (d : DAGStore) (k : Key) :
  AllShardsInfo d !! k = info_of <$> shards d !! k.
Proof.
  unfold AllShardsInfo.
  apply (map_fold_weak_ind
           (λ (ret : gmap Key ShardInfo) (m : gmap Key Shard),
              ret !! k = info_of <$> m !! k)).
  - by rewrite !lookup_empty.
  - intros i s m ret _ IH. destruct (decide (i = k)) as [->|Hne].
    + by rewrite !lookup_insert_eq.
    + by rewrite !lookup_insert_ne.
Qed.

End ShardInfoFacts.

(** [AllShardsInfo] and [GetShardInfo] agree: the snapshot holds, for
    exactly the keys of the catalog, the state, error and reference count of
    the shard, which is what [GetShardInfo] returns for the key; for any
    other key [GetShardInfo] returns [ErrShardUnknown] and the snapshot has
    no entry. Neither changes the engine. *)
Theorem AllShardsInfo_agrees_with_GetShardInfo :
  ∀ (d : dagstore.DAGStore) (k : dagstore.Key),
    dagstore.GetShardInfo k d
    = match dagstore.AllShardsInfo d !! k with
      | Some info => Ok info
      | None => Err ErrShardUnknown
      end
    ∧ (is_Some (dagstore.AllShardsInfo d !! k) ↔ is_Some (dagstore.shards d !! k))
    ∧ ∀ s, dagstore.shards d !! k = Some s →
           dagstore.AllShardsInfo d !! k
           = Some {| dagstore.ShardState_of := dagstore.state s;
                     dagstore.info_Error := dagstore.err s;
                     dagstore.info_refs := dagstore.refs s |}.
Proof.
  intros d k. rewrite AllShardsInfo_lookup. unfold dagstore.GetShardInfo.
  destruct (dagstore.shards d !! k) as [s|]; cbn.
  - split; [done|]. split; [done|]. by intros ? [= <-].
  - split; [done|]. split; [|done]. split; by intros [? ?].
Qed.

(** [RegisterShard] puts the shard in the catalog before it enqueues
    the registration, and does not take it back: whenever the key was free
    and the mount could be upgraded, whether or not the task was accepted,
    the shard is known afterwards as New with no error and no reference,
    the other shards are as they were, and registering the key again is
    refused with [ErrShardExists]. The task is on the external channel
    exactly when the call returned nil. *)
Theorem RegisterShard_registers_before_enqueue :
  ∀ (c : dagstore.Context) (k : dagstore.Key) (mnt : mount.Mount) (out : option nat)
    (opts : dagstore.RegisterOpts) (d : dagstore.DAGStore)
    (upgraded : mount.Upgrader) (wo : mount.World),
    dagstore.shards d !! k = None →
    mount.Upgrade mnt (dagstore.TransientsDir (dagstore.config d)) k
      (dagstore.ExistingTransient opts) (dagstore.world d) = (Ok upgraded, wo) →
    ∃ ret d',
      dagstore.RegisterShard c k mnt out opts d = (ret, d')
      ∧ dagstore.GetShardInfo k d'
        = Ok {| dagstore.ShardState_of := dagstore.ShardStateNew;
                dagstore.info_Error := None; dagstore.info_refs := 0 |}
      ∧ (∃ s, dagstore.shards d' !! k = Some s
              ∧ dagstore.mount_of s = upgraded
              ∧ dagstore.lazy s = dagstore.LazyInitialization opts)
      ∧ (∀ k', k' ≠ k → dagstore.shards d' !! k' = dagstore.shards d !! k')
      ∧ (∀ c2 mnt2 out2 opts2,
           ∃ e, dagstore.RegisterShard c2 k mnt2 out2 opts2 d' = (Some e, d')
                ∧ errors_Is is_ErrShardExists e = true)
      ∧ (ret = None →
         dagstore.external d'
         = dagstore.external d ++ [api_task dagstore.OpShardRegister c k out])
      ∧ (ret ≠ None → dagstore.external d' = dagstore.external d).
Proof.
  intros c k mnt out opts d upgraded wo Hfree Hup.
  unfold dagstore.RegisterShard at 1. rewrite Hfree, Hup.
  destruct (dagstore.queueTask _ _ _) as [ret d'] eqn:Hq. exists ret, d'.
  split; [done|].
  assert (dagstore.shards d'
          = <[k := {| dagstore.key := k; dagstore.state := dagstore.ShardStateNew;
                      dagstore.err := None; dagstore.refs := 0;
                      dagstore.mount_of := upgraded;
                      dagstore.lazy := dagstore.LazyInitialization opts |}]>
              (dagstore.shards d)
          ∧ (ret = None →
             dagstore.external d'
             = dagstore.external d ++ [api_task dagstore.OpShardRegister c k out])
          ∧ (ret ≠ None → dagstore.external d' = dagstore.external d))
    as (Hs & Hacc & Hrej).
  { pose proof (queueTask_spec
                  {| dagstore.waiter_of := Some {| dagstore.ctx := c; dagstore.outCh := out |};
                     dagstore.op := dagstore.OpShardRegister; dagstore.shard := k;
                     dagstore.task_err := None |} dagstore.externalCh
                  (dagstore.set_shards
                     (<[k := {| dagstore.key := k; dagstore.state := dagstore.ShardStateNew;
                                dagstore.err := None; dagstore.refs := 0;
                                dagstore.mount_of := upgraded;
                                dagstore.lazy := dagstore.LazyInitialization opts |}]>
                        (dagstore.shards d))
                     (dagstore.set_world wo d))) as Hspec.
    rewrite Hq in Hspec. destruct Hspec as (-> & He & _ & _ & Hs & _).
    cbn [dagstore.sent] in He. rewrite He, Hs. unfold api_task.
    destruct (dagstore.refuses _); (split; [by destruct d|]); split; try done;
      intros _; destruct d; cbn; by rewrite ?app_nil_r. }
  split; [|split; [|split; [|split; [|done]]]].
  - unfold dagstore.GetShardInfo. by rewrite Hs, lookup_insert_eq.
  - eexists. rewrite Hs, lookup_insert_eq. done.
  - intros k' Hne. by rewrite Hs, lookup_insert_ne.
  - intros c2 mnt2 out2 opts2. unfold dagstore.RegisterShard.
    rewrite Hs, lookup_insert_eq. by eexists.
Qed.

Lemma RegisterShard_registers_before_enqueue_witness :
  let closed := snd (dagstore.Close Engine.always_done Engine.idle) in
  let opts := {| dagstore.ExistingTransient := ""; dagstore.LazyInitialization := false |} in
  ∃ e d',
    dagstore.RegisterShard Engine.live "k9" Scenario.healthy (Some 7) opts closed = (Some e, d')
    ∧ dagstore.GetShardInfo "k9" d'
      = Ok {| dagstore.ShardState_of := dagstore.ShardStateNew;
              dagstore.info_Error := None; dagstore.info_refs := 0 |}
    ∧ dagstore.external d' = [].
Proof.
  intros closed opts.
  destruct (RegisterShard_registers_before_enqueue Engine.live "k9" Scenario.healthy (Some 7)
              opts closed
              {| mount.rootdir := "/data/transients"; mount.underlying := Scenario.healthy;
                 mount.key := "k9"; mount.passthrough := false; mount.transient := "";
                 mount.once := 0 |}
              {| mount.fs := mount.fs Scenario.disk; mount.onces := [mount.OnceFresh];
                 mount.log := [] |}
              eq_refl eq_refl)
    as (ret & d' & Hcall & Hinfo & _ & _ & _ & _ & Hrej).
  assert (ret = Some (errorString "dag store closed")) as ->.
  { vm_compute in Hcall. by injection Hcall as <- _. }
  exists (errorString "dag store closed"), d'.
  split; [exact Hcall|]. split; [exact Hinfo|]. by apply Hrej.
Defined.

Section GCFacts.
Import dagstore.

Lemma GC_reclaim_spec (d : DAGStore) :
  NoDup (GC_reclaim d)
  ∧ ∀ k, k ∈ GC_reclaim d ↔ ∃ s, shards d !! k = Some s ∧ reclaimable s.
Proof.
  unfold GC_reclaim.
  apply (map_fold_weak_ind
           (λ (reclaim : list Key) (m : gmap Key Shard),
              NoDup reclaim
              ∧ ∀ k, k ∈ reclaim ↔ ∃ s, m !! k = Some s ∧ reclaimable s)).
  - split; [constructor|]. intros k. split; [by intros ?%elem_of_nil|].
    by intros (s & ? & _).
  - intros i s m reclaim Hi [Hnd Hin]. case_bool_decide as Hs.
    + split.
      * apply NoDup_app. split; [done|]. split; [|apply NoDup_singleton].
        intros k Hk ->%list_elem_of_singleton. apply Hin in Hk as (s' & Hs' & _).
        congruence.
      * intros k. rewrite elem_of_app, list_elem_of_singleton, Hin.
        destruct (decide (i = k)) as [->|Hne].
        -- rewrite lookup_insert_eq. split; [|by right]. intros _. by exists s.
        -- rewrite lookup_insert_ne by done. split; [|by left].
           intros [?|?]; [done|congruence].
    + split; [done|]. intros k. rewrite Hin.
      destruct (decide (i = k)) as [->|Hne].
      * rewrite lookup_insert_eq, Hi. split; [by intros (? & ? & _)|].
        by intros (s' & [= <-] & ?).
      * by rewrite lookup_insert_ne.
Qed.

Lemma GC_enqueue_open (c : Context) (ch : nat) (reclaim : list Key) (await : nat)
    (merr : list error) (d : DAGStore) :
  ctx_done d = false →
  ∃ d', GC_enqueue c ch reclaim await merr d = (await + length reclaim, merr, d')
        ∧ external d'
          = external d ++ ((λ k, api_task OpShardGC c k (Some ch)) <$> reclaim)
        ∧ shards d' = shards d ∧ internal d' = internal d
        ∧ completion d' = completion d ∧ indices d' = indices d
        ∧ dispatchResultsCh d' = dispatchResultsCh d
        ∧ ctx_done d' = false.
Proof.
  revert await d. induction reclaim as [|k reclaim IH]; intros await d Hopen; cbn.
  - exists d. rewrite Nat.add_0_r, app_nil_r. by repeat split.
  - rewrite queueTask_open by done.
    destruct (IH (S await) (send externalCh (api_task OpShardGC c k (Some ch)) d))
      as (d' & Hrun & He & Hs & Hi & Hc & Hx & Hr & Hd); [by destruct d|].
    exists d'. unfold api_task in *. rewrite Hrun, He, Hs, Hi, Hc, Hx, Hr, Hd.
    replace (S await + length reclaim) with (await + S (length reclaim)) by lia.
    split; [done|]. destruct d; cbn. rewrite <- app_assoc. by repeat split.
Qed.

(** The second loop of [GC] when the select of [queueTask] takes the
    [Done] case for each of the tasks. *)
Lemma GC_enqueue_refused (c : Context) (ch : nat) (reclaim : list Key) (await : nat)
    (merr : list error) (d : DAGStore) (sel : nat → bool) :
  cancelled d = Some sel →
  (∀ n, n < length reclaim → sel n = false) →
  ∃ merr' d', GC_enqueue c ch reclaim await merr d = (await, merr', d')
              ∧ length merr' = length merr + length reclaim
              ∧ external d' = external d ∧ internal d' = internal d
              ∧ completion d' = completion d ∧ shards d' = shards d
              ∧ indices d' = indices d ∧ trace d' = trace d.
Proof.
  revert merr d sel. induction reclaim as [|k reclaim IH]; intros merr d sel Hd Hsel; cbn.
  - exists merr, d. split; [done|]. split; [lia|]. by repeat split.
  - pose proof (queueTask_spec (api_task OpShardGC c k (Some ch)) externalCh d) as Hq.
    unfold api_task in Hq.
    destruct (queueTask _ externalCh d) as [ret d1].
    assert (refuses d = true) as Href.
    { unfold refuses. rewrite Hd, (Hsel 0); [done | cbn; lia]. }
    rewrite Href in Hq.
    destruct Hq as (-> & He & Ho & Ht & Hs & _ & Hi & _ & _ & _ & _ & _ & _ & _ & Hc).
    rewrite !app_nil_r in *. cbn [sent] in He.
    pose proof (Ho internalCh) as Hint. pose proof (Ho completionCh) as Hcompl.
    cbn [sent] in Hint, Hcompl.
    destruct (IH (merr ++ [wrapError ("failed to enqueue GC task for shard " +:+ k)
                             (errorString "dag store closed")]) d1 (λ n, sel (S n)))
      as (merr' & d' & -> & Hlen & He' & Hi' & Hc' & Hs' & Hx' & Ht').
    { rewrite Hc. unfold advance. rewrite Hd. by destruct d. }
    { intros n Hn. apply Hsel. cbn. lia. }
    exists merr', d'. split; [done|].
    split; [rewrite Hlen, length_app; cbn; lia|].
    rewrite He', Hi', Hc', Hs', Hx', Ht', He, Hs, Hi, Ht.
    rewrite Hint, Hcompl by done. by repeat split.
Qed.

Lemma GC_collect_all (rs : list ShardResult) (rest : list (option ShardResult))
    (acc : gmap Key (option error)) :
  ∀ c, ∃ results,
    GC_collect c (length rs) ((Some <$> rs) ++ rest) acc = Some (results, None)
    ∧ (∀ k, is_Some (results !! k) ↔ is_Some (acc !! k) ∨ k ∈ Key_of <$> rs)
    ∧ (∀ k, k ∉ Key_of <$> rs → results !! k = acc !! k)
    ∧ (NoDup (Key_of <$> rs) → ∀ r, r ∈ rs → results !! Key_of r = Some (Error r)).
Proof.
  intros c. revert acc. induction rs as [|r rs IH]; intros acc; cbn.
  - exists acc. split; [done|]. split; [|split; [done|]].
    + intros k. split; [by left|]. intros [?|?%elem_of_nil]; done.
    + by intros _ r ?%elem_of_nil.
  - destruct (IH (<[Key_of r := Error r]> acc)) as (results & -> & Hdom & Hout & Hin).
    exists results. split; [done|]. split; [|split].
    + intros k. rewrite Hdom, elem_of_cons.
      destruct (decide (Key_of r = k)) as [<-|Hne].
      * rewrite lookup_insert_eq. split; [intros _; right; by left|]. intros _. by left.
      * rewrite lookup_insert_ne by done. split.
        -- intros [?|?]; [by left|right; by right].
        -- intros [?|[?|?]]; [by left|congruence|by right].
    + intros k Hk. rewrite not_elem_of_cons in Hk. destruct Hk as [Hne Hk].
      rewrite Hout by done. by rewrite lookup_insert_ne.
    + intros Hnd r' Hr'. apply NoDup_cons in Hnd as [Hr Hnd].
      apply elem_of_cons in Hr' as [->|Hr']; [|by apply Hin].
      rewrite Hout by done. by rewrite lookup_insert_eq.
Qed.

Lemma GC_collect_cancelled (rs : list ShardResult) (rest : list (option ShardResult))
    (await : nat) (acc : gmap Key (option error)) :
  length rs < await →
  ∀ c, ∃ results,
    GC_collect c await ((Some <$> rs) ++ None :: rest) acc
    = Some (results, Some (ctx_Err c))
    ∧ (∀ k, is_Some (results !! k) ↔ is_Some (acc !! k) ∨ k ∈ Key_of <$> rs).
Proof.
  intros Hlt c. revert await acc Hlt. induction rs as [|r rs IH]; intros await acc Hlt; cbn in *.
  - destruct await as [|await]; [lia|]. cbn. exists acc. split; [done|].
    intros k. split; [by left|]. intros [?|?%elem_of_nil]; done.
  - destruct await as [|await]; [lia|]. cbn.
    destruct (IH await (<[Key_of r := Error r]> acc)) as (results & -> & Hdom); [lia|].
    exists results. split; [done|].
    intros k. rewrite Hdom, elem_of_cons.
    destruct (decide (Key_of r = k)) as [<-|Hne].
    + rewrite lookup_insert_eq. split; [intros _; right; by left|]. intros _. by left.
    + rewrite lookup_insert_ne by done. split.
      * intros [?|?]; [by left|right; by right].
      * intros [?|[?|?]]; [by left|congruence|by right].
Qed.

(** The error of the third loop of [GC] is that of the caller's
    context. *)
Lemma GC_collect_error (c : Context) (await : nat) (answers : list (option ShardResult))
    (acc results : gmap Key (option error)) (e : error) :
  GC_collect c await answers acc = Some (results, Some e) → e = ctx_Err c.
Proof.
  revert answers acc. induction await as [|await IH]; intros answers acc; cbn; [done|].
  destruct answers as [|[r|] answers]; [done| |]; [apply IH | by intros [= _ <-]].
Qed.

End GCFacts.

(** [GC] on a running engine: one GC task for each shard of the catalog
    that is Available or Errored, and for no other, is placed on the
    external channel, each with the caller's context and the channel made
    for the call; when each of these tasks is answered once, the call returns
    nil and a map that holds, for exactly those shards, the error of the
    answer. [GC] itself changes nothing else in the engine. *)
Theorem GC_collects_reclaimable :
  ∀ (c : dagstore.Context) (ch : nat) (rs : list dagstore.ShardResult)
    (rest : list (option dagstore.ShardResult)) (d : dagstore.DAGStore),
    dagstore.ctx_done d = false →
    dagstore.Key_of <$> rs ≡ₚ dagstore.GC_reclaim d →
    ∃ results d',
      dagstore.GC c ch ((Some <$> rs) ++ rest) d = (Some (results, None), d')
      ∧ (∀ k, is_Some (results !! k)
              ↔ ∃ s, dagstore.shards d !! k = Some s ∧ reclaimable s)
      ∧ (∀ r, r ∈ rs → results !! dagstore.Key_of r = Some (dagstore.Error r))
      ∧ (∃ reclaim,
           dagstore.external d'
           = dagstore.external d
             ++ ((λ k, api_task dagstore.OpShardGC c k (Some ch)) <$> reclaim)
           ∧ NoDup reclaim
           ∧ ∀ k, k ∈ reclaim ↔ ∃ s, dagstore.shards d !! k = Some s ∧ reclaimable s)
      ∧ dagstore.shards d' = dagstore.shards d
      ∧ dagstore.internal d' = dagstore.internal d
      ∧ dagstore.completion d' = dagstore.completion d
      ∧ dagstore.indices d' = dagstore.indices d
      ∧ dagstore.dispatchResultsCh d' = dagstore.dispatchResultsCh d.
Proof.
  intros c ch rs rest d Hopen Hperm.
  destruct (GC_reclaim_spec d) as [Hnd Hin].
  destruct (GC_enqueue_open c ch (dagstore.GC_reclaim d) 0 [] d Hopen)
    as (d' & Hrun & He & Hs & Hi & Hc & Hx & Hr & _).
  destruct (GC_collect_all rs rest ∅ c) as (results & Hcol & Hdom & _ & Hres).
  exists results, d'. unfold dagstore.GC. rewrite Hrun. cbn [Nat.add].
  rewrite <- (Permutation_length Hperm), length_fmap, Hcol.
  split; [done|]. split; [|split; [|split; [|done]]].
  - intros k. rewrite Hdom, <- Hin, Hperm, lookup_empty.
    split; [intros [[? ?]|?]; done | by right].
  - apply Hres. by rewrite Hperm.
  - by exists (dagstore.GC_reclaim d).
Qed.

Lemma GC_collects_reclaimable_witness :
  let answer := {| dagstore.Key_of := "k1"; dagstore.Error := None;
                   dagstore.Accessor := None |} in
  ∃ results d',
    dagstore.GC Engine.live 3 [Some answer] Engine.idle = (Some (results, None), d')
    ∧ results !! "k1" = Some None
    ∧ dagstore.shards d' = dagstore.shards Engine.idle.
Proof.
  intros answer.
  assert (dagstore.Key_of <$> [answer] ≡ₚ dagstore.GC_reclaim Engine.idle) as Hperm.
  { vm_compute. reflexivity. }
  destruct (GC_collects_reclaimable Engine.live 3 [answer] [] Engine.idle eq_refl Hperm)
    as (results & d' & Hgc & _ & Hres & _ & Hs & _).
  exists results, d'. split; [exact Hgc|]. split; [|exact Hs].
  apply (Hres answer). apply list_elem_of_here.
Defined.

(** [GC] whose context is found done before every task has answered
    returns the error of that context together with the results received
    until then, and no entry for another shard; by then every task of the
    call has been sent on the external channel. *)
Theorem GC_cancelled_returns_partial :
  ∀ (c : dagstore.Context) (ch : nat) (rs : list dagstore.ShardResult)
    (rest : list (option dagstore.ShardResult)) (d : dagstore.DAGStore),
    dagstore.ctx_done d = false →
    length rs < length (dagstore.GC_reclaim d) →
    ∃ results d',
      dagstore.GC c ch ((Some <$> rs) ++ None :: rest) d
      = (Some (results, Some (dagstore.ctx_Err c)), d')
      ∧ (∀ k, is_Some (results !! k) ↔ k ∈ dagstore.Key_of <$> rs)
      ∧ dagstore.external d'
        = dagstore.external d
          ++ ((λ k, api_task dagstore.OpShardGC c k (Some ch)) <$> dagstore.GC_reclaim d).
Proof.
  intros c ch rs rest d Hopen Hlt.
  destruct (GC_enqueue_open c ch (dagstore.GC_reclaim d) 0 [] d Hopen)
    as (d' & Hrun & He & _).
  destruct (GC_collect_cancelled rs rest (length (dagstore.GC_reclaim d)) ∅ Hlt c)
    as (results & Hcol & Hdom).
  exists results, d'. unfold dagstore.GC. rewrite Hrun. cbn [Nat.add]. rewrite Hcol.
  split; [done|]. split; [|done].
  intros k. rewrite Hdom, lookup_empty. split; [intros [[? ?]|?]; done | by right].
Qed.

Lemma GC_cancelled_returns_partial_witness :
  let deadline := {| dagstore.Done := false;
                     dagstore.ctx_Err := errorString "context deadline exceeded" |} in
  ∃ d',
    dagstore.GC deadline 3 [None] Engine.idle
    = (Some (∅, Some (errorString "context deadline exceeded")), d')
    ∧ dagstore.external d'
      = [api_task dagstore.OpShardGC deadline "k1" (Some 3)].
Proof.
  intros deadline.
  assert (length (@nil dagstore.ShardResult) < length (dagstore.GC_reclaim Engine.idle))
    as Hlt.
  { vm_compute. lia. }
  destruct (GC_cancelled_returns_partial deadline 3 [] [] Engine.idle eq_refl Hlt)
    as (results & d' & Hgc & Hdom & He).
  exists d'. split.
  - replace (∅ : gmap dagstore.Key (option error)) with results; [exact Hgc|].
    apply map_eq. intros k. rewrite lookup_empty. apply eq_None_not_Some.
    rewrite Hdom. cbn. by intros ?%elem_of_nil.
  - rewrite He. vm_compute. reflexivity.
Defined.

(** The errors of the tasks that [GC] could not enqueue are gathered and
    never returned: the only error [GC] returns is that of the caller's
    context. So in a run on a closed engine in which the select of
    [queueTask] takes the [Done] case for each of the tasks, [GC] enqueues
    nothing, waits for nothing, and returns an empty map and nil, whatever
    the catalog holds, one error per shard to reclaim having been
    gathered. *)
Theorem GC_drops_enqueue_errors :
  ∀ (c : dagstore.Context) (ch : nat) (answers : list (option dagstore.ShardResult))
    (d : dagstore.DAGStore),
    (∀ results e,
       (dagstore.GC c ch answers d).1 = Some (results, Some e) → e = dagstore.ctx_Err c)
    ∧ ∀ sel,
        dagstore.cancelled d = Some sel →
        (∀ n, n < length (dagstore.GC_reclaim d) → sel n = false) →
        ∃ merr d',
          dagstore.GC c ch answers d = (Some (∅, None), d')
          ∧ dagstore.GC_enqueue c ch (dagstore.GC_reclaim d) 0 [] d = (0, merr, d')
          ∧ length merr = length (dagstore.GC_reclaim d)
          ∧ dagstore.external d' = dagstore.external d
          ∧ dagstore.shards d' = dagstore.shards d.
Proof.
  intros c ch answers d. split.
  - intros results e. unfold dagstore.GC.
    destruct (dagstore.GC_enqueue _ _ _ _ _ _) as [[await merr] d']. cbn [fst].
    apply GC_collect_error.
  - intros sel Hd Hsel.
    destruct (GC_enqueue_refused c ch (dagstore.GC_reclaim d) 0 [] d sel Hd Hsel)
      as (merr & d' & Hrun & Hlen & He & _ & _ & Hs & _).
    exists merr, d'. unfold dagstore.GC. rewrite Hrun. by repeat split.
Qed.

Lemma GC_drops_enqueue_errors_witness :
  let closed := snd (dagstore.Close Engine.always_done Engine.idle) in
  dagstore.GC_reclaim closed = ["k1"]
  ∧ ∃ d', dagstore.GC Engine.live 3 [] closed = (Some (∅, None), d')
          ∧ dagstore.external d' = [].
Proof.
  intros closed. split; [vm_compute; reflexivity|].
  destruct (proj2 (GC_drops_enqueue_errors Engine.live 3 [] closed) Engine.always_done
              eq_refl) as (merr & d' & Hgc & _ & _ & He & _).
  - intros n _. reflexivity.
  - exists d'. split; [exact Hgc | exact He].
Defined.

Section WorkerFacts.
Import dagstore.

Lemma untouched_refl (d : DAGStore) : untouched d d.
Proof. by repeat split. Qed.

Lemma untouched_trans (d1 d2 d3 : DAGStore) :
  untouched d1 d2 → untouched d2 d3 → untouched d1 d3.
Proof.
  unfold untouched. intros (? & ? & ? & ? & ? & ? & ? & ? & ? & ?)
                           (? & ? & ? & ? & ? & ? & ? & ? & ? & ?).
  repeat split; congruence.
Qed.

Lemma emit_untouched (ev : event) (d : DAGStore) :
  untouched d (emit ev d)
  ∧ indices (emit ev d) = indices d
  ∧ completion (emit ev d) = completion d
  ∧ dispatchResultsCh (emit ev d) = dispatchResultsCh d.
Proof. destruct d. by repeat split. Qed.

Lemma refuses_cancelled (d d' : DAGStore) :
  cancelled d' = cancelled d → refuses d' = refuses d.
Proof. unfold refuses. by intros ->. Qed.

(** A task queued on the completion channel: nothing else changes, and
    the task is there exactly when the engine took it. *)
Lemma queue_completion (tsk : task) (d : DAGStore) :
  let '(ret, d') := queueTask tsk completionCh d in
  untouched d d'
  ∧ indices d' = indices d
  ∧ dispatchResultsCh d' = dispatchResultsCh d
  ∧ completion d' = completion d ++ (if refuses d then [] else [tsk]).
Proof.
  pose proof (queueTask_spec tsk completionCh d) as Hq.
  destruct (queueTask tsk completionCh d) as [ret d'].
  destruct Hq as (_ & Hc & Ho & _ & Hs & Hcfg & Hi & Hst & Hr & Hf & Htf & Hti & Hx & Hw & _).
  pose proof (Ho externalCh) as He. pose proof (Ho internalCh) as Hint.
  cbn [sent] in Hc, He, Hint.
  split; [|by repeat split].
  unfold untouched. rewrite He, Hint by done. by repeat split.
Qed.

Lemma dispatchResult_frame (r : ShardResult) (wt : option waiter) (d : DAGStore) :
  untouched d (dispatchResult r wt d)
  ∧ indices (dispatchResult r wt d) = indices d
  ∧ completion (dispatchResult r wt d) = completion d
  ∧ dispatchResultsCh (dispatchResult r wt d)
    = dispatchResultsCh d ++ [{| w := wt; res := r |}].
Proof. destruct d. by repeat split. Qed.

(** A fetch through the throttler: the reader of the mount, or the
    error of the mount, or of the context that was done before a permit was
    had. *)
Lemma throttled_fetch (c : Context) (mnt : mount.Mount) (d : DAGStore) :
  let '(r, d') := Throttler_Do (throttleFetch d) c (mnt_Fetch mnt) d in
  untouched d d'
  ∧ indices d' = indices d
  ∧ completion d' = completion d
  ∧ dispatchResultsCh d' = dispatchResultsCh d
  ∧ (r = mount.Mount_Fetch mnt
     ∨ (r = Err (ctx_Err c) ∧ Done c = true ∧ capacity (throttleFetch d) ≠ 0)).
Proof.
  unfold Throttler_Do, mnt_Fetch. case_bool_decide as Hcap.
  - destruct d. split; [by repeat split|]. repeat split; try done. by left.
  - destruct (Done c) eqn:Hdone.
    + split; [apply untouched_refl|]. repeat split; try done. by right.
    + destruct d. split; [by repeat split|]. repeat split; try done. by left.
Qed.

Lemma throttled_index (c : Context) (r : result Index) (d : DAGStore) :
  let '(r', d') :=
    Throttler_Do (throttleIndex d) c (λ _ d, (r, emit EvReadOrGenerateIndex d)) d in
  untouched d d'
  ∧ indices d' = indices d
  ∧ completion d' = completion d
  ∧ dispatchResultsCh d' = dispatchResultsCh d
  ∧ (r' = r ∨ (r' = Err (ctx_Err c) ∧ Done c = true
               ∧ capacity (throttleIndex d) ≠ 0)).
Proof.
  unfold Throttler_Do. case_bool_decide as Hcap.
  - destruct d. split; [by repeat split|]. repeat split; try done. by left.
  - destruct (Done c) eqn:Hdone.
    + split; [apply untouched_refl|]. repeat split; try done. by right.
    + destruct d. split; [by repeat split|]. repeat split; try done. by left.
Qed.

Lemma emit_cancelled (ev : event) (d : DAGStore) : cancelled (emit ev d) = cancelled d.
Proof. by destruct d. Qed.

Lemma Throttler_Do_cancelled {R : Type} (t : Throttler) (c : Context) (r : result R)
    (ev : event) (d : DAGStore) :
  cancelled (Throttler_Do t c (λ _ d, (r, emit ev d)) d).2 = cancelled d.
Proof.
  unfold Throttler_Do. case_bool_decide; [by destruct d|].
  destruct (Done c); [done|]. by destruct d.
Qed.

Lemma throttled_fetch_cancelled (c : Context) (mnt : mount.Mount) (d : DAGStore) :
  cancelled (Throttler_Do (throttleFetch d) c (mnt_Fetch mnt) d).2 = cancelled d.
Proof. apply (Throttler_Do_cancelled _ c (mount.Mount_Fetch mnt) EvMountFetch). Qed.

End WorkerFacts.


Section InitializeFacts.
Import dagstore.
Variable generate : mount.Reader → result Index.

(** What [initializeShard] does once the mount has given [reader]: one
    task for the completion channel, which is a failure that leaves the
    index repository alone, or the availability of the shard after its
    index has been added. *)
Lemma initializeShard_fetched (c : Context) (s : Shard) (mnt : mount.Mount)
    (reader : mount.Reader) (d d1 : DAGStore) :
  Throttler_Do (throttleFetch d) c (mnt_Fetch mnt) d = (Ok reader, d1) →
  let d' := initializeShard generate c s mnt d in
  untouched d1 d'
  ∧ dispatchResultsCh d' = dispatchResultsCh d1
  ∧ ∃ tsk,
      completion d' = completion d1 ++ (if refuses d1 then [] else [tsk])
      ∧ ((∃ msg e, tsk = fail_task (key s) msg e
                   ∧ indices d' = indices d1
                   ∧ (generate reader = Err e ∨ Done c = true
                      ∨ repo_fault (indices d1) = Some e))
         ∨ (∃ idx, tsk = available_task (key s)
                   ∧ generate reader = Ok idx
                   ∧ repo_fault (indices d1) = None
                   ∧ indices d' = {| entries := <[key s := idx]> (entries (indices d1));
                                     repo_fault := None |})).
Proof.
  intros Hfetch d'. unfold d', initializeShard. rewrite Hfetch.
  pose proof (throttled_index c (generate reader) d1) as Hidx.
  pose proof (Throttler_Do_cancelled (throttleIndex d1) c (generate reader)
                EvReadOrGenerateIndex d1) as Hcd2.
  destruct (Throttler_Do (throttleIndex d1) c _ d1) as [[idx|e] d2]; cbn [snd] in Hcd2.
  - destruct Hidx as (Hu2 & Hi2 & Hc2 & Hr2 & [Hgen|[? _]]); [|done].
    unfold AddFullIndex. destruct (repo_fault (indices d2)) as [e|] eqn:Hfault.
    + unfold failShard.
      set (d3 := emit _ (set_indices _ d2)).
      assert (untouched d2 d3 ∧ indices d3 = indices d2 ∧ completion d3 = completion d2
              ∧ dispatchResultsCh d3 = dispatchResultsCh d2
              ∧ cancelled d3 = cancelled d2) as (Hu3 & Hi3 & Hc3 & Hr3 & Hcd3).
      { unfold d3. destruct d2. by repeat split. }
      pose proof (queue_completion
                    (fail_task (key s) "failed to add index for shard" e) d3) as Hq.
      unfold fail_task in *. unfold reader_Close.
      destruct (queueTask _ completionCh d3) as [ret d4].
      destruct Hq as (Hu4 & Hi4 & Hr4 & Hc4). cbn [snd].
      rewrite (refuses_cancelled d1 d3) in Hc4 by congruence.
      pose proof (emit_untouched EvReaderClose d4) as (Hu5 & Hi5 & Hc5 & Hr5).
      split; [by eauto 10 using untouched_trans|].
      split; [by rewrite Hr5, Hr4, Hr3, Hr2|].
      eexists. split; [by rewrite Hc5, Hc4, Hc3, Hc2|].
      left. eexists _, e. split; [reflexivity|].
      split; [by rewrite Hi5, Hi4, Hi3, Hi2|]. right. right. by rewrite <- Hi2.
    + set (repo := {| entries := _; repo_fault := None |}).
      set (d3 := emit _ (set_indices repo d2)).
      assert (untouched d2 d3 ∧ indices d3 = repo ∧ completion d3 = completion d2
              ∧ dispatchResultsCh d3 = dispatchResultsCh d2
              ∧ cancelled d3 = cancelled d2) as (Hu3 & Hi3 & Hc3 & Hr3 & Hcd3).
      { unfold d3. destruct d2. by repeat split. }
      pose proof (queue_completion (available_task (key s)) d3) as Hq.
      unfold available_task in *. unfold reader_Close.
      destruct (queueTask _ completionCh d3) as [ret d4].
      destruct Hq as (Hu4 & Hi4 & Hr4 & Hc4). cbn [snd].
      rewrite (refuses_cancelled d1 d3) in Hc4 by congruence.
      pose proof (emit_untouched EvReaderClose d4) as (Hu5 & Hi5 & Hc5 & Hr5).
      split; [by eauto 10 using untouched_trans|].
      split; [by rewrite Hr5, Hr4, Hr3, Hr2|].
      eexists. split; [by rewrite Hc5, Hc4, Hc3, Hc2|].
      right. exists idx. split; [reflexivity|]. split; [done|].
      split; [by rewrite <- Hi2|].
      rewrite Hi5, Hi4, Hi3. unfold repo. by rewrite Hi2.
  - destruct Hidx as (Hu2 & Hi2 & Hc2 & Hr2 & Hwhy).
    unfold failShard.
    pose proof (queue_completion
                  (fail_task (key s) "failed to read/generate CAR Index" e) d2) as Hq.
    unfold fail_task in *. unfold reader_Close.
    destruct (queueTask _ completionCh d2) as [ret d3].
    destruct Hq as (Hu3 & Hi3 & Hr3 & Hc3). cbn [snd].
    rewrite (refuses_cancelled d1 d2) in Hc3 by congruence.
    pose proof (emit_untouched EvReaderClose d3) as (Hu4 & Hi4 & Hc4 & Hr4).
    split; [by eauto 10 using untouched_trans|].
    split; [by rewrite Hr4, Hr3, Hr2|].
    eexists. split; [by rewrite Hc4, Hc3, Hc2|].
    left. eexists _, e. split; [reflexivity|].
    split; [by rewrite Hi4, Hi3, Hi2|].
    destruct Hwhy as [<-|(_ & ? & _)]; [by left | right; by left].
Qed.

End InitializeFacts.


(** The two workers compose: when the mount gives a reader, the indexer
    an index for it, the index repository works and the contexts are live,
    then after [initializeShard] a call of [acquireAsync] for the shard
    hands the dispatcher, for its waiter, one result without error whose
    accessor holds a reader of the mount and the index that was generated;
    that index is the one the repository then returns for the shard, and the
    only task the two place on the completion channel is the MakeAvailable
    of the initialization, which is there unless the root context is
    cancelled and the select of [queueTask] takes the [Done] case. *)
Theorem initialize_then_acquire :
  ∀ (generate : mount.Reader → result dagstore.Index) (c c2 : dagstore.Context)
    (wt : dagstore.waiter) (s : dagstore.Shard) (mnt : mount.Mount)
    (reader : mount.Reader) (idx : dagstore.Index) (d : dagstore.DAGStore),
    mount.Mount_Fetch mnt = Ok reader →
    generate reader = Ok idx →
    dagstore.repo_fault (dagstore.indices d) = None →
    dagstore.Done c = false →
    dagstore.Done c2 = false →
    let d1 := dagstore.initializeShard generate c s mnt d in
    let d2 := dagstore.acquireAsync c2 wt s mnt d1 in
    dagstore.dispatchResultsCh d2
    = dagstore.dispatchResultsCh d
      ++ [{| dagstore.w := Some wt; dagstore.res := served (dagstore.key s) reader idx |}]
    ∧ dagstore.GetFullIndex (dagstore.key s) (dagstore.indices d2) = Ok idx
    ∧ dagstore.completion d2
      = dagstore.completion d
        ++ (if dagstore.refuses d then [] else [available_task (dagstore.key s)]).
Proof.
  intros generate c c2 wt s mnt reader idx d Hmnt Hgen Hfault Hc Hc2 d1 d2.
  pose proof (throttled_fetch c mnt d) as Hfetch.
  pose proof (throttled_fetch_cancelled c mnt d) as Hcd.
  destruct (dagstore.Throttler_Do (dagstore.throttleFetch d) c (dagstore.mnt_Fetch mnt) d)
    as [r d0] eqn:Hdo; cbn [snd] in Hcd.
  destruct Hfetch as (Hu0 & Hi0 & Hc0 & Hr0 & [->|(_ & ? & _)]); [|congruence].
  rewrite Hmnt in Hdo.
  destruct (initializeShard_fetched generate c s mnt reader d d0 Hdo)
    as (Hu1 & Hr1 & tsk & Hcompl & Hcase).
  fold d1 in Hu1, Hr1, Hcompl, Hcase.
  rewrite (refuses_cancelled d d0 Hcd), Hc0 in Hcompl. rewrite Hi0 in Hcase.
  destruct Hcase as [(msg & e & _ & _ & [?|[?|?]])|(idx' & -> & Hgen' & _ & Hi1)];
    [congruence..|].
  assert (idx' = idx) as -> by congruence.
  unfold d2, dagstore.acquireAsync.
  pose proof (throttled_fetch c2 mnt d1) as Hfetch.
  destruct (dagstore.Throttler_Do (dagstore.throttleFetch d1) c2 (dagstore.mnt_Fetch mnt) d1)
    as [r d3].
  destruct Hfetch as (Hu3 & Hi3 & Hc3 & Hr3 & [->|(_ & ? & _)]); [|congruence].
  rewrite Hmnt.
  pose proof (emit_untouched (dagstore.EvGetFullIndex (dagstore.key s)) d3)
    as (Hu4 & Hi4 & Hc4 & Hr4).
  set (d4 := dagstore.emit _ d3) in *.
  assert (dagstore.GetFullIndex (dagstore.key s) (dagstore.indices d4) = Ok idx) as Hget.
  { rewrite Hi4, Hi3, Hi1. unfold dagstore.GetFullIndex.
    cbn [dagstore.entries dagstore.repo_fault]. by rewrite lookup_insert_eq. }
  rewrite Hget. cbn [dagstore.NewShardAccessor].
  pose proof (dispatchResult_frame (served (dagstore.key s) reader idx) (Some wt) d4)
    as (Hu5 & Hi5 & Hc5 & Hr5).
  unfold served in *. rewrite Hr5, Hi5, Hc5.
  split; [congruence|]. split; [done|]. congruence.
Qed.

Lemma initialize_then_acquire_witness :
  let s := Engine.blank "k1" dagstore.ShardStateInitializing in
  let d1 := dagstore.initializeShard Engine.index_of Engine.live s Scenario.healthy
              Engine.idle in
  let d2 := dagstore.acquireAsync Engine.live Engine.caller s Scenario.healthy d1 in
  dagstore.dispatchResultsCh d2
  = [{| dagstore.w := Some Engine.caller;
        dagstore.res := served "k1" Scenario.car [("bafyroot", 11)] |}]
  ∧ dagstore.completion d2 = [available_task "k1"].
Proof.
  intros s d1 d2.
  destruct (initialize_then_acquire Engine.index_of Engine.live Engine.live Engine.caller s
              Scenario.healthy Scenario.car [("bafyroot", 11)] Engine.idle
              eq_refl eq_refl eq_refl eq_refl eq_refl) as (Hr & _ & Hc).
  split; [exact Hr | exact Hc].
Defined.

Section StartFacts.
Import dagstore.
Variable MkdirAll : string → os.FS → option error * os.FS.

Lemma ensureDir_cases (path : string) (wo : mount.World) :
  (not_a_directory path (mount.fs wo)
   ∧ ensureDir MkdirAll path wo
     = (Some (errorString ("path " +:+ path +:+ " exists, and it is not a directory")), wo))
  ∨ (is_directory path (mount.fs wo) ∧ ensureDir MkdirAll path wo = (None, wo))
  ∨ ((∃ e, os.Stat path (mount.fs wo) = Err e)
     ∧ ensureDir MkdirAll path wo
       = ((MkdirAll path (mount.fs wo)).1,
          mount.set_fs (MkdirAll path (mount.fs wo)).2 wo)).
Proof.
  unfold ensureDir, not_a_directory, is_directory.
  destruct (os.Stat path (mount.fs wo)) as [fi|e] eqn:Hstat.
  - destruct (os.IsDir fi) eqn:Hdir; cbn [negb].
    + right. left. split; [by exists fi | done].
    + left. split; [by exists fi | done].
  - right. right. split; [by exists e|]. by destruct (MkdirAll path (mount.fs wo)).
Qed.

(** Why [ensureDir] failed when it did. *)
Lemma ensureDir_failed (path : string) (wo wo' : mount.World) (cause : error) :
  ensureDir MkdirAll path wo = (Some cause, wo') →
  cannot_ensure MkdirAll path (mount.fs wo) cause.
Proof.
  intros He.
  destruct (ensureDir_cases path wo) as [[Hnot Hr]|[[_ Hr]|[Hstat Hr]]];
    rewrite Hr in He.
  - left. split; [done|]. congruence.
  - done.
  - right. split; [done|]. by injection He as -> _.
Qed.

Lemma queue_registrations_frame (register : list Key) (d : DAGStore) :
  let d' := queue_registrations register d in
  shards d' = shards d ∧ internal d' = internal d ∧ completion d' = completion d
  ∧ dispatchResultsCh d' = dispatchResultsCh d
  ∧ dispatchFailuresCh d' = dispatchFailuresCh d
  ∧ ctx_done d' = ctx_done d ∧ config d' = config d ∧ store d' = store d
  ∧ indices d' = indices d ∧ world d' = world d
  ∧ throttleFetch d' = throttleFetch d ∧ throttleIndex d' = throttleIndex d.
Proof.
  revert d. induction register as [|k register IH]; intros d; cbn.
  - by repeat split.
  - match goal with
    | |- context [queueTask ?t externalCh d] =>
        pose proof (queueTask_spec t externalCh d) as Hq;
        destruct (queueTask t externalCh d) as [ret d1]
    end.
    destruct Hq as (_ & _ & Ho & _ & Hs & Hcfg & Hi & Hst & Hr & Hf & Htf & Hti & Hx & Hw & _).
    pose proof (Ho internalCh) as Hint. pose proof (Ho completionCh) as Hcompl.
    cbn [sent] in Hint, Hcompl.
    rewrite <- Hs, <- Hint, <- Hcompl, <- Hr, <- Hf, <- Hx, <- Hcfg, <- Hst, <- Hi, <- Hw,
      <- Htf, <- Hti by done.
    apply IH.
Qed.

End StartFacts.

Lemma mkdirall_makes_directories : makes_directories Engine.mkdirall.
Proof.
  intros path f f'. unfold Engine.mkdirall. case_bool_decide as Hpath; [done|].
  destruct (os.files f !! path) eqn:Hfile; [done|]. intros [= <-].
  eexists. unfold os.Stat. cbn [os.set_dirs os.files]. rewrite Hfile.
  unfold os.is_dir. cbn [os.dirs]. rewrite bool_decide_eq_true_2; [done|].
  split; [done | set_solver].
Qed.

(** [ensureDir] on the directories that [os.MkdirAll] makes. It returns
    an error in two cases: [os.Stat] finds at the path something that is not
    a directory, and then the error says so and nothing has changed; or
    [os.Stat] does not find the path and [os.MkdirAll] returns the error,
    the disk being as [os.MkdirAll] left it. When it returns nil the path is
    a directory: the disk is unchanged if it was one already, and is as
    [os.MkdirAll] left it otherwise; calling [ensureDir] again then changes
    nothing. *)
Theorem ensureDir_ensures :
  ∀ (MkdirAll : string → os.FS → option error * os.FS) (path : string) (wo : mount.World),
    makes_directories MkdirAll →
    match dagstore.ensureDir MkdirAll path wo with
    | (Some e, wo') =>
        (not_a_directory path (mount.fs wo)
         ∧ e = errorString ("path " +:+ path +:+ " exists, and it is not a directory")
         ∧ wo' = wo)
        ∨ ((∃ e0, os.Stat path (mount.fs wo) = Err e0)
           ∧ MkdirAll path (mount.fs wo) = (Some e, mount.fs wo'))
    | (None, wo') =>
        is_directory path (mount.fs wo')
        ∧ (is_directory path (mount.fs wo) → wo' = wo)
        ∧ ((∃ e0, os.Stat path (mount.fs wo) = Err e0) →
           MkdirAll path (mount.fs wo) = (None, mount.fs wo'))
        ∧ dagstore.ensureDir MkdirAll path wo' = (None, wo')
    end.
Proof.
  intros MkdirAll path wo Hmk.
  assert (∀ wo1, is_directory path (mount.fs wo1) →
                 dagstore.ensureDir MkdirAll path wo1 = (None, wo1)) as Hagain.
  { intros wo1 (fi & Hstat & Hdir). unfold dagstore.ensureDir. by rewrite Hstat, Hdir. }
  destruct (ensureDir_cases MkdirAll path wo)
    as [[Hnot ->]|[[Hdir ->]|[[e0 Hstat] ->]]].
  - by left.
  - split; [done|]. split; [done|]. split; [|by apply Hagain].
    destruct Hdir as (fi & Hfi & _). intros [e0 He0]. congruence.
  - destruct (MkdirAll path (mount.fs wo)) as [[e|] f'] eqn:Hcall; cbn [fst snd].
    + right. split; [by exists e0|]. by destruct wo.
    + assert (is_directory path (mount.fs (mount.set_fs f' wo))) as Hdir
        by (destruct wo; by apply (Hmk path _ _ Hcall)).
      split; [done|]. split; [|split; [|by apply Hagain]].
      * intros (fi & Hfi & _). congruence.
      * intros _. by destruct wo.
Qed.

Lemma ensureDir_ensures_witness :
  ∃ wo',
    dagstore.ensureDir Engine.mkdirall "/data/transients" Scenario.disk = (None, wo')
    ∧ is_directory "/data/transients" (mount.fs wo')
    ∧ dagstore.ensureDir Engine.mkdirall "/data/transients" wo' = (None, wo').
Proof.
  pose proof (ensureDir_ensures Engine.mkdirall "/data/transients" Scenario.disk
                mkdirall_makes_directories) as H.
  destruct (dagstore.ensureDir Engine.mkdirall "/data/transients" Scenario.disk)
    as [[e|] wo'] eqn:Hcall.
  - exfalso. vm_compute in Hcall. discriminate Hcall.
  - exists wo'. destruct H as (Hdir & _ & _ & Hagain). by repeat split.
Defined.

(** [NewDAGStore] fails for these reasons and no other: no transients
    directory is configured; the transients directory cannot be ensured;
    the configured index directory cannot be ensured on the disk that the
    first [ensureDir] left; the index repository cannot be instantiated on
    the disk that the second left; the query of the datastore fails. A
    directory cannot be ensured when something that is not a directory is
    at its path, or when [os.Stat] does not find the path and [os.MkdirAll]
    fails. Each error is reported wrapped in the message of its step. When
    the constructor succeeds none of the reasons held; in particular,
    whether it succeeds does not depend on the records of the store or on
    how they deserialize. *)
Theorem NewDAGStore_fails_only_for :
  ∀ (UnmarshalJSON : string → result dagstore.Shard)
    (NewFSRepo : string → os.FS → result dagstore.FullIndexRepo * os.FS)
    (MkdirAll : string → os.FS → option error * os.FS)
    (cfg : dagstore.Config) (wo : mount.World),
    let scratch := dagstore.TransientsDir cfg in
    let index := dagstore.IndexDir cfg in
    let ds := match dagstore.Datastore_of cfg with
              | Some ds => ds
              | None => dagstore.NewMapDatastore
              end in
    match dagstore.NewDAGStore UnmarshalJSON NewFSRepo MkdirAll cfg wo with
    | Ok _ =>
        scratch ≠ ""
        ∧ (∃ wo1, dagstore.ensureDir MkdirAll scratch wo = (None, wo1)
                  ∧ (index ≠ "" →
                     ∃ wo2, dagstore.ensureDir MkdirAll index wo1 = (None, wo2)
                            ∧ is_ok (NewFSRepo index (mount.fs wo2)).1 = true))
        ∧ dagstore.query_err ds = None
    | Err e =>
        (scratch = "" ∧ e = errorString "missing scratch area root path")
        ∨ (scratch ≠ ""
           ∧ ∃ cause, cannot_ensure MkdirAll scratch (mount.fs wo) cause
                      ∧ e = wrapError "failed to create scratch root dir" cause)
        ∨ (scratch ≠ "" ∧ index ≠ ""
           ∧ ∃ wo1 cause, dagstore.ensureDir MkdirAll scratch wo = (None, wo1)
                          ∧ cannot_ensure MkdirAll index (mount.fs wo1) cause
                          ∧ e = wrapError "failed to create index root dir" cause)
        ∨ (scratch ≠ "" ∧ index ≠ ""
           ∧ ∃ wo1 wo2 cause,
               dagstore.ensureDir MkdirAll scratch wo = (None, wo1)
               ∧ dagstore.ensureDir MkdirAll index wo1 = (None, wo2)
               ∧ (NewFSRepo index (mount.fs wo2)).1 = Err cause
               ∧ e = wrapError "failed to instantiate full index repo" cause)
        ∨ (∃ cause, dagstore.query_err ds = Some cause
                    ∧ e = wrapError "failed to restore dagstore state"
                            (wrapError "failed to recover dagstore state from store" cause))
    end.
Proof.
  intros UnmarshalJSON NewFSRepo MkdirAll cfg wo scratch index ds.
  unfold dagstore.NewDAGStore. fold scratch index.
  case_bool_decide as Hscratch; [by left|].
  destruct (dagstore.ensureDir MkdirAll scratch wo) as [[e|] wo1] eqn:Hdir1.
  { right. left. split; [done|]. exists e. split; [|done].
    by apply (ensureDir_failed MkdirAll scratch wo wo1). }
  case_bool_decide as Hindex.
  - cbv zeta. unfold dagstore.restoreState. cbn [dagstore.store]. fold ds.
    destruct (dagstore.query_err ds) as [cause|]; [do 4 right; by exists cause|].
    destruct (dagstore.reset_loop _) as [catalog register].
    split; [done|]. split; [|done]. exists wo1. by split.
  - destruct (dagstore.ensureDir MkdirAll index wo1) as [[e|] wo2] eqn:Hdir2.
    { do 2 right. left. split; [done|]. split; [done|]. exists wo1, e.
      split; [done|]. split; [|done]. by apply (ensureDir_failed MkdirAll index wo1 wo2). }
    destruct (NewFSRepo index (mount.fs wo2)) as [[repo|cause] f] eqn:Hrepo.
    + cbv zeta. unfold dagstore.restoreState. cbn [dagstore.store]. fold ds.
      destruct (dagstore.query_err ds) as [cause|]; [do 4 right; by exists cause|].
      destruct (dagstore.reset_loop _) as [catalog register].
      split; [done|]. split; [|done]. exists wo1. split; [done|]. intros _.
      exists wo2. split; [done|]. by rewrite Hrepo.
    + do 3 right. left. split; [done|]. split; [done|]. exists wo1, wo2, cause.
      split; [done|]. split; [done|]. split; [by rewrite Hrepo | done].
Qed.

(** The engine that [NewDAGStore] returns is running and idle: its root
    context is live; nothing is on the internal or the completion channel,
    nothing awaits the dispatcher, and the failure dispatcher exists exactly
    when a failure channel was configured; each throttler has the
    configured capacity when that is positive and is the no-op throttler
    otherwise; the index repository is the in-memory one when no index
    directory is configured and the one instantiated on that directory
    otherwise. The disk of the engine is the one that [ensureDir] left for
    the transients directory, then for the configured index directory, and
    that the instantiation of the index repository left after them:
    restoring the state and queueing the registrations do not touch it. *)
Theorem NewDAGStore_starts_idle :
  ∀ (UnmarshalJSON : string → result dagstore.Shard)
    (NewFSRepo : string → os.FS → result dagstore.FullIndexRepo * os.FS)
    (MkdirAll : string → os.FS → option error * os.FS)
    (cfg : dagstore.Config) (wo : mount.World) (dagst : dagstore.DAGStore),
    dagstore.NewDAGStore UnmarshalJSON NewFSRepo MkdirAll cfg wo = Ok dagst →
    let limit (max : Z) := if bool_decide (0 < max)%Z then Z.to_nat max else 0 in
    dagstore.ctx_done dagst = false
    ∧ dagstore.internal dagst = []
    ∧ dagstore.completion dagst = []
    ∧ dagstore.dispatchResultsCh dagst = []
    ∧ dagstore.dispatchFailuresCh dagst
      = match dagstore.FailureCh cfg with Some _ => Some [] | None => None end
    ∧ dagstore.capacity (dagstore.throttleFetch dagst)
      = limit (dagstore.MaxConcurrentFetch cfg)
    ∧ dagstore.capacity (dagstore.throttleIndex dagst)
      = limit (dagstore.MaxConcurrentIndex cfg)
    ∧ dagstore.TransientsDir (dagstore.config dagst) = dagstore.TransientsDir cfg
    ∧ dagstore.TransientsDir cfg ≠ ""
    ∧ ∃ wo1,
        dagstore.ensureDir MkdirAll (dagstore.TransientsDir cfg) wo = (None, wo1)
        ∧ (dagstore.IndexDir cfg = "" →
           dagstore.indices dagst = dagstore.NewMemoryRepo
           ∧ dagstore.world dagst = wo1)
        ∧ (dagstore.IndexDir cfg ≠ "" →
           ∃ wo2 f,
             dagstore.ensureDir MkdirAll (dagstore.IndexDir cfg) wo1 = (None, wo2)
             ∧ NewFSRepo (dagstore.IndexDir cfg) (mount.fs wo2)
               = (Ok (dagstore.indices dagst), f)
             ∧ dagstore.world dagst = mount.set_fs f wo2).
Proof.
  intros U NewFS MkdirAll cfg wo dagst Hnew limit. unfold dagstore.NewDAGStore in Hnew.
  case_bool_decide as Hscratch; [done|].
  destruct (dagstore.ensureDir MkdirAll (dagstore.TransientsDir cfg) wo)
    as [[e|] wo1] eqn:Hdir1; [done|].
  assert (∃ repo wo3,
            (if bool_decide (dagstore.IndexDir cfg = "")
             then Ok (dagstore.NewMemoryRepo, wo1)
             else
               match dagstore.ensureDir MkdirAll (dagstore.IndexDir cfg) wo1 with
               | (Some err, _) => Err (wrapError "failed to create index root dir" err)
               | (None, wo) =>
                   match NewFS (dagstore.IndexDir cfg) (mount.fs wo) with
                   | (Err err, _) =>
                       Err (wrapError "failed to instantiate full index repo" err)
                   | (Ok repo, f) => Ok (repo, mount.set_fs f wo)
                   end
               end) = Ok (repo, wo3)
            ∧ (dagstore.IndexDir cfg = "" → repo = dagstore.NewMemoryRepo ∧ wo3 = wo1)
            ∧ (dagstore.IndexDir cfg ≠ "" →
               ∃ wo2 f,
                 dagstore.ensureDir MkdirAll (dagstore.IndexDir cfg) wo1 = (None, wo2)
                 ∧ NewFS (dagstore.IndexDir cfg) (mount.fs wo2) = (Ok repo, f)
                 ∧ wo3 = mount.set_fs f wo2))
    as (repo & wo3 & Hinst & Hmem & Hfsrepo).
  { case_bool_decide as Hindex.
    - exists dagstore.NewMemoryRepo, wo1. by repeat split.
    - destruct (dagstore.ensureDir MkdirAll (dagstore.IndexDir cfg) wo1)
        as [[e|] wo2] eqn:Hdir2; [done|].
      destruct (NewFS (dagstore.IndexDir cfg) (mount.fs wo2)) as [[repo|e] f] eqn:Hrepo;
        [|done].
      exists repo, (mount.set_fs f wo2). split; [done|]. split; [done|].
      intros _. by exists wo2, f. }
  rewrite Hinst in Hnew. clear Hinst.
  match type of Hnew with
  | context [dagstore.restoreState U ?d] => set (d0 := d) in *
  end.
  destruct (dagstore.restoreState U d0) as [[e|] d1] eqn:Hrestore; [done|].
  assert (Hframe : d1 = dagstore.set_shards (dagstore.shards d1) d0).
  { unfold dagstore.restoreState in Hrestore.
    destruct (dagstore.query_err _); [done|]. inversion Hrestore.
    apply restoreState_loop_frame. }
  destruct (dagstore.reset_loop d1) as [catalog register].
  set (d2 := match dagstore.FailureCh cfg with
             | Some _ => _
             | None => _
             end) in Hnew.
  pose proof (queue_registrations_frame register d2)
    as (_ & Hint & Hcompl & Hres & Hfail & Hdone & Hcfg & _ & Hidx & Hworld & Htf & Hti).
  injection Hnew as <-.
  rewrite Hint, Hcompl, Hres, Hfail, Hdone, Hcfg, Hidx, Hworld, Htf, Hti.
  assert (dagstore.indices d2 = repo ∧ dagstore.world d2 = wo3) as [-> ->]
    by (unfold d2; rewrite Hframe; unfold d0; by destruct (dagstore.FailureCh cfg)).
  split; [unfold d2; rewrite Hframe; unfold d0; by destruct (dagstore.FailureCh cfg)|].
  split; [unfold d2; rewrite Hframe; unfold d0; by destruct (dagstore.FailureCh cfg)|].
  split; [unfold d2; rewrite Hframe; unfold d0; by destruct (dagstore.FailureCh cfg)|].
  split; [unfold d2; rewrite Hframe; unfold d0; by destruct (dagstore.FailureCh cfg)|].
  split; [unfold d2; rewrite Hframe; unfold d0; by destruct (dagstore.FailureCh cfg)|].
  split; [unfold d2; rewrite Hframe; unfold d0; by destruct (dagstore.FailureCh cfg)|].
  split; [unfold d2; rewrite Hframe; unfold d0; by destruct (dagstore.FailureCh cfg)|].
  split; [unfold d2; rewrite Hframe; unfold d0; by destruct (dagstore.FailureCh cfg)|].
  split; [done|]. exists wo1. split; [done|]. split; [done|]. done.
Qed.

Lemma NewDAGStore_starts_idle_witness :
  ∃ dagst,
    dagstore.NewDAGStore Engine.decode Engine.fsrepo Engine.mkdirall Engine.cfg Scenario.disk
    = Ok dagst
    ∧ dagstore.ctx_done dagst = false
    ∧ dagstore.capacity (dagstore.throttleFetch dagst) = 2.
Proof.
  assert (∃ dagst, dagstore.NewDAGStore Engine.decode Engine.fsrepo Engine.mkdirall
                     Engine.cfg Scenario.disk = Ok dagst) as [dagst Hnew].
  { eexists. vm_compute. reflexivity. }
  exists dagst. split; [exact Hnew|].
  destruct (NewDAGStore_starts_idle Engine.decode Engine.fsrepo Engine.mkdirall Engine.cfg
              Scenario.disk dagst Hnew) as (Hopen & _ & _ & _ & _ & Hcap & _).
  split; [exact Hopen | exact Hcap].
Defined.
